(** * Portfolio optimizer: a shallow embedding of [portfolio_optimizer.py]

    The development follows the Python module function by function:
    [load_portfolio_history], [calculate_portfolio_metrics],
    [combine_portfolios], [optimize_portfolio] and [main] with its
    custom-weights branch; [create_sequences] of [utils.py] is embedded
    beside them.

    Numbers.  Every number the program handles is a Python/numpy float64.
    The code is written once, over an interface of float64 operations
    ([Float64]), and read in two ways:

    - [Binary64.ops]: IEEE 754 binary64 itself (the kernel's primitive
      floats), bit for bit what CPython and numpy compute; it evaluates with
      [vm_compute], and what is proved of the arithmetic of the program is
      proved of it, from the specification of its operations ([SpecFloat]);
    - [XReal.ops]: the same special values (NaN, the two infinities) over
      exact real numbers: no rounding, no overflow, a single zero.  This is
      the arithmetic a reader has in mind, kept beside the floats for
      comparison; it does not stand for them.

    A statement about numbers is made for binary64, or for every reading
    that has the laws of the arithmetic the proof needs ([Float64Laws]);
    the laws are proved for binary64 and for exact arithmetic.  Where a
    claim is about a tolerance, the rounding of binary64 is bounded:
    products, quotients and sums of numbers that are not negative are exact
    up to the relative error 2^-53 of each operation, or up to 2^-1075 under
    the normal range.

    Effects.  Reading a curve touches the file system, a function may
    [return None] at several places and library calls may raise.  The
    embedding keeps all three: a log of the files consulted, the place a
    [None] comes from, and the exception raised.

    Layout.  The embedding comes first (numbers, effects, the program, the
    words the statements use, inputs to run the program on, the laws of the
    arithmetic and the numbers behind the floats); then the facts: those
    that hold in every reading of the numbers, those of exact arithmetic,
    those of binary64 (its order, its laws, its rounding, runs of the
    program), and the claims C1 to C10 of the specification, each with the
    theorem that settles it.  Further properties of the code close the
    file. *)

From Stdlib Require Import Reals RList Lra Lia ZArith Bool List String Ascii.
From Stdlib Require Import Floats Uint63 Permutation Sorted.
Import ListNotations.

#[local] Set Warnings "-inexact-float".

(** ** Float64 operations *)

(** What the program asks of its numbers.  [of_Z] is the conversion of a
    Python [int] to float ([0], [1.0], [100], [252], loop counters);
    comparisons answer [false] whenever an operand is NaN; [fceil] is the
    integer ceiling numpy takes of an array length (it has no value on NaN
    and on the infinities). *)
Class Float64 (F : Type) : Type := {
  of_Z : Z -> F;
  fadd : F -> F -> F;
  fsub : F -> F -> F;
  fmul : F -> F -> F;
  fdiv : F -> F -> F;
  fabs : F -> F;
  fsqrt : F -> F;
  fltb : F -> F -> bool;
  fleb : F -> F -> bool;
  fisnan : F -> bool;
  fnan : F;
  fpos_inf : F;
  fneg_inf : F;
  fceil : F -> option Z
}.

(** What the ranking needs of [<] and [<=] on its keys.  Both readings of
    the numbers have these laws. *)
Class KeyOrder (F : Type) {ops : Float64 F} : Prop := {
  fltb_fleb : forall a b : F, fltb a b = true -> fleb a b = true;
  fleb_not_fltb : forall a b : F, fleb b a = true -> fltb a b = false;
  fleb_total : forall a b : F,
    fisnan a = false -> fisnan b = false -> fltb a b = false -> fleb b a = true;
  fleb_trans : forall a b c : F,
    fleb a b = true -> fleb b c = true -> fleb a c = true
}.

(** ** IEEE 754 binary64 *)

Module Binary64.

(** Exact for [|z| < 2^53], which covers every integer the program
    converts. *)
Definition of_Z (z : Z) : float :=
  match z with
  | Z0 => PrimFloat.zero
  | Zpos _ => PrimFloat.of_uint63 (Uint63.of_Z z)
  | Zneg p => PrimFloat.opp (PrimFloat.of_uint63 (Uint63.of_Z (Zpos p)))
  end.

(** Ceiling of [m * 2^e] with the sign [s], from the float's decomposition. *)
Definition ceil (x : float) : option Z :=
  match Prim2SF x with
  | S754_zero _ => Some 0%Z
  | S754_infinity _ => None
  | S754_nan => None
  | S754_finite s m e =>
      let num := if s then Zneg m else Zpos m in
      if (0 <=? e)%Z then Some (num * 2 ^ e)%Z
      else Some (- ((- num) / 2 ^ (- e)))%Z
  end.

#[global] Instance ops : Float64 float := {
  of_Z := of_Z;
  fadd := PrimFloat.add;
  fsub := PrimFloat.sub;
  fmul := PrimFloat.mul;
  fdiv := PrimFloat.div;
  fabs := PrimFloat.abs;
  fsqrt := PrimFloat.sqrt;
  fltb := PrimFloat.ltb;
  fleb := PrimFloat.leb;
  fisnan := PrimFloat.is_nan;
  fnan := PrimFloat.nan;
  fpos_inf := PrimFloat.infinity;
  fneg_inf := PrimFloat.neg_infinity;
  fceil := ceil
}.

End Binary64.

(** ** Exact extended reals *)

Module XReal.

Inductive t : Type :=
| Finite (r : R)
| Infinite (negative : bool)
| NaN.

Definition Rltb (a b : R) : bool := if Rlt_dec a b then true else false.
Definition Rleb (a b : R) : bool := if Rle_dec a b then true else false.
Definition Reqb (a b : R) : bool := if Req_EM_T a b then true else false.

Definition opp (x : t) : t :=
  match x with
  | Finite a => Finite (- a)
  | Infinite s => Infinite (negb s)
  | NaN => NaN
  end.

Definition add (x y : t) : t :=
  match x, y with
  | NaN, _ | _, NaN => NaN
  | Finite a, Finite b => Finite (a + b)
  | Infinite s, Finite _ | Finite _, Infinite s => Infinite s
  | Infinite s, Infinite s' => if Bool.eqb s s' then Infinite s else NaN
  end.

Definition sub (x y : t) : t := add x (opp y).

Definition mul (x y : t) : t :=
  match x, y with
  | NaN, _ | _, NaN => NaN
  | Finite a, Finite b => Finite (a * b)
  | Infinite s, Finite r | Finite r, Infinite s =>
      if Reqb r 0 then NaN else Infinite (xorb s (Rltb r 0))
  | Infinite s, Infinite s' => Infinite (xorb s s')
  end.

Definition div (x y : t) : t :=
  match x, y with
  | NaN, _ | _, NaN => NaN
  | Finite a, Finite b =>
      if Reqb b 0
      then (if Reqb a 0 then NaN else Infinite (Rltb a 0))
      else Finite (a / b)
  | Finite _, Infinite _ => Finite 0
  | Infinite s, Finite r => Infinite (xorb s (Rltb r 0))
  | Infinite _, Infinite _ => NaN
  end.

Definition abs (x : t) : t :=
  match x with
  | Finite a => Finite (Rabs a)
  | Infinite _ => Infinite false
  | NaN => NaN
  end.

Definition sqrt (x : t) : t :=
  match x with
  | Finite a => if Rltb a 0 then NaN else Finite (R_sqrt.sqrt a)
  | Infinite false => Infinite false
  | Infinite true => NaN
  | NaN => NaN
  end.

Definition ltb (x y : t) : bool :=
  match x, y with
  | Finite a, Finite b => Rltb a b
  | Infinite true, Finite _ => true
  | Finite _, Infinite false => true
  | Infinite true, Infinite false => true
  | _, _ => false
  end.

Definition leb (x y : t) : bool :=
  match x, y with
  | Finite a, Finite b => Rleb a b
  | Infinite true, Finite _ => true
  | Finite _, Infinite false => true
  | Infinite s, Infinite s' => implb s' s
  | _, _ => false
  end.

Definition is_nan (x : t) : bool :=
  match x with NaN => true | _ => false end.

Definition ceil (x : t) : option Z :=
  match x with
  | Finite a => Some (Zceil a)
  | _ => None
  end.

#[global] Instance ops : Float64 t := {
  of_Z := fun z => Finite (IZR z);
  fadd := add;
  fsub := sub;
  fmul := mul;
  fdiv := div;
  fabs := abs;
  fsqrt := sqrt;
  fltb := ltb;
  fleb := leb;
  fisnan := is_nan;
  fnan := NaN;
  fpos_inf := Infinite false;
  fneg_inf := Infinite true;
  fceil := ceil
}.

End XReal.

(** ** Python values and effects *)

(** The exceptions the program can let escape: an index out of range, a
    label missing from an index, a grid step of zero, a grid whose length is
    NaN or infinite, and a CSV file pandas cannot read into a frame with a
    [Date] column. *)
Inductive exn : Type :=
| IndexError
| KeyError
| ZeroDivisionError
| ValueError
| ParserError.

Inductive py (A : Type) : Type :=
| Return (a : A)
| Raise (e : exn).

Arguments Return {A} a.
Arguments Raise {A} e.

Definition py_bind {A B : Type} (m : py A) (k : A -> py B) : py B :=
  match m with
  | Return a => k a
  | Raise e => Raise e
  end.

(** A computation that may consult files: the paths consulted, in order, and
    the outcome. *)
Definition io (A : Type) : Type := (list string * py A)%type.

Definition ret {A : Type} (a : A) : io A := ([], Return a).

Definition lift {A : Type} (m : py A) : io A := ([], m).

Definition bind {A B : Type} (m : io A) (k : A -> io B) : io B :=
  match m with
  | (log, Return a) => let (log', r) := k a in (log ++ log', r)
  | (log, Raise e) => (log, Raise e)
  end.

Declare Scope io_scope.
Delimit Scope io_scope with io.
Notation "x <- m ;; k" := (bind m (fun x => k))
  (at level 61, m at next level, right associativity) : io_scope.
Notation "x <~ m ;; k" := (py_bind m (fun x => k))
  (at level 61, m at next level, right associativity) : io_scope.

Definition files_read {A : Type} (m : io A) : list string := fst m.
Definition outcome {A : Type} (m : io A) : py A := snd m.

(** ** Strings *)

Definition lower_ascii (c : ascii) : ascii :=
  let n := nat_of_ascii c in
  if (65 <=? n)%nat && (n <=? 90)%nat then ascii_of_nat (n + 32) else c.

(** [str.lower] on ASCII text.  Python also lowers the letters outside
    ASCII; the names of the strategy types are taken to be ASCII. *)
Fixpoint lower (s : string) : string :=
  match s with
  | EmptyString => EmptyString
  | String c r => String (lower_ascii c) (lower r)
  end.

(** ** Lists as Python uses them *)

Fixpoint map2 {A B C : Type} (f : A -> B -> C) (l : list A) (l' : list B) : list C :=
  match l, l' with
  | a :: r, b :: r' => f a b :: map2 f r r'
  | _, _ => []
  end.

(** [range(n)]. *)
Definition Zrange (n : Z) : list Z := map Z.of_nat (seq 0 (Z.to_nat n)).

(** [itertools.product(r, repeat=n)]: the first coordinate varies slowest. *)
Fixpoint product {A : Type} (r : list A) (n : nat) : list (list A) :=
  match n with
  | O => [[]]
  | S k => flat_map (fun x => map (cons x) (product r k)) r
  end.

(** [l[:k]] for a Python [int] [k]: a negative [k] counts from the end. *)
Definition slice_to {A : Type} (l : list A) (k : Z) : list A :=
  if (k <? 0)%Z
  then firstn (Z.to_nat (Z.of_nat (List.length l) + k)) l
  else firstn (Z.to_nat k) l.

(** First occurrences only, in order ([Index.unique]). *)
Fixpoint unique (l : list Z) : list Z :=
  match l with
  | [] => []
  | d :: r => d :: filter (fun d' => negb (d' =? d)%Z) (unique r)
  end.

Definition mem (d : Z) (l : list Z) : bool := existsb (Z.eqb d) l.

(** [a.intersection(b)] with pandas' default [sort=False]: the distinct
    labels of [a] that occur in [b], in the order of [a]. *)
Definition index_intersection (a b : list Z) : list Z :=
  filter (fun d => mem d b) (unique a).

(** The beginnings of a curve that are not empty, shortest first. *)
Fixpoint prefixes {A : Type} (l : list A) : list (list A) :=
  match l with
  | [] => []
  | x :: r => [x] :: map (cons x) (prefixes r)
  end.

(** A list is a prefix of another. *)
Definition is_prefix {A : Type} (l l' : list A) : Prop := exists rest, l' = (l ++ rest)%list.

(** ** The program *)

Definition date : Type := Z.

Section Program.

Context {F : Type} {ops : Float64 F}.

Local Open Scope io_scope.

(** *** numpy and pandas operations on float64 series *)

(** The literal [0.01]: the double nearest to 1/100, which the correctly
    rounded quotient of the exact [1] and [100] is. *)
Definition lit_0_01 : F := fdiv (of_Z 1) (of_Z 100).

(** The builtin [sum]: left to right, from the integer [0].  The floats
    numpy makes, which the grid search sums, are added one by one in every
    version of Python; from Python 3.12 on a list of Python's own floats is
    summed with a compensation of the rounding, which is not modelled. *)
Definition py_sum (l : list F) : F := fold_left fadd l (of_Z 0).

(** The unrolled loop of numpy's summation: eight running sums, to which
    the elements are added eight at a time, [groups] times. *)
Fixpoint add_by_eight (groups : nat) (r : list F) (l : list F) : list F * list F :=
  match groups with
  | O => (r, l)
  | S g => add_by_eight g (map2 fadd r (firstn 8 l)) (skipn 8 l)
  end.

(** A block of 8 to 128 elements: the eight running sums start as the first
    eight elements and take the full groups of eight that follow; they are
    added two by two, and the elements that are left over, fewer than
    eight, are added to the result one after the other. *)
Definition sum_block (l : list F) : F :=
  let (r, rest) :=
    add_by_eight (List.length l / 8 - 1) (firstn 8 l) (skipn 8 l) in
  match r with
  | [r0; r1; r2; r3; r4; r5; r6; r7] =>
      fold_left fadd rest
        (fadd (fadd (fadd r0 r1) (fadd r2 r3)) (fadd (fadd r4 r5) (fadd r6 r7)))
  | _ => fold_left fadd rest (fold_left fadd r (of_Z 0))
  end.

(** numpy's pairwise summation: fewer than eight elements are added left to
    right from zero, up to 128 as a block, and more than that in two halves
    (the first of [n / 2] elements rounded down to a multiple of eight),
    each summed the same way.  [fuel] bounds the depth of the halving; the
    length of the list is enough. *)
Fixpoint pairwise_sum (fuel : nat) (l : list F) : F :=
  let n := List.length l in
  if (n <? 8)%nat then fold_left fadd l (of_Z 0)
  else if (n <=? 128)%nat then sum_block l
  else
    match fuel with
    | O => sum_block l
    | S fuel' =>
        let n2 := (n / 2 - (n / 2) mod 8)%nat in
        fadd (pairwise_sum fuel' (firstn n2 l)) (pairwise_sum fuel' (skipn n2 l))
    end.

(** [ndarray.sum] of a one-dimensional float64 array: the pairwise sum of
    its elements, added to the zero the reduction starts from. *)
Definition np_sum (l : list F) : F :=
  fadd (of_Z 0) (pairwise_sum (List.length l) l).

(** [np.maximum] and [np.minimum]: the first operand wins ties and NaN, as
    in the scalar loop of numpy.  The only tie between different floats is
    that of the two zeros, which compare equal; the vectorised loops of
    numpy may return the other zero. *)
Definition np_maximum (a b : F) : F := if fleb b a || fisnan a then a else b.
Definition np_minimum (a b : F) : F := if fleb a b || fisnan a then a else b.

Fixpoint accumulate_from (f : F -> F -> F) (acc : F) (l : list F) : list F :=
  match l with
  | [] => []
  | x :: r => let a := f acc x in a :: accumulate_from f a r
  end.

(** [ufunc.accumulate]. *)
Definition accumulate (f : F -> F -> F) (l : list F) : list F :=
  match l with
  | [] => []
  | x :: r => x :: accumulate_from f x r
  end.

(** [Series.dropna]. *)
Definition dropna (l : list F) : list F := filter (fun x => negb (fisnan x)) l.

Fixpoint pct_change_from (prev : F) (l : list F) : list F :=
  match l with
  | [] => []
  | x :: r => fsub (fdiv x prev) (of_Z 1) :: pct_change_from x r
  end.

(** [Series.pct_change]: each value over the previous one, minus one; the
    first entry has no predecessor and is NaN.  (Versions of pandas that
    first fill NaN entries forward agree with this on a series that holds no
    NaN, and on one that holds nothing else.) *)
Definition pct_change (l : list F) : list F :=
  match l with
  | [] => []
  | x :: r => fnan :: pct_change_from x r
  end.

(** [Series.std]: the sample standard deviation (one degree of freedom
    removed) of the values that are not NaN; NaN when fewer than two remain. *)
Definition series_std (l : list F) : F :=
  let values := dropna l in
  let count := List.length values in
  if (count <=? 1)%nat then fnan
  else
    let avg := fdiv (np_sum values) (of_Z (Z.of_nat count)) in
    let sqr := map (fun x => let d := fsub avg x in fmul d d) values in
    fsqrt (fdiv (np_sum sqr) (of_Z (Z.of_nat count - 1))).

(** [Series.cummax]: NaN entries are set aside (they count as minus
    infinity for the running maximum and stay NaN in the result). *)
Definition cummax (l : list F) : list F :=
  let vals := map (fun v => if fisnan v then fneg_inf else v) l in
  map2 (fun v a => if fisnan v then fnan else a) l (accumulate np_maximum vals).

(** [Series.min]: the least value that is not NaN; NaN when there is none. *)
Definition series_min (l : list F) : F :=
  match dropna l with
  | [] => fnan
  | x :: r => fold_left np_minimum r x
  end.

(** *** Curves on disk *)

(** A parsed [portfolio_history.csv]: one row per date, with the date index
    and the [Portfolio_Value] column.  The dates of a frame are distinct (the
    behaviour of the program on repeated dates is left open by its
    specification and is not modelled). *)
Definition frame : Type := list (date * F).

Definition index (df : frame) : list date := map fst df.

(** What a strategy folder holds: a file pandas reads, or one it cannot. *)
Inductive artifact : Type :=
| Unreadable
| Csv (rows : frame).

(** [results_dir]: the [portfolio_history.csv] of each strategy folder, by
    folder name; [None] where there is no such file. *)
Definition directory : Type := string -> option artifact.

Definition strategy : Type := (string * string)%type.

Definition strategy_dir (ticker strategy_type : string) : string :=
  (ticker ++ "_" ++ lower strategy_type)%string.

Definition load_portfolio_history (ticker strategy_type : string)
    (results_dir : directory) : io (option frame) :=
  let portfolio_file := strategy_dir ticker strategy_type in
  match results_dir portfolio_file with
  | None => ([portfolio_file], Return None)
  | Some Unreadable => ([portfolio_file], Raise ParserError)
  | Some (Csv df) => ([portfolio_file], Return (Some df))
  end.

(** *** Metrics *)

Record metrics : Type := {
  final_value : F;
  total_return : F;
  std_dev : F;
  max_drawdown : F;
  sharpe_ratio : F;
  volatility : F
}.

Definition calculate_portfolio_metrics (combined_portfolio_value : list F)
    (initial_capital : F) : option metrics :=
  match combined_portfolio_value with
  | [] => None
  | _ :: _ =>
      let final_value := last combined_portfolio_value fnan in
      let total_return :=
        fmul (fdiv (fsub final_value initial_capital) initial_capital) (of_Z 100) in
      let daily_returns :=
        map (fun r => fmul r (of_Z 100)) (dropna (pct_change combined_portfolio_value)) in
      let std_dev := series_std daily_returns in
      let peak := cummax combined_portfolio_value in
      let drawdown :=
        map2 (fun v p => fmul (fdiv (fsub v p) p) (of_Z 100))
          combined_portfolio_value peak in
      let max_drawdown := series_min drawdown in
      let sharpe_ratio :=
        if fltb (of_Z 0) std_dev
        then fdiv (fsub total_return (of_Z 2)) (fmul std_dev (fsqrt (of_Z 252)))
        else of_Z 0 in
      Some {| final_value := final_value;
              total_return := total_return;
              std_dev := std_dev;
              max_drawdown := max_drawdown;
              sharpe_ratio := sharpe_ratio;
              volatility := fmul std_dev (fsqrt (of_Z 252)) |}
  end.

(** *** Combining strategies *)

(** The four places where the program gives up with [return None]: the
    weight check, a missing file, no common date, an empty series. *)
Inductive none_site : Type :=
| InvalidWeights
| NotFound
| NoCommonDates
| NoData.

(** The dictionary [combine_portfolios] returns on success. *)
Record portfolio : Type := {
  metrics_of : metrics;
  strategies_of : list strategy;
  weights_of : list F;
  portfolio_series : list (date * F)
}.

(** What [combine_portfolios] returns: [None] (with the place it comes
    from) or the dictionary. *)
Inductive combined : Type :=
| Nothing (site : none_site)
| Portfolio (p : portfolio).

(** [abs(sum(weights) - 1.0) > 0.01]. *)
Definition weights_rejected (weights : list F) : bool :=
  fltb lit_0_01 (fabs (fsub (py_sum weights) (of_Z 1))).

(** The loading loop; [None] when a history is missing. *)
Fixpoint load_all (strategies : list strategy) (results_dir : directory)
    : io (option (list frame)) :=
  match strategies with
  | [] => ret (Some [])
  | (ticker, strategy_type) :: rest =>
      df <- load_portfolio_history ticker strategy_type results_dir ;;
      match df with
      | None => ret None
      | Some df =>
          portfolios <- load_all rest results_dir ;;
          ret (option_map (cons df) portfolios)
      end
  end.

(** [portfolios[0].index] intersected with every other index in turn. *)
Definition common_dates_of (portfolios : list frame) : py (list date) :=
  match portfolios with
  | [] => Raise IndexError
  | df :: rest =>
      Return (fold_left (fun common df' => index_intersection common (index df'))
                rest (index df))
  end.

Definition value_at (df : frame) (d : date) : option F :=
  option_map snd (find (fun row => (fst row =? d)%Z) df).

(** [df.loc[labels, 'Portfolio_Value']]. *)
Fixpoint loc (df : frame) (labels : list date) : py (list F) :=
  match labels with
  | [] => Return []
  | d :: r =>
      match value_at df d with
      | None => Raise KeyError
      | Some v => vs <~ loc df r ;; Return (v :: vs)
      end
  end.

(** [s.iloc[0]]. *)
Definition iloc0 (s : list F) : py F :=
  match s with
  | [] => Raise IndexError
  | v :: _ => Return v
  end.

(** [weights[i]]. *)
Definition item (weights : list F) (i : nat) : py F :=
  match nth_error weights i with
  | None => Raise IndexError
  | Some w => Return w
  end.

(** The blending loop [for i, df in enumerate(portfolios)], from strategy
    number [i] on, with the series accumulated so far. *)
Fixpoint blend (portfolios : list frame) (i : nat) (weights : list F)
    (common_dates : list date) (initial_capital : F) (combined_value : list F)
    : py (list F) :=
  match portfolios with
  | [] => Return combined_value
  | df :: rest =>
      strategy_values <~ loc df common_dates ;;
      first <~ iloc0 strategy_values ;;
      let normalized_values :=
        map (fun v => fmul (fdiv v first) initial_capital) strategy_values in
      w <~ item weights i ;;
      blend rest (S i) weights common_dates initial_capital
        (map2 fadd combined_value (map (fun v => fmul v w) normalized_values))
  end.

Definition combine_portfolios (strategies : list strategy) (weights : list F)
    (initial_capital : F) (results_dir : directory) : io combined :=
  if weights_rejected weights then ret (Nothing InvalidWeights)
  else
    loaded <- load_all strategies results_dir ;;
    match loaded with
    | None => ret (Nothing NotFound)
    | Some portfolios =>
        common_dates <- lift (common_dates_of portfolios) ;;
        match common_dates with
        | [] => ret (Nothing NoCommonDates)
        | _ :: _ =>
            combined_value <-
              lift (blend portfolios 0 weights common_dates initial_capital
                      (map (fun _ => of_Z 0) common_dates)) ;;
            match calculate_portfolio_metrics combined_value initial_capital with
            | None => ret (Nothing NoData)
            | Some m =>
                ret (Portfolio {| metrics_of := m;
                                  strategies_of := strategies;
                                  weights_of := weights;
                                  portfolio_series :=
                                    List.combine common_dates combined_value |})
            end
        end
    end.

(** *** The grid search *)

(** [np.arange(start, stop, step)] on Python floats: [ceil((stop - start) /
    step)] values [start + i * step] (none when that count is not positive).
    The division is Python's, which refuses a zero divisor; numpy refuses a
    length that is NaN or infinite with a [ValueError].  The program calls
    it from [0], where
    the spacing numpy uses, [(start + step) - start], is [step] itself.  (A
    grid too long for the memory of the machine is not modelled.) *)
Definition np_arange (start stop step : F) : py (list F) :=
  if fleb step (of_Z 0) && fleb (of_Z 0) step then Raise ZeroDivisionError
  else
    let count := fdiv (fsub stop start) step in
    match fceil count with
    | None => Raise ValueError
    | Some n => Return (map (fun i => fadd start (fmul (of_Z i) step)) (Zrange n))
    end.

(** [abs(sum(weights) - 1.0) < 0.01]. *)
Definition sums_to_one (weights : list F) : bool :=
  fltb (fabs (fsub (py_sum weights) (of_Z 1))) lit_0_01.

(** [np.array(weights) / sum(weights)]. *)
Definition normalize (weights : list F) : list F :=
  map (fun w => fdiv w (py_sum weights)) weights.

(** The grid tuples that pass the filter, before they are normalised. *)
Definition kept_tuples (weight_range : list F) (n_strategies : nat) : list (list F) :=
  filter sums_to_one (product weight_range n_strategies).

Definition weight_combinations (weight_range : list F) (n_strategies : nat)
    : list (list F) :=
  map normalize (kept_tuples weight_range n_strategies).

(** The loop that tests every combination and keeps what is not [None]. *)
Fixpoint sweep (strategies : list strategy) (combinations : list (list F))
    (initial_capital : F) (results_dir : directory) : io (list portfolio) :=
  match combinations with
  | [] => ret []
  | weights :: rest =>
      m <- combine_portfolios strategies weights initial_capital results_dir ;;
      results <- sweep strategies rest initial_capital results_dir ;;
      ret (match m with
           | Portfolio p => p :: results
           | Nothing _ => results
           end)
  end.

Definition sharpe (p : portfolio) : F := sharpe_ratio (metrics_of p).

Fixpoint insert_by_sharpe (x : portfolio) (l : list portfolio) : list portfolio :=
  match l with
  | [] => [x]
  | y :: r =>
      if fltb (sharpe x) (sharpe y) then y :: insert_by_sharpe x r
      else x :: y :: r
  end.

(** [results.sort(key=lambda x: x['sharpe_ratio'], reverse=True)].  Python's
    sort is stable, also under [reverse=True]: entries with equal keys keep
    their order.  On keys that [<] orders (no NaN among them) there is one
    such arrangement ([stable_descending_unique] below), and insertion from
    the right builds it.  With a NaN among the keys the arrangement Python
    produces depends on the comparisons its algorithm happens to make, and
    the embedding does not follow it: what is stated of the order of a
    ranking is stated for keys without NaN. *)
Definition sort_by_sharpe (results : list portfolio) : list portfolio :=
  fold_right insert_by_sharpe [] results.

Definition optimize_portfolio (strategies : list strategy) (initial_capital : F)
    (results_dir : directory) (weight_step : F) (top_n : Z)
    : io (list portfolio) :=
  let n_strategies := List.length strategies in
  weight_range <-
    lift (np_arange (of_Z 0) (fadd (of_Z 1) weight_step) weight_step) ;;
  results <-
    sweep strategies (weight_combinations weight_range n_strategies)
      initial_capital results_dir ;;
  ret (slice_to (sort_by_sharpe results) top_n).

(** *** The custom-weights branch of [main] *)

(** What the branch reports: the count error, or whatever
    [combine_portfolios] returned. *)
Inductive custom_report : Type :=
| WeightCountMismatch
| Tested (m : combined).

(** [main] from [if args.custom_weights:] to the [return] that ends the
    branch.  [args.custom_weights] is [None] unless the option is given; the
    branch is taken on a list that is not empty, and [main] goes on to the
    grid search otherwise (the result is [None] then). *)
Definition main_custom_weights (strategies : list strategy)
    (custom_weights : option (list F)) (capital : F) (results_dir : directory)
    : io (option custom_report) :=
  match custom_weights with
  | None | Some [] => ret None
  | Some weights =>
      if negb (List.length weights =? List.length strategies)%nat
      then ret (Some WeightCountMismatch)
      else
        m <- combine_portfolios strategies weights capital results_dir ;;
        ret (Some (Tested m))
  end.

End Program.

Arguments frame F : clear implicits.
Arguments artifact F : clear implicits.
Arguments directory F : clear implicits.
Arguments metrics F : clear implicits.
Arguments portfolio F : clear implicits.
Arguments combined F : clear implicits.
Arguments custom_report F : clear implicits.

(** The metrics of a call that returned a dictionary, and the values of its
    blended series. *)
Definition returned_metrics {F : Type} (r : io (combined F)) : option (metrics F) :=
  match outcome r with
  | Return (Portfolio p) => Some (metrics_of p)
  | _ => None
  end.

Definition returned_series {F : Type} (r : io (combined F)) : list F :=
  match outcome r with
  | Return (Portfolio p) => map snd (portfolio_series p)
  | _ => []
  end.

(** ** Words for the statements *)

Section Vocabulary.

Context {F : Type} {ops : Float64 F}.

(** The frame a strategy's folder holds, when it holds a readable one. *)
Definition frame_of (dir : directory F) (s : strategy) : option (frame F) :=
  match dir (strategy_dir (fst s) (snd s)) with
  | Some (Csv df) => Some df
  | _ => None
  end.

Definition frame_or_empty (dir : directory F) (s : strategy) : frame F :=
  match frame_of dir s with
  | Some df => df
  | None => []
  end.

(** The value of a curve on a date of its index (NaN elsewhere, where the
    program never looks). *)
Definition value_or_nan (df : frame F) (d : date) : F :=
  match value_at df d with
  | Some v => v
  | None => fnan
  end.

(** What one strategy adds to the blend on date [d]: its value, divided by
    its value on the first common date [d0], times the capital, times the
    weight as it was given. *)
Definition weighted_term (d0 d : date) (initial_capital : F) (df : frame F) (w : F) : F :=
  fmul (fmul (fdiv (value_or_nan df d) (value_or_nan df d0)) initial_capital) w.

(** The blended series as a weighted sum per date, strategies added in
    their order, from zero. *)
Definition weighted_blend (portfolios : list (frame F)) (weights : list F)
    (common_dates : list date) (initial_capital : F) : list F :=
  match common_dates with
  | [] => []
  | d0 :: _ =>
      map (fun d =>
             fold_left fadd
               (map2 (weighted_term d0 d initial_capital) portfolios weights)
               (of_Z 0))
        common_dates
  end.

(** The blended series of a call, when every stage goes through. *)
Definition blended (strategies : list strategy) (weights : list F) (cap : F)
    (dir : directory F) : option (list date * list F) :=
  if weights_rejected weights then None
  else
    match outcome (load_all strategies dir) with
    | Return (Some portfolios) =>
        match common_dates_of portfolios with
        | Return (d :: r) =>
            match blend portfolios 0 weights (d :: r) cap
                    (map (fun _ => of_Z 0) (d :: r)) with
            | Return series => Some (d :: r, series)
            | Raise _ => None
            end
        | _ => None
        end
    | _ => None
    end.

(** What a combination contributes to the results: its dictionary, or
    nothing. *)
Definition contribution (m : py (combined F)) : list (portfolio F) :=
  match m with
  | Return (Portfolio p) => [p]
  | _ => []
  end.

(** The dictionaries of the combinations that succeed, in the order the
    combinations are enumerated. *)
Definition successes (strategies : list strategy) (combinations : list (list F))
    (initial_capital : F) (results_dir : directory F) : list (portfolio F) :=
  flat_map
    (fun weights =>
       contribution
         (outcome (combine_portfolios strategies weights initial_capital results_dir)))
    combinations.

(** [a] comes before [b] in a descending ranking: [sharpe b <= sharpe a]. *)
Definition descending (a b : portfolio F) : Prop :=
  fleb (sharpe b) (sharpe a) = true.

(** Two keys are equal, as floats are ([==]): each is [<=] the other. *)
Definition same_key (a b : F) : bool := fleb a b && fleb b a.

(** The entries of a ranking whose Sharpe ratio equals [k]. *)
Definition with_sharpe (k : F) (l : list (portfolio F)) : list (portfolio F) :=
  filter (fun p => same_key (sharpe p) k) l.

(** [sorted] is [results] in descending order of Sharpe ratio, entries of
    equal Sharpe ratio in the order they have in [results]. *)
Definition stable_descending (sorted results : list (portfolio F)) : Prop :=
  Permutation sorted results /\
  StronglySorted descending sorted /\
  forall k, with_sharpe k sorted = with_sharpe k results.

(** No Sharpe ratio of the list is NaN. *)
Definition keys_ordered (l : list (portfolio F)) : Prop :=
  Forall (fun p => fisnan (sharpe p) = false) l.

End Vocabulary.

(** ** Inputs to run the program on *)

Module Run.

Local Open Scope string_scope.
Local Open Scope Z_scope.

Definition hsbc : strategy := ("0005.HK", "Aggressive").
Definition whgroup : strategy := ("0288.HK", "Conservative").
Definition tencent : strategy := ("0700.HK", "Aggressive").

(** Two histories over the same four days. *)
Definition two_curves : directory float := fun folder =>
  if String.eqb folder "0005.HK_aggressive"
  then Some (Csv [(1, 100%float); (2, 110%float); (3, 120%float); (4, 90%float)])
  else if String.eqb folder "0288.HK_conservative"
  then Some (Csv [(1, 100%float); (2, 105%float); (3, 100%float); (4, 140%float)])
  else None.

(** Three histories over two days: each starts at 300. *)
Definition three_curves : directory float := fun folder =>
  if String.eqb folder "0005.HK_aggressive"
  then Some (Csv [(1, 300%float); (2, 100%float)])
  else if String.eqb folder "0288.HK_conservative"
  then Some (Csv [(1, 300%float); (2, 200%float)])
  else if String.eqb folder "0700.HK_aggressive"
  then Some (Csv [(1, 300%float); (2, 400%float)])
  else None.

(** The first history is worth nothing on the first day. *)
Definition zero_start : directory float := fun folder =>
  if String.eqb folder "0005.HK_aggressive"
  then Some (Csv [(1, 0%float); (2, 110%float)])
  else if String.eqb folder "0288.HK_conservative"
  then Some (Csv [(1, 100%float); (2, 105%float)])
  else None.

(** The first history is a file pandas cannot read; the second is missing. *)
Definition broken_file : directory float := fun folder =>
  if String.eqb folder "0005.HK_aggressive" then Some Unreadable else None.

(** The second history lists its days backwards. *)
Definition backwards : directory float := fun folder =>
  if String.eqb folder "0005.HK_aggressive"
  then Some (Csv [(1, 100%float); (2, 110%float)])
  else if String.eqb folder "0288.HK_conservative"
  then Some (Csv [(2, 105%float); (1, 100%float)])
  else None.

(** Two histories that climb from 1 to the largest power of two. *)
Definition steep : directory float := fun folder =>
  if String.eqb folder "0005.HK_aggressive"
     || String.eqb folder "0288.HK_conservative"
  then Some (Csv [(1, 1%float); (2, 0x1p+531%float); (3, 0x1p+1023%float)])
  else None.

End Run.

(** ** The rest of [main] *)

(** [s.split(':')]: the pieces of [s] between its colons. *)
Fixpoint split_colon (s : string) : list string :=
  match s with
  | EmptyString => [EmptyString]
  | String c r =>
      if Ascii.eqb c ":"%char then EmptyString :: split_colon r
      else
        match split_colon r with
        | [] => [String c EmptyString]
        | piece :: pieces => String c piece :: pieces
        end
  end.

(** The loop of [main] over [args.strategies]: every argument is split at
    its colons into a ticker and a strategy type; the first argument that
    does not split in two ends [main], and is what the error message shows. *)
Fixpoint parse_strategies (args : list string) : string + list strategy :=
  match args with
  | [] => inr []
  | s :: rest =>
      match split_colon s with
      | [ticker; strategy_type] =>
          match parse_strategies rest with
          | inl bad => inl bad
          | inr strategies => inr ((ticker, strategy_type) :: strategies)
          end
      | _ => inl s
      end
  end.

(** The number of colons of a text. *)
Fixpoint count_colons (s : string) : nat :=
  match s with
  | EmptyString => 0
  | String c r => (if Ascii.eqb c ":"%char then 1 else 0) + count_colons r
  end.

(** The argument that names a strategy: ticker, colon, strategy type. *)
Definition strategy_argument (s : strategy) : string :=
  (fst s ++ ":" ++ snd s)%string.

(** Neither the ticker nor the strategy type holds a colon. *)
Definition colon_free (s : strategy) : Prop :=
  count_colons (fst s) = 0%nat /\ count_colons (snd s) = 0%nat.

Section Main.

Context {F : Type} {ops : Float64 F}.

Local Open Scope io_scope.

(** What [parse_args] hands to [main].  [--strategies] takes one argument
    or more, [--custom_weights] is [None] unless given. *)
Record arguments : Type := {
  arg_strategies : list string;
  arg_capital : F;
  arg_results_dir : directory F;
  arg_weight_step : F;
  arg_top_n : Z;
  arg_custom_weights : option (list F)
}.

(** A row of [results_data].  The column [Portfolio] is a text printed from
    the strategies of the entry zipped with its weights; the row keeps the
    pairs (the text of a weight is not modelled). *)
Record results_row : Type := {
  Rank : nat;
  Sharpe_Ratio : F;
  Total_Return : F;
  Final_Value : F;
  Max_Drawdown : F;
  Std_Dev : F;
  Volatility : F;
  Portfolio_pairs : list (strategy * F)
}.

(** [for rank, portfolio in enumerate(top_portfolios, rank)]. *)
Fixpoint results_data (rank : nat) (top_portfolios : list (portfolio F))
    : list results_row :=
  match top_portfolios with
  | [] => []
  | p :: rest =>
      {| Rank := rank;
         Sharpe_Ratio := sharpe_ratio (metrics_of p);
         Total_Return := total_return (metrics_of p);
         Final_Value := final_value (metrics_of p);
         Max_Drawdown := max_drawdown (metrics_of p);
         Std_Dev := std_dev (metrics_of p);
         Volatility := volatility (metrics_of p);
         Portfolio_pairs := List.combine (strategies_of p) (weights_of p) |}
      :: results_data (S rank) rest
  end.

(** How [main] ends: on a strategy argument it cannot split, after the
    custom-weights branch, with nothing to rank, or with the rows it writes
    to [optimal_portfolios.csv] and [optimal_portfolios.xlsx]. *)
Inductive main_result : Type :=
| InvalidStrategyFormat (s : string)
| CustomWeights (r : custom_report F)
| NoValidCombination
| Saved (rows : list results_row).

Definition main (args : arguments) : io main_result :=
  match parse_strategies (arg_strategies args) with
  | inl s => ret (InvalidStrategyFormat s)
  | inr strategies =>
      custom <-
        main_custom_weights strategies (arg_custom_weights args)
          (arg_capital args) (arg_results_dir args) ;;
      match custom with
      | Some r => ret (CustomWeights r)
      | None =>
          top_portfolios <-
            optimize_portfolio strategies (arg_capital args) (arg_results_dir args)
              (arg_weight_step args) (arg_top_n args) ;;
          match top_portfolios with
          | [] => ret NoValidCombination
          | _ :: _ => ret (Saved (results_data 1 top_portfolios))
          end
      end
  end.

End Main.

Arguments arguments F : clear implicits.
Arguments results_row F : clear implicits.
Arguments main_result F : clear implicits.

(** ** Sequences for the model ([utils.py]) *)

Section Sequences.

(** The numbers of the data, those of a float32 array, and the conversion
    numpy applies to each number when it builds one. *)
Variables (A B : Type) (to_float32 : A -> B).

(** [data[i, 0]]: the first column of row [i] of a two-dimensional array. *)
Definition first_column (data : list (list A)) (i : nat) : py A :=
  match nth_error data i with
  | Some (v :: _) => Return v
  | _ => Raise IndexError
  end.

(** The loop [for i in range(seq_len, len(data))], over the values of [i]
    that are left: a window of the [seq_len] rows before row [i], and the
    first column of row [i]. *)
Fixpoint sequences_from (data : list (list A)) (seq_len : nat) (steps : list nat)
    : py (list (list (list A)) * list A) :=
  match steps with
  | [] => Return ([], [])
  | i :: rest =>
      let window := skipn (i - seq_len) (firstn i data) in
      match first_column data i with
      | Raise e => Raise e
      | Return target =>
          match sequences_from data seq_len rest with
          | Raise e => Raise e
          | Return (X, y) => Return (window :: X, target :: y)
          end
      end
  end.

(** [create_sequences(data, seq_len)] for a two-dimensional array [data],
    its rows all of one width, and a length [seq_len] that is not negative:
    [data[i-seq_len:i]] is then the rows from [i - seq_len] up to [i], row
    [i] left out. *)
Definition create_sequences (data : list (list A)) (seq_len : nat)
    : py (list (list (list B)) * list B) :=
  match sequences_from data seq_len
          (seq seq_len (List.length data - seq_len)) with
  | Raise e => Raise e
  | Return (X, y) =>
      Return (map (map (map to_float32)) X, map to_float32 y)
  end.

End Sequences.

Arguments first_column {A} data i.
Arguments sequences_from {A} data seq_len steps.
Arguments create_sequences {A B} to_float32 data seq_len.

(** ** More words for the statements *)

(** What [NaN] is to the test for it and to [<]. *)
Class NaNLaws (F : Type) {ops : Float64 F} : Prop := {
  fisnan_fnan : fisnan fnan = true;
  fltb_fnan : forall x : F, fltb x fnan = false
}.

Section MoreVocabulary.

Context {F : Type} {ops : Float64 F}.

(** The folder of a strategy under [results_dir]. *)
Definition path_of (s : strategy) : string := strategy_dir (fst s) (snd s).

(** The strategies whose history the loading loop asks for: all of them up
    to the first whose folder holds no readable history, that one included. *)
Fixpoint consulted (dir : directory F) (strategies : list strategy) : list strategy :=
  match strategies with
  | [] => []
  | s :: rest =>
      s :: match frame_of dir s with
           | Some _ => consulted dir rest
           | None => []
           end
  end.

(** The dates and the values of the series of a dictionary. *)
Definition series_dates (p : portfolio F) : list date := map fst (portfolio_series p).
Definition series_values (p : portfolio F) : list F := map snd (portfolio_series p).

(** The combinations that pass the weight check of the combiner. *)
Definition accepted (combinations : list (list F)) : list (list F) :=
  filter (fun weights => negb (weights_rejected weights)) combinations.

End MoreVocabulary.

Module MoreRun.

Local Open Scope string_scope.
Local Open Scope Z_scope.

(** Two histories with no day in common. *)
Definition apart : directory float := fun folder =>
  if String.eqb folder "0005.HK_aggressive"
  then Some (Csv [(1, 100%float); (2, 110%float)])
  else if String.eqb folder "0288.HK_conservative"
  then Some (Csv [(3, 100%float); (4, 105%float)])
  else None.

End MoreRun.

(** ** Laws of the arithmetic *)

Section Numbers.

Context {F : Type} {ops : Float64 F}.

(** A number above zero and below infinity. *)
Definition positive_finite (x : F) : bool :=
  fltb (of_Z 0) x && fltb x fpos_inf.

(** A number that is neither above nor below zero: a zero, or NaN. *)
Definition null (x : F) : Prop :=
  fltb (of_Z 0) x = false /\ fltb x (of_Z 0) = false.

(** The drawdown of a value [v] under a peak [p], in percent. *)
Definition drawdown_pct (v p : F) : F :=
  fmul (fdiv (fsub v p) p) (of_Z 100).

(** [p] is a largest, and [d] a least, of the numbers of [l]. *)
Definition largest_of (p : F) (l : list F) : Prop :=
  In p l /\ forall x, In x l -> fleb x p = true.

Definition least_of (d : F) (l : list F) : Prop :=
  In d l /\ forall x, In x l -> fleb d x = true.

(** [d] is the minimum pandas takes of [l]: a least of the numbers of [l]
    that are not NaN, and NaN when there is none. *)
Definition minimum_of (d : F) (l : list F) : Prop :=
  (fisnan d = true /\ Forall (fun x => fisnan x = true) l) \/
  (fisnan d = false /\ In d l /\
   forall x, In x l -> fisnan x = false -> fleb d x = true).

(** [peaks] are running peaks of the curve [vs]: one for each point, a
    largest value of the curve up to that point. *)
Definition running_peaks (peaks vs : list F) : Prop :=
  Forall2 (fun p beginning => largest_of p beginning) peaks (prefixes vs).

End Numbers.

(** What the proofs use of IEEE 754 arithmetic beyond the order of the
    numbers.  Every law is proved for binary64 from the specification of
    its operations, and holds of exact arithmetic as well. *)
Class Float64Laws (F : Type) {ops : Float64 F} : Prop := {
  laws_order :: KeyOrder F;
  laws_nan :: NaNLaws F;
  (** NaN is below nothing and a comparison that holds compares numbers. *)
  fltb_fnan_l : forall x : F, fltb fnan x = false;
  fltb_numbers : forall a b : F,
    fltb a b = true -> fisnan a = false /\ fisnan b = false;
  fisnan_zero : fisnan (of_Z 0 : F) = false;
  (** Zeros and NaN make zeros and NaN. *)
  null_fadd : forall a b : F, null a -> null b -> null (fadd a b);
  null_fsub : forall a b : F, null a -> null b -> null (fsub a b);
  null_fmul : forall a b : F, null a -> null (fmul a b);
  null_fdiv : forall a b : F, null a -> null (fdiv a b);
  null_fsqrt : forall a : F, null a -> null (fsqrt a);
  (** A number less or divided by itself. *)
  fsub_same : forall x : F, null (fsub x x);
  fdiv_same : forall x : F, fdiv x x = of_Z 1 \/ fisnan (fdiv x x) = true;
  fsub_self : forall x : F, positive_finite x = true -> fsub x x = of_Z 0;
  fdiv_self : forall x : F, positive_finite x = true -> fdiv x x = of_Z 1;
  (** Zero and one. *)
  fmul_one_l : forall x : F, fmul (of_Z 1) x = x;
  fdiv_zero_l : forall x : F, positive_finite x = true -> fdiv (of_Z 0) x = of_Z 0;
  fmul_zero_100 : fmul (of_Z 0 : F) (of_Z 100) = of_Z 0;
  (** NaN comes from NaN, and from no drawdown of positive numbers. *)
  fsub_fnan_l : forall a b : F, fisnan a = true -> fisnan (fsub a b) = true;
  drawdown_number : forall v p : F,
    positive_finite v = true -> positive_finite p = true ->
    fisnan (drawdown_pct v p) = false;
  (** The first two terms of a sum taken from zero may change places. *)
  fadd_first_two : forall a b : F,
    fadd (fadd (of_Z 0) a) b = fadd (fadd (of_Z 0) b) a
}.

(** ** The numbers behind the floats *)

(** What the rounding of binary64 is measured with: the real number a
    float stands for, the error of one rounding, and the floats that are
    finite and not negative. *)
Module Rounding.

(** Where a remainder [r] lies between two multiples of [d]. *)
Definition loc_rem (r d : Z) : location :=
  if (r =? 0)%Z then loc_Exact else loc_Inexact (2 * r ?= d)%Z.

(** The record [mrs] holds the quotient of [n] by [d] and the place of the
    remainder. *)
Definition holds (mrs : shr_record) (n d : Z) : Prop :=
  (0 < d)%Z /\ (0 <= n)%Z /\ shr_m mrs = (n / d)%Z /\
  loc_of_shr_record mrs = loc_rem (n mod d) d.

(** What rounding ends with: the rounded mantissa [mr] at the exponent
    [e1], one digit shorter and one exponent higher when the rounding has
    carried into a further digit, and infinity when the exponent is out of
    range. *)
Definition finish (s : bool) (mr e1 : Z) : spec_float :=
  match mr with
  | Z.pos p =>
      if (mr =? 9007199254740992)%Z
      then (if (e1 + 1 <=? 971)%Z then S754_finite s 4503599627370496 (e1 + 1)
            else S754_infinity s)
      else (if (e1 <=? 971)%Z then S754_finite s p e1 else S754_infinity s)
  | _ => S754_zero s
  end.

Definition bpow (e : Z) : R := powerRZ 2 e.

(** The number a decomposed float stands for; 0 for what is not a finite
    number. *)
Definition SF2R (x : spec_float) : R :=
  match x with
  | S754_finite s m e => ((if s then -1 else 1) * (IZR (Z.pos m) * bpow e))%R
  | _ => 0%R
  end.

(** The unit roundoff, and half the least positive number: the relative
    and the absolute part of the error of one rounding. *)
Definition u : R := (/ 9007199254740992)%R.
Definition eta : R := bpow (-1075).

(** [y] is [X] rounded: to relative error [u], or, under the least normal
    number, to absolute error [eta]. *)
Definition near (y X : R) : Prop := (Rabs (y - X) <= u * X + eta)%R.
Definition close (y X : R) : Prop := (Rabs (y - X) <= u * X)%R.

Definition SFsigned (r : spec_float) (s : bool) : Prop :=
  r = S754_zero s \/ exists m e, r = S754_finite s m e.

(** The result [r] of rounding to the magnitude [y] with the sign [s],
    which overflows to infinity or is [y]. *)
Definition rounded (r : spec_float) (s : bool) (y : R) : Prop :=
  r = S754_infinity s \/
  (SFsigned r s /\ SF2R r = ((if s then -1 else 1) * y)%R).

(** Finite and not negative: a zero of either sign, or a positive finite
    number. *)
Definition SFnn (x : spec_float) : Prop :=
  match x with
  | S754_zero _ | S754_finite false _ _ => True
  | _ => False
  end.

(** What an operation on such numbers gives: it overflows, or it is such a
    number again, that stands for [y]. *)
Definition result_nn (r : spec_float) (y : R) : Prop :=
  r = S754_infinity false \/ (SFnn r /\ SF2R r = y).

(** The real number a float stands for, and the floats that are finite and
    not negative. *)
Definition value (x : float) : R := SF2R (Prim2SF x).
Definition nn (x : float) : Prop := SFnn (Prim2SF x).

(** Not a number, or plus infinity. *)
Definition bad (x : float) : Prop :=
  Prim2SF x = S754_nan \/ Prim2SF x = S754_infinity false.

(** What an operation on numbers that are not negative returns: plus
    infinity, or the finite number [y]. *)
Definition result (x : float) (y : R) : Prop :=
  Prim2SF x = S754_infinity false \/ (nn x /\ value x = y).

(** Not negative, finite or not: what [x < 0] is false of. *)
Definition notneg (x : float) : Prop := nn x \/ bad x.

(** The exact sum of the numbers of a list. *)
Definition Rsum (l : list float) : R :=
  fold_right (fun x s => (value x + s)%R) 0%R l.

End Rounding.

(** * Facts that hold in every reading of the numbers *)

(** ** Effects *)

Lemma bind_outcome_return {A B : Type} (m : io A) (k : A -> io B) (b : B) :
  outcome (bind m k) = Return b ->
  exists a, outcome m = Return a /\ outcome (k a) = Return b.
Proof.
  destruct m as [log [a | e]]; simpl.
  - destruct (k a) as [log' r] eqn:Hk; simpl; intros ->.
    exists a; rewrite Hk; auto.
  - discriminate.
Qed.

Lemma bind_outcome_raise {A B : Type} (m : io A) (k : A -> io B) (e : exn) :
  outcome (bind m k) = Raise e ->
  outcome m = Raise e \/ exists a, outcome m = Return a /\ outcome (k a) = Raise e.
Proof.
  destruct m as [log [a | e']]; simpl.
  - destruct (k a) as [log' r] eqn:Hk; simpl; intros ->.
    right; exists a; rewrite Hk; auto.
  - intros [= ->]; auto.
Qed.

Lemma bind_return {A B : Type} (m : io A) (k : A -> io B) (a : A) :
  outcome m = Return a -> outcome (bind m k) = outcome (k a).
Proof.
  destruct m as [log r]; simpl; intros ->.
  destruct (k a); reflexivity.
Qed.

Lemma bind_raise {A B : Type} (m : io A) (k : A -> io B) (e : exn) :
  outcome m = Raise e -> outcome (bind m k) = Raise e.
Proof. destruct m as [log r]; simpl; intros ->; reflexivity. Qed.

Lemma bind_files_read {A B : Type} (m : io A) (k : A -> io B) :
  exists rest, files_read (bind m k) = (files_read m ++ rest)%list.
Proof.
  destruct m as [log [a | e]]; simpl.
  - destruct (k a) as [log' r]; simpl; eauto.
  - exists []; rewrite app_nil_r; reflexivity.
Qed.

(** ** Lists *)

Lemma map2_length {A B C : Type} (f : A -> B -> C) (l : list A) (l' : list B) :
  List.length l = List.length l' -> List.length (map2 f l l') = List.length l.
Proof.
  revert l'; induction l as [| a l IH]; intros [| b l']; simpl; try discriminate; auto.
Qed.

Lemma map2_map_r {A B C D : Type} (f : A -> C -> D) (g : B -> C) (l : list A) (l' : list B) :
  map2 f l (map g l') = map2 (fun a b => f a (g b)) l l'.
Proof.
  revert l'; induction l as [| a l IH]; intros [| b l']; simpl; auto.
  rewrite IH; reflexivity.
Qed.

Lemma map2_same {A B : Type} (f : A -> A -> B) (l : list A) :
  map2 f l l = map (fun a => f a a) l.
Proof. induction l; simpl; congruence. Qed.

Lemma map2_map_diag {A B C D : Type} (f : B -> C -> D) (g : A -> B) (h : A -> C)
    (l : list A) :
  map2 f (map g l) (map h l) = map (fun a => f (g a) (h a)) l.
Proof. induction l; simpl; congruence. Qed.

Lemma map_snd_combine {A B : Type} (l : list A) (l' : list B) :
  List.length l = List.length l' -> map snd (List.combine l l') = l'.
Proof.
  revert l'; induction l as [| a l IH]; intros [| b l']; simpl; try discriminate; auto.
  intros [= Hlen]; rewrite IH; auto.
Qed.

Lemma map_fst_combine {A B : Type} (l : list A) (l' : list B) :
  List.length l = List.length l' -> map fst (List.combine l l') = l.
Proof.
  revert l'; induction l as [| a l IH]; intros [| b l']; simpl; try discriminate; auto.
  intros [= Hlen]; rewrite IH; auto.
Qed.

Lemma firstn_is_prefix {A : Type} (n : nat) (l : list A) : is_prefix (firstn n l) l.
Proof. exists (skipn n l); symmetry; apply firstn_skipn. Qed.

Lemma filter_is_prefix {A : Type} (f : A -> bool) (l l' : list A) :
  is_prefix l l' -> is_prefix (filter f l) (filter f l').
Proof. intros [rest ->]; exists (filter f rest); apply filter_app. Qed.

Lemma slice_to_nonneg {A : Type} (l : list A) (k : Z) :
  (0 <= k)%Z -> slice_to l k = firstn (Z.to_nat k) l.
Proof.
  intros Hk; unfold slice_to.
  destruct (k <? 0)%Z eqn:E; auto.
  apply Z.ltb_lt in E; lia.
Qed.

Lemma slice_to_is_prefix {A : Type} (l : list A) (k : Z) : is_prefix (slice_to l k) l.
Proof. unfold slice_to; destruct (k <? 0)%Z; apply firstn_is_prefix. Qed.

Lemma StronglySorted_prefix {A : Type} (R : A -> A -> Prop) (l l' : list A) :
  is_prefix l l' -> StronglySorted R l' -> StronglySorted R l.
Proof.
  intros [rest ->]; induction l as [| a l IH]; simpl; intros Hs.
  - constructor.
  - inversion Hs as [| ? ? Hs' Hall]; subst.
    constructor; auto.
    apply Forall_app in Hall as [Hall _]; exact Hall.
Qed.

Lemma flat_is_repeat {A : Type} (d : A) (l : list A) :
  (forall i, (S i < List.length l)%nat -> nth (S i) l d = nth i l d) ->
  l = repeat (hd d l) (List.length l).
Proof.
  induction l as [| x l IH]; simpl; intros H; auto.
  f_equal.
  destruct l as [| y l]; auto.
  assert (y = x) by (apply (H 0%nat); simpl; lia); subst y.
  rewrite IH at 1.
  - reflexivity.
  - intros i Hi; apply (H (S i)); simpl in *; lia.
Qed.

Lemma product_length {A : Type} (r : list A) (n : nat) (w : list A) :
  In w (product r n) -> List.length w = n.
Proof.
  revert w; induction n as [| n IH]; simpl; intros w H.
  - destruct H as [<- | []]; reflexivity.
  - apply in_flat_map in H as (x & _ & H).
    apply in_map_iff in H as (w' & <- & H).
    simpl; f_equal; apply IH; exact H.
Qed.

Lemma prefixes_length {A : Type} (l : list A) :
  List.length (prefixes l) = List.length l.
Proof. induction l as [| x r IH]; simpl; [| rewrite length_map, IH]; reflexivity. Qed.

Lemma prefixes_nonempty {A : Type} (l p : list A) : In p (prefixes l) -> p <> [].
Proof.
  destruct l as [| x r]; simpl; [tauto |].
  intros [<- | H]; [discriminate |].
  apply in_map_iff in H as (q & <- & _); discriminate.
Qed.

(** ** Dates *)

Lemma mem_In (d : Z) (l : list Z) : mem d l = true <-> In d l.
Proof.
  unfold mem; rewrite existsb_exists; split.
  - intros (x & Hin & Hx); apply Z.eqb_eq in Hx; subst; exact Hin.
  - intros Hin; exists d; split; [exact Hin | apply Z.eqb_refl].
Qed.

Lemma in_unique (d : Z) (l : list Z) : In d (unique l) <-> In d l.
Proof.
  induction l as [| x l IH]; simpl; [tauto |].
  rewrite filter_In, IH, negb_true_iff, Z.eqb_neq.
  destruct (Z.eq_dec x d); subst; intuition.
Qed.

Lemma in_index_intersection (d : Z) (a b : list Z) :
  In d (index_intersection a b) <-> In d a /\ In d b.
Proof.
  unfold index_intersection; rewrite filter_In, in_unique, mem_In; tauto.
Qed.

Lemma StronglySorted_filter {A : Type} (R : A -> A -> Prop) (f : A -> bool) (l : list A) :
  StronglySorted R l -> StronglySorted R (filter f l).
Proof.
  induction 1 as [| a l Hs IH Hall]; simpl; [constructor |].
  destruct (f a); auto.
  constructor; auto.
  rewrite Forall_forall in *; intros x Hx.
  apply filter_In in Hx as [Hx _]; auto.
Qed.

Lemma unique_sorted (l : list Z) :
  StronglySorted Z.lt l -> StronglySorted Z.lt (unique l).
Proof.
  induction 1 as [| a l Hs IH Hall]; simpl; constructor.
  - apply StronglySorted_filter; exact IH.
  - rewrite Forall_forall in *; intros x Hx.
    apply filter_In in Hx as [Hx _].
    apply (proj1 (in_unique x l)) in Hx; auto.
Qed.

Lemma index_intersection_sorted (a b : list Z) :
  StronglySorted Z.lt a -> StronglySorted Z.lt (index_intersection a b).
Proof.
  intros H; unfold index_intersection.
  apply StronglySorted_filter, unique_sorted; exact H.
Qed.

(** Two strictly increasing lists with the same elements are equal. *)
Lemma sorted_same_elements (l l' : list Z) :
  StronglySorted Z.lt l -> StronglySorted Z.lt l' ->
  (forall d, In d l <-> In d l') -> l = l'.
Proof.
  intros Hl; revert l'; induction Hl as [| a l Hs IH Hall]; intros l' Hl' Hsame.
  - destruct l' as [| b l']; auto.
    exfalso; apply (Hsame b); simpl; auto.
  - destruct Hl' as [| b l' Hs' Hall'].
    + exfalso; apply (Hsame a); simpl; auto.
    + rewrite Forall_forall in Hall, Hall'.
      assert (a = b).
      { destruct (proj1 (Hsame a) (or_introl eq_refl)) as [-> | Ha]; auto.
        destruct (proj2 (Hsame b) (or_introl eq_refl)) as [-> | Hb]; auto.
        specialize (Hall _ Hb); specialize (Hall' _ Ha); lia. }
      subst b; f_equal.
      apply IH; auto.
      intros d; split; intros Hd.
      * destruct (proj1 (Hsame d) (or_intror Hd)) as [<- | H]; auto.
        specialize (Hall _ Hd); lia.
      * destruct (proj2 (Hsame d) (or_intror Hd)) as [<- | H]; auto.
        specialize (Hall' _ Hd); lia.
Qed.

(** ** The sort *)

Section SortFacts.

Context {F : Type} {ops : Float64 F} {ord : KeyOrder F}.

Lemma fltb_irrefl (a : F) : fltb a a = false.
Proof.
  destruct (fltb a a) eqn:E; auto.
  rewrite (fleb_not_fltb a a (fltb_fleb a a E)) in E; discriminate.
Qed.

Lemma fleb_refl (a : F) : fisnan a = false -> fleb a a = true.
Proof. intros Ha; apply fleb_total; auto; apply fltb_irrefl. Qed.

Lemma same_key_refl (a : F) : fisnan a = false -> same_key a a = true.
Proof. intros Ha; unfold same_key; rewrite (fleb_refl a Ha); reflexivity. Qed.

(** Equal keys do not rank one below the other. *)
Lemma same_key_not_fltb (a b k : F) :
  same_key a k = true -> same_key b k = true -> fltb a b = false.
Proof.
  unfold same_key; intros Ha Hb.
  apply andb_prop in Ha as [_ Hka], Hb as [Hbk _].
  apply fleb_not_fltb, (fleb_trans b k a); assumption.
Qed.

Lemma insert_by_sharpe_perm (x : portfolio F) (l : list (portfolio F)) :
  Permutation (insert_by_sharpe x l) (x :: l).
Proof.
  induction l as [| y r IH]; simpl; auto.
  destruct (fltb (sharpe x) (sharpe y)); auto.
  rewrite IH; apply perm_swap.
Qed.

Lemma sort_by_sharpe_perm (l : list (portfolio F)) :
  Permutation (sort_by_sharpe l) l.
Proof.
  induction l as [| x l IH]; simpl; auto.
  rewrite insert_by_sharpe_perm; auto.
Qed.

Lemma keys_ordered_perm (l l' : list (portfolio F)) :
  Permutation l l' -> keys_ordered l -> keys_ordered l'.
Proof. intros Hp; apply Permutation_Forall; exact Hp. Qed.

Lemma insert_by_sharpe_descending (x : portfolio F) (l : list (portfolio F)) :
  fisnan (sharpe x) = false -> keys_ordered l ->
  StronglySorted descending l -> StronglySorted descending (insert_by_sharpe x l).
Proof.
  intros Hx; induction l as [| y r IH]; simpl; intros Hl Hs.
  - repeat constructor.
  - inversion Hl as [| ? ? Hy Hr]; subst.
    inversion Hs as [| ? ? Hsr Hall]; subst.
    destruct (fltb (sharpe x) (sharpe y)) eqn:E.
    + constructor; [apply IH; assumption |].
      apply (Permutation_Forall (Permutation_sym (insert_by_sharpe_perm x r))).
      constructor; [| exact Hall].
      apply fltb_fleb; exact E.
    + assert (Hyx : descending x y) by (apply fleb_total; assumption).
      constructor; [exact Hs |].
      constructor; [exact Hyx |].
      apply (Forall_impl _ (P := descending y)); [| exact Hall].
      intros z Hz; apply (fleb_trans _ (sharpe y)); assumption.
Qed.

Lemma sort_by_sharpe_descending (l : list (portfolio F)) :
  keys_ordered l -> StronglySorted descending (sort_by_sharpe l).
Proof.
  induction l as [| x l IH]; simpl; intros Hl.
  - constructor.
  - inversion Hl as [| ? ? Hx Hr]; subst.
    apply insert_by_sharpe_descending; auto.
    apply (keys_ordered_perm l); [symmetry; apply sort_by_sharpe_perm | exact Hr].
Qed.

(** Stability: entries that do not rank below one another keep their order. *)
Lemma insert_by_sharpe_filter (q : portfolio F -> bool) (x : portfolio F)
    (l : list (portfolio F)) :
  (forall a b, q a = true -> q b = true -> fltb (sharpe a) (sharpe b) = false) ->
  filter q (insert_by_sharpe x l) = filter q (x :: l).
Proof.
  intros Hq; induction l as [| y r IH]; simpl; auto.
  destruct (fltb (sharpe x) (sharpe y)) eqn:E; simpl; auto.
  simpl in IH.
  destruct (q y) eqn:Qy, (q x) eqn:Qx; rewrite IH; auto.
  rewrite (Hq x y Qx Qy) in E; discriminate.
Qed.

Lemma sort_by_sharpe_filter (q : portfolio F -> bool) (l : list (portfolio F)) :
  (forall a b, q a = true -> q b = true -> fltb (sharpe a) (sharpe b) = false) ->
  filter q (sort_by_sharpe l) = filter q l.
Proof.
  intros Hq; induction l as [| x l IH]; simpl; auto.
  rewrite (insert_by_sharpe_filter q x _ Hq); simpl.
  rewrite IH; reflexivity.
Qed.

Lemma sort_by_sharpe_with_sharpe (k : F) (l : list (portfolio F)) :
  with_sharpe k (sort_by_sharpe l) = with_sharpe k l.
Proof.
  apply sort_by_sharpe_filter.
  intros a b Ha Hb; apply (same_key_not_fltb _ _ k); assumption.
Qed.

(** On keys without NaN the sort of the embedding is a stable descending
    arrangement. *)
Lemma sort_by_sharpe_stable_descending (l : list (portfolio F)) :
  keys_ordered l -> stable_descending (sort_by_sharpe l) l.
Proof.
  intros Hl; repeat split.
  - apply sort_by_sharpe_perm.
  - apply sort_by_sharpe_descending; exact Hl.
  - intros k; apply sort_by_sharpe_with_sharpe.
Qed.

(** Two descending arrangements of the same entries that list the entries of
    each key in the same order are the same list. *)
Lemma descending_same_order (l1 : list (portfolio F)) :
  forall l2,
    keys_ordered l1 -> Permutation l1 l2 ->
    StronglySorted descending l1 -> StronglySorted descending l2 ->
    (forall k, with_sharpe k l1 = with_sharpe k l2) ->
    l1 = l2.
Proof.
  induction l1 as [| a l1 IH]; intros [| b l2] Hn Hp Hs1 Hs2 Hk.
  - reflexivity.
  - apply Permutation_nil in Hp; discriminate.
  - symmetry in Hp; apply Permutation_nil in Hp; discriminate.
  - inversion Hn as [| ? ? Ha Hn1]; subst.
    inversion Hs1 as [| ? ? Hs1' Hall1]; subst.
    inversion Hs2 as [| ? ? Hs2' Hall2]; subst.
    assert (Hba : same_key (sharpe b) (sharpe a) = true).
    { assert (Hb1 : In b (a :: l1))
        by (apply (Permutation_in _ (Permutation_sym Hp)); left; reflexivity).
      assert (Ha2 : In a (b :: l2))
        by (apply (Permutation_in _ Hp); left; reflexivity).
      destruct Hb1 as [<- | Hb1]; [apply same_key_refl; exact Ha |].
      destruct Ha2 as [<- | Ha2]; [apply same_key_refl; exact Ha |].
      unfold same_key; apply andb_true_intro; split.
      - exact (proj1 (Forall_forall _ _) Hall1 b Hb1).
      - exact (proj1 (Forall_forall _ _) Hall2 a Ha2). }
    assert (Hab : a = b).
    { pose proof (Hk (sharpe a)) as H; unfold with_sharpe in H; simpl in H.
      rewrite (same_key_refl _ Ha), Hba in H; congruence. }
    subst b; f_equal.
    apply IH; auto.
    + apply (Permutation_cons_inv Hp).
    + intros k; pose proof (Hk k) as H; unfold with_sharpe in *; simpl in H.
      destruct (same_key (sharpe a) k); congruence.
Qed.

(** So a stable descending sort has one possible result. *)
Lemma stable_descending_unique (l l1 l2 : list (portfolio F)) :
  keys_ordered l -> stable_descending l1 l -> stable_descending l2 l -> l1 = l2.
Proof.
  intros Hl (Hp1 & Hs1 & Hk1) (Hp2 & Hs2 & Hk2).
  apply descending_same_order; auto.
  - apply (keys_ordered_perm l); [symmetry |]; assumption.
  - rewrite Hp1; symmetry; exact Hp2.
  - intros k; rewrite Hk1, Hk2; reflexivity.
Qed.

End SortFacts.

(** ** The sweep *)

Section SweepFacts.

Context {F : Type} {ops : Float64 F}.

Lemma sweep_returns (strategies : list strategy) (combinations : list (list F))
    (cap : F) (dir : directory F) (results : list (portfolio F)) :
  outcome (sweep strategies combinations cap dir) = Return results ->
  results = successes strategies combinations cap dir.
Proof.
  revert results; induction combinations as [| w rest IH]; simpl; intros results H.
  - inversion H; reflexivity.
  - apply bind_outcome_return in H as (m & Hm & H).
    apply bind_outcome_return in H as (rs & Hrs & H).
    simpl in H; inversion H; subst; clear H.
    unfold successes; simpl; rewrite Hm.
    rewrite (IH rs Hrs).
    destruct m; reflexivity.
Qed.

Lemma sweep_raises (strategies : list strategy) (combinations : list (list F))
    (cap : F) (dir : directory F) (e : exn) :
  outcome (sweep strategies combinations cap dir) = Raise e ->
  exists weights, In weights combinations /\
    outcome (combine_portfolios strategies weights cap dir) = Raise e.
Proof.
  induction combinations as [| w rest IH]; simpl; intros H.
  - discriminate.
  - apply bind_outcome_raise in H as [H | (m & Hm & H)].
    + exists w; auto.
    + apply bind_outcome_raise in H as [H | (rs & Hrs & H)].
      * destruct (IH H) as (w' & Hin & Hw'); exists w'; auto.
      * simpl in H; discriminate.
Qed.

Lemma sweep_aborts (strategies : list strategy) (before after : list (list F))
    (weights : list F) (cap : F) (dir : directory F) (e : exn) :
  outcome (combine_portfolios strategies weights cap dir) = Raise e ->
  exists e', outcome (sweep strategies (before ++ weights :: after) cap dir) = Raise e'.
Proof.
  intros Hw; induction before as [| w rest IH]; simpl.
  - exists e; apply bind_raise; exact Hw.
  - destruct (outcome (combine_portfolios strategies w cap dir)) as [m | e0] eqn:Hm.
    + destruct IH as (e' & He'); exists e'.
      rewrite (bind_return _ _ m Hm).
      apply bind_raise; exact He'.
    + exists e0; apply bind_raise; exact Hm.
Qed.

End SweepFacts.

(** ** The blend, date by date *)

Section BlendFacts.

Context {F : Type} {ops : Float64 F}.

Lemma loc_values (df : frame F) (labels : list date) (vs : list F) :
  loc df labels = Return vs -> vs = map (value_or_nan df) labels.
Proof.
  revert vs; induction labels as [| d r IH]; simpl; intros vs H.
  - inversion H; reflexivity.
  - unfold value_or_nan at 1.
    destruct (value_at df d) as [v |]; try discriminate.
    destruct (loc df r) as [vs' | e]; simpl in H; try discriminate.
    inversion H; subst; f_equal; apply IH; reflexivity.
Qed.

Lemma loc_defined (df : frame F) (labels : list date) :
  (forall d, In d labels -> value_at df d <> None) ->
  loc df labels = Return (map (value_or_nan df) labels).
Proof.
  induction labels as [| d r IH]; simpl; intros H; auto.
  unfold value_or_nan at 1.
  destruct (value_at df d) as [v |] eqn:E.
  - rewrite IH; auto.
  - exfalso; apply (H d); auto.
Qed.

Lemma item_skipn (weights : list F) (i : nat) (w : F) :
  item weights i = Return w -> skipn i weights = w :: skipn (S i) weights.
Proof.
  unfold item; revert weights; induction i as [| i IH]; intros [| x l]; simpl;
    try discriminate.
  - intros [= ->]; reflexivity.
  - intros H; apply (IH l H).
Qed.

Lemma map2_fold_nil (common : list date) (acc : list F) :
  List.length acc = List.length common ->
  map2 (fun (_ : date) a => fold_left fadd [] a) common acc = acc.
Proof.
  revert acc; induction common as [| d r IH]; intros [| a acc]; simpl;
    try discriminate; auto.
  intros [= H]; rewrite IH; auto.
Qed.

Lemma map2_nil_l {A B C : Type} (f : A -> B -> C) (l : list B) : map2 f [] l = [].
Proof. reflexivity. Qed.

Lemma map2_compose (g : date -> F -> F) (h : date -> F) (common : list date)
    (acc : list F) :
  map2 g common (map2 fadd acc (map h common))
  = map2 (fun d a => g d (fadd a (h d))) common acc.
Proof.
  revert acc; induction common as [| d r IH]; intros [| a acc]; simpl; auto.
  rewrite IH; reflexivity.
Qed.

Lemma blend_returns (weights : list F) (d0 : date) (rest : list date) (cap : F)
    (portfolios : list (frame F)) :
  forall (i : nat) (acc series : list F),
    blend portfolios i weights (d0 :: rest) cap acc = Return series ->
    List.length acc = List.length (d0 :: rest) ->
    series =
      map2 (fun d a =>
              fold_left fadd
                (map2 (weighted_term d0 d cap) portfolios (skipn i weights)) a)
        (d0 :: rest) acc.
Proof.
  induction portfolios as [| df others IH]; intros i acc series H Hlen.
  - simpl in H; inversion H; subst.
    symmetry; apply (map2_fold_nil (d0 :: rest)); exact Hlen.
  - cbn [blend] in H.
    destruct (loc df (d0 :: rest)) as [vs | e] eqn:Hloc; simpl in H; try discriminate.
    pose proof (loc_values _ _ _ Hloc) as Hvs.
    simpl in Hvs; subst vs; simpl in H.
    destruct (item weights i) as [w | e] eqn:Hw; simpl in H; try discriminate.
    rewrite (item_skipn _ _ _ Hw).
    apply IH in H.
    + rewrite H; clear H.
      change (fmul (fmul (fdiv (value_or_nan df d0) (value_or_nan df d0)) cap) w
              :: map (fun v => fmul v w)
                   (map (fun v => fmul (fdiv v (value_or_nan df d0)) cap)
                      (map (value_or_nan df) rest)))
        with (map (fun v => fmul v w)
                (map (fun v => fmul (fdiv v (value_or_nan df d0)) cap)
                   (map (value_or_nan df) (d0 :: rest)))).
      rewrite !map_map.
      rewrite (map2_compose
                 (fun d a =>
                    fold_left fadd
                      (map2 (weighted_term d0 d cap) others (skipn (S i) weights)) a)
                 (fun d => fmul (fmul (fdiv (value_or_nan df d) (value_or_nan df d0)) cap) w)).
      reflexivity.
    + rewrite map2_length; [exact Hlen |].
      simpl; rewrite !length_map; exact Hlen.
Qed.

Lemma map2_const_r {A B C : Type} (f : A -> B -> C) (b : B) (l : list A) :
  map2 f l (map (fun _ => b) l) = map (fun a => f a b) l.
Proof. induction l; simpl; congruence. Qed.

(** The loop computes the weighted sum of each date. *)
Lemma blend_is_weighted_blend (portfolios : list (frame F)) (weights : list F)
    (common : list date) (cap : F) (series : list F) :
  blend portfolios 0 weights common cap (map (fun _ => of_Z 0) common) = Return series ->
  common <> [] ->
  series = weighted_blend portfolios weights common cap.
Proof.
  destruct common as [| d0 rest]; intros H Hne; try congruence.
  apply blend_returns in H; [| rewrite length_map; reflexivity].
  rewrite H; simpl skipn; unfold weighted_blend.
  apply (map2_const_r
           (fun d a => fold_left fadd (map2 (weighted_term d0 d cap) portfolios weights) a)
           (of_Z 0) (d0 :: rest)).
Qed.

End BlendFacts.

(** ** The combiner, step by step *)

Section CombineFacts.

Context {F : Type} {ops : Float64 F}.

Lemma load_all_inv (dir : directory F) (strategies : list strategy) :
  forall portfolios,
    outcome (load_all strategies dir) = Return (Some portfolios) ->
    (forall s, In s strategies -> frame_of dir s <> None) /\
    portfolios = map (frame_or_empty dir) strategies.
Proof.
  induction strategies as [| [ticker ty] rest IH]; simpl; intros portfolios H.
  - inversion H; split; [intros s [] | reflexivity].
  - unfold load_portfolio_history in H.
    destruct (dir (strategy_dir ticker ty)) as [[| df] |] eqn:E; simpl in H;
      try discriminate.
    destruct (load_all rest dir) as [log [[ps |] | e]] eqn:Hrest; simpl in H;
      try discriminate.
    inversion H; subst; clear H.
    destruct (IH ps eq_refl) as [Hall Hps].
    split.
    + intros s [<- | Hin]; [| auto].
      unfold frame_of; simpl; rewrite E; discriminate.
    + unfold frame_or_empty at 1, frame_of; simpl; rewrite E; f_equal; exact Hps.
Qed.

Lemma load_all_defined (dir : directory F) (strategies : list strategy) :
  (forall s, In s strategies -> frame_of dir s <> None) ->
  outcome (load_all strategies dir) = Return (Some (map (frame_or_empty dir) strategies)).
Proof.
  induction strategies as [| [ticker ty] rest IH]; simpl; intros H; auto.
  pose proof (H (ticker, ty) (or_introl eq_refl)) as Hs.
  specialize (IH (fun s Hin => H s (or_intror Hin))).
  unfold frame_or_empty at 1.
  unfold frame_of in Hs |- * at 1; simpl in Hs |- *.
  unfold load_portfolio_history.
  destruct (dir (strategy_dir ticker ty)) as [[| df] |]; try congruence.
  simpl.
  destruct (load_all rest dir) as [log r]; simpl in *; subst r; reflexivity.
Qed.

(** The outcome of [combine_portfolios], stage by stage. *)
Lemma combine_portfolios_outcome (strategies : list strategy) (weights : list F)
    (cap : F) (dir : directory F) :
  outcome (combine_portfolios strategies weights cap dir) =
  if weights_rejected weights then Return (Nothing InvalidWeights)
  else
    match outcome (load_all strategies dir) with
    | Raise e => Raise e
    | Return None => Return (Nothing NotFound)
    | Return (Some portfolios) =>
        match common_dates_of portfolios with
        | Raise e => Raise e
        | Return [] => Return (Nothing NoCommonDates)
        | Return (d :: r) =>
            match blend portfolios 0 weights (d :: r) cap
                    (map (fun _ => of_Z 0) (d :: r)) with
            | Raise e => Raise e
            | Return series =>
                match calculate_portfolio_metrics series cap with
                | None => Return (Nothing NoData)
                | Some m =>
                    Return (Portfolio {| metrics_of := m;
                                         strategies_of := strategies;
                                         weights_of := weights;
                                         portfolio_series :=
                                           List.combine (d :: r) series |})
                end
            end
        end
    end.
Proof.
  unfold combine_portfolios.
  destruct (weights_rejected weights); [reflexivity |].
  destruct (load_all strategies dir) as [log [[portfolios |] | e]]; simpl; auto.
  destruct (common_dates_of portfolios) as [[| d r] | e]; simpl; auto.
  destruct (blend portfolios 0 weights (d :: r) cap (of_Z 0 :: map (fun _ => of_Z 0) r))
    as [series | e]; simpl; auto.
  destruct (calculate_portfolio_metrics series cap); reflexivity.
Qed.

Lemma combine_portfolios_rejects (strategies : list strategy) (weights : list F)
    (cap : F) (dir : directory F) :
  weights_rejected weights = true ->
  combine_portfolios strategies weights cap dir = ([], Return (Nothing InvalidWeights)).
Proof. unfold combine_portfolios; intros ->; reflexivity. Qed.

(** The weight check is the only source of [InvalidWeights]. *)
Lemma combine_portfolios_invalid_weights (strategies : list strategy)
    (weights : list F) (cap : F) (dir : directory F) :
  weights_rejected weights = true <->
  outcome (combine_portfolios strategies weights cap dir)
  = Return (Nothing InvalidWeights).
Proof.
  rewrite combine_portfolios_outcome.
  destruct (weights_rejected weights); [tauto |].
  split; [discriminate |].
  destruct (outcome (load_all strategies dir)) as [[portfolios |] | e];
    try discriminate.
  destruct (common_dates_of portfolios) as [[| d r] | e]; try discriminate.
  destruct (blend _ _ _ _ _ _); try discriminate.
  destruct (calculate_portfolio_metrics _ _); discriminate.
Qed.

Lemma calculate_portfolio_metrics_defined (series : list F) (cap : F) :
  series <> [] -> calculate_portfolio_metrics series cap <> None.
Proof. destruct series; [congruence | discriminate]. Qed.

Lemma weighted_blend_length (portfolios : list (frame F)) (weights : list F)
    (common : list date) (cap : F) :
  List.length (weighted_blend portfolios weights common cap) = List.length common.
Proof.
  unfold weighted_blend; destruct common; [reflexivity |].
  apply length_map.
Qed.

(** What a successful call went through. *)
Lemma combine_portfolios_success (strategies : list strategy) (weights : list F)
    (cap : F) (dir : directory F) (p : portfolio F) :
  outcome (combine_portfolios strategies weights cap dir) = Return (Portfolio p) ->
  exists portfolios common m,
    weights_rejected weights = false /\
    outcome (load_all strategies dir) = Return (Some portfolios) /\
    common_dates_of portfolios = Return common /\
    common <> [] /\
    blend portfolios 0 weights common cap (map (fun _ => of_Z 0) common)
      = Return (weighted_blend portfolios weights common cap) /\
    calculate_portfolio_metrics (weighted_blend portfolios weights common cap) cap
      = Some m /\
    p = {| metrics_of := m;
           strategies_of := strategies;
           weights_of := weights;
           portfolio_series :=
             List.combine common (weighted_blend portfolios weights common cap) |}.
Proof.
  rewrite combine_portfolios_outcome.
  destruct (weights_rejected weights); try discriminate.
  destruct (outcome (load_all strategies dir)) as [[portfolios |] | e];
    try discriminate.
  destruct (common_dates_of portfolios) as [[| d r] | e] eqn:Hc; try discriminate.
  destruct (blend portfolios 0 weights (d :: r) cap (map (fun _ => of_Z 0) (d :: r)))
    as [series | e] eqn:Hb; try discriminate.
  pose proof (blend_is_weighted_blend _ _ _ _ _ Hb ltac:(discriminate)) as Hs.
  destruct (calculate_portfolio_metrics series cap) as [m |] eqn:Hm; try discriminate.
  intros [= <-]; subst series.
  exists portfolios, (d :: r), m.
  repeat split; auto; discriminate.
Qed.

End CombineFacts.

Lemma in_successes {F : Type} {ops : Float64 F} (strategies : list strategy)
    (combinations : list (list F)) (cap : F) (dir : directory F) (p : portfolio F) :
  In p (successes strategies combinations cap dir) <->
  exists weights, In weights combinations /\
    outcome (combine_portfolios strategies weights cap dir) = Return (Portfolio p).
Proof.
  unfold successes; rewrite in_flat_map; split.
  - intros (w & Hin & Hp); exists w; split; auto.
    destruct (outcome (combine_portfolios strategies w cap dir)) as [[site | q] | e];
      simpl in Hp; try contradiction.
    destruct Hp as [-> | []]; reflexivity.
  - intros (w & Hin & Hp); exists w; split; auto.
    rewrite Hp; simpl; auto.
Qed.

Lemma sweep_defined {F : Type} {ops : Float64 F} (strategies : list strategy)
    (combinations : list (list F)) (cap : F) (dir : directory F) :
  (forall weights e, In weights combinations ->
     outcome (combine_portfolios strategies weights cap dir) <> Raise e) ->
  outcome (sweep strategies combinations cap dir)
  = Return (successes strategies combinations cap dir).
Proof.
  intros Hno.
  destruct (outcome (sweep strategies combinations cap dir)) as [l | e] eqn:H.
  - f_equal; apply (sweep_returns _ _ _ _ _ H).
  - apply sweep_raises in H as (w & Hin & Hw).
    exfalso; exact (Hno w e Hin Hw).
Qed.

Lemma optimize_portfolio_outcome {F : Type} {ops : Float64 F}
    (strategies : list strategy) (cap : F) (dir : directory F) (weight_step : F)
    (top_n : Z) (weight_range : list F) :
  np_arange (of_Z 0) (fadd (of_Z 1) weight_step) weight_step = Return weight_range ->
  outcome (optimize_portfolio strategies cap dir weight_step top_n)
  = match outcome (sweep strategies
                     (weight_combinations weight_range (List.length strategies))
                     cap dir) with
    | Return results => Return (slice_to (sort_by_sharpe results) top_n)
    | Raise e => Raise e
    end.
Proof.
  intros Hr; unfold optimize_portfolio; rewrite Hr; simpl.
  destruct (sweep strategies _ cap dir) as [log [results | e]]; reflexivity.
Qed.

(** ** Common dates *)

Section CommonDates.

Context {F : Type} {ops : Float64 F}.

Lemma value_at_in (df : frame F) (d : date) :
  value_at df d <> None <-> In d (index df).
Proof.
  unfold value_at, index; induction df as [| [d' v] df IH]; simpl.
  - split; [congruence | tauto].
  - destruct (Z.eqb_spec d' d); simpl.
    + split; [auto | discriminate].
    + rewrite IH; intuition.
Qed.

Lemma in_fold_intersection (d : date) (rest : list (frame F)) :
  forall init,
    In d (fold_left (fun common df' => index_intersection common (index df')) rest init)
    <-> In d init /\ forall df, In df rest -> In d (index df).
Proof.
  induction rest as [| df rest IH]; intros init; simpl.
  - intuition.
  - rewrite IH, in_index_intersection.
    split.
    + intros [[Hi Hdf] Hrest]; split; auto.
      intros df' [<- | Hin]; auto.
    + intros [Hi Hall]; auto.
Qed.

Lemma fold_intersection_sorted (rest : list (frame F)) :
  forall init,
    StronglySorted Z.lt init ->
    StronglySorted Z.lt
      (fold_left (fun common df' => index_intersection common (index df')) rest init).
Proof.
  induction rest as [| df rest IH]; intros init H; simpl; auto.
  apply IH, index_intersection_sorted; exact H.
Qed.

(** A common date is a date of every frame. *)
Lemma in_common_dates (portfolios : list (frame F)) (common : list date) (d : date) :
  common_dates_of portfolios = Return common ->
  (In d common <-> forall df, In df portfolios -> In d (index df)).
Proof.
  destruct portfolios as [| df rest]; simpl; [discriminate |].
  intros [= <-]; rewrite in_fold_intersection.
  split.
  - intros [Hd Hrest] df' [<- | Hin]; auto.
  - intros H; split; auto.
Qed.

Lemma common_dates_sorted (portfolios : list (frame F)) (common : list date) :
  (forall df, In df portfolios -> StronglySorted Z.lt (index df)) ->
  common_dates_of portfolios = Return common ->
  StronglySorted Z.lt common.
Proof.
  destruct portfolios as [| df rest]; simpl; [discriminate |].
  intros Hs [= <-]; apply fold_intersection_sorted; auto.
Qed.

(** On frames with increasing dates, the common dates do not depend on the
    order of the frames. *)
Lemma common_dates_perm (portfolios portfolios' : list (frame F)) :
  Permutation portfolios portfolios' ->
  (forall df, In df portfolios -> StronglySorted Z.lt (index df)) ->
  common_dates_of portfolios = common_dates_of portfolios'.
Proof.
  intros Hp Hs.
  destruct portfolios as [| df rest].
  - apply Permutation_nil in Hp; subst; reflexivity.
  - destruct portfolios' as [| df' rest'].
    + apply Permutation_sym, Permutation_nil in Hp; discriminate.
    + destruct (common_dates_of (df :: rest)) as [c | e] eqn:Hc; [| discriminate].
      destruct (common_dates_of (df' :: rest')) as [c' | e] eqn:Hc'; [| discriminate].
      f_equal; apply sorted_same_elements.
      * apply (common_dates_sorted _ _ Hs Hc).
      * apply (common_dates_sorted (df' :: rest')); auto.
        intros x Hx; apply Hs.
        apply (Permutation_in _ (Permutation_sym Hp)); exact Hx.
      * intros d.
        rewrite (in_common_dates _ _ d Hc), (in_common_dates _ _ d Hc').
        split; intros H x Hx; apply H.
        -- apply (Permutation_in _ (Permutation_sym Hp)); exact Hx.
        -- apply (Permutation_in _ Hp); exact Hx.
Qed.

(** The loop does not raise when every frame has every date and there are
    enough weights. *)
Lemma blend_defined (weights : list F) (common : list date) (cap : F)
    (portfolios : list (frame F)) :
  common <> [] ->
  (forall df d, In df portfolios -> In d common -> In d (index df)) ->
  forall (i : nat) (acc : list F),
    (i + List.length portfolios <= List.length weights)%nat ->
    exists series, blend portfolios i weights common cap acc = Return series.
Proof.
  intros Hne; induction portfolios as [| df others IH]; intros Hin i acc Hlen.
  - exists acc; reflexivity.
  - cbn [blend].
    rewrite (loc_defined df common) by (intros d Hd; apply value_at_in; apply Hin; simpl; auto).
    destruct common as [| d0 rest]; [congruence |].
    simpl py_bind.
    unfold item.
    destruct (nth_error weights i) as [w |] eqn:Hw.
    + simpl py_bind; apply IH.
      * intros df' d Hdf Hd; apply Hin; simpl; auto.
      * simpl in Hlen; lia.
    + apply nth_error_None in Hw; simpl in Hlen; lia.
Qed.

End CommonDates.

(** ** What a call returns, from its stages *)

Section Returned.

Context {F : Type} {ops : Float64 F}.

Lemma returned_metrics_blended (strategies : list strategy) (weights : list F)
    (cap : F) (dir : directory F) :
  returned_metrics (combine_portfolios strategies weights cap dir)
  = match blended strategies weights cap dir with
    | Some (_, series) => calculate_portfolio_metrics series cap
    | None => None
    end.
Proof.
  unfold returned_metrics, blended; rewrite combine_portfolios_outcome.
  destruct (weights_rejected weights); auto.
  destruct (outcome (load_all strategies dir)) as [[portfolios |] | e]; auto.
  destruct (common_dates_of portfolios) as [[| d r] | e]; auto.
  destruct (blend _ _ _ _ _ _) as [series | e]; auto.
  destruct (calculate_portfolio_metrics series cap); reflexivity.
Qed.

Lemma returned_series_blended (strategies : list strategy) (weights : list F)
    (cap : F) (dir : directory F) :
  returned_series (combine_portfolios strategies weights cap dir)
  = match blended strategies weights cap dir with
    | Some (_, series) => series
    | None => []
    end.
Proof.
  unfold returned_series, blended.
  destruct (outcome (combine_portfolios strategies weights cap dir))
    as [[site | p] | e] eqn:Hc.
  - rewrite combine_portfolios_outcome in Hc.
    destruct (weights_rejected weights); auto.
    destruct (outcome (load_all strategies dir)) as [[portfolios |] | e]; auto.
    destruct (common_dates_of portfolios) as [[| d r] | e]; auto.
    destruct (blend _ _ _ _ _ _) as [series | e]; auto.
    destruct series; [reflexivity | discriminate].
  - apply combine_portfolios_success in Hc
      as (portfolios & common & m & Hw & Hl & Hcd & Hne & Hb & _ & ->).
    rewrite Hw, Hl, Hcd.
    destruct common as [| d r]; [congruence |].
    rewrite Hb; cbn [portfolio_series]; apply map_snd_combine.
    symmetry; apply (weighted_blend_length portfolios weights (d :: r) cap).
  - rewrite combine_portfolios_outcome in Hc.
    destruct (weights_rejected weights); auto.
    destruct (outcome (load_all strategies dir)) as [[portfolios |] | e']; auto.
    destruct (common_dates_of portfolios) as [[| d r] | e']; auto.
    destruct (blend _ _ _ _ _ _) as [series | e']; auto.
    destruct (calculate_portfolio_metrics series cap); discriminate.
Qed.

(** When the files are readable, share a date, and the weights pass the
    check and are as many as the strategies, the stages go through and the
    series is the weighted sum of each common date. *)
Lemma blended_defined (strategies : list strategy) (weights : list F) (cap : F)
    (dir : directory F) (d0 : date) (rest : list date) :
  weights_rejected weights = false ->
  (forall s, In s strategies -> frame_of dir s <> None) ->
  common_dates_of (map (frame_or_empty dir) strategies) = Return (d0 :: rest) ->
  (List.length strategies <= List.length weights)%nat ->
  blended strategies weights cap dir
  = Some (d0 :: rest,
          weighted_blend (map (frame_or_empty dir) strategies) weights (d0 :: rest) cap).
Proof.
  intros Hw Hread Hc Hlen; unfold blended.
  rewrite Hw, (load_all_defined dir strategies Hread), Hc.
  destruct (blend_defined weights (d0 :: rest) cap (map (frame_or_empty dir) strategies)
              ltac:(discriminate)
              (fun df d Hdf Hd => proj1 (in_common_dates _ _ d Hc) Hd df Hdf)
              0%nat (map (fun _ => of_Z 0) (d0 :: rest))
              ltac:(rewrite length_map; simpl; lia)) as (series & Hs).
  rewrite Hs.
  rewrite (blend_is_weighted_blend _ _ _ _ _ Hs ltac:(discriminate)).
  reflexivity.
Qed.

End Returned.

(** ** When the program returns *)

Section Totality.

Context {F : Type} {ops : Float64 F}.

Lemma weight_combinations_length (weight_range : list F) (n : nat) (w : list F) :
  In w (weight_combinations weight_range n) -> List.length w = n.
Proof.
  unfold weight_combinations, kept_tuples; intros H.
  apply in_map_iff in H as (raw & <- & H).
  apply filter_In in H as [H _].
  unfold normalize; rewrite length_map.
  apply (product_length _ _ _ H).
Qed.

(** With readable files and enough weights, [combine_portfolios] raises
    nothing. *)
Lemma combine_portfolios_no_raise (strategies : list strategy) (weights : list F)
    (cap : F) (dir : directory F) (e : exn) :
  strategies <> [] ->
  (forall s, In s strategies -> frame_of dir s <> None) ->
  (List.length strategies <= List.length weights)%nat ->
  outcome (combine_portfolios strategies weights cap dir) <> Raise e.
Proof.
  intros Hne Hread Hlen.
  rewrite combine_portfolios_outcome.
  destruct (weights_rejected weights); [discriminate |].
  rewrite (load_all_defined dir strategies Hread).
  destruct (common_dates_of (map (frame_or_empty dir) strategies))
    as [[| d0 rest] | e'] eqn:Hc.
  - discriminate.
  - destruct (blend_defined weights (d0 :: rest) cap (map (frame_or_empty dir) strategies)
                ltac:(discriminate)
                (fun df d Hdf Hd => proj1 (in_common_dates _ _ d Hc) Hd df Hdf)
                0%nat (map (fun _ => of_Z 0) (d0 :: rest))
                ltac:(rewrite length_map; simpl; lia)) as (series & ->).
    destruct (calculate_portfolio_metrics series cap); discriminate.
  - exfalso; destruct strategies; [congruence | simpl in Hc; discriminate].
Qed.

(** With readable files and a grid numpy can build, [optimize_portfolio]
    returns the ranking of the combinations that succeed. *)
Lemma optimize_portfolio_returns (strategies : list strategy) (cap : F)
    (dir : directory F) (weight_step : F) (top_n : Z) (weight_range : list F) :
  np_arange (of_Z 0) (fadd (of_Z 1) weight_step) weight_step = Return weight_range ->
  strategies <> [] ->
  (forall s, In s strategies -> frame_of dir s <> None) ->
  outcome (optimize_portfolio strategies cap dir weight_step top_n)
  = Return
      (slice_to
         (sort_by_sharpe
            (successes strategies
               (weight_combinations weight_range (List.length strategies)) cap dir))
         top_n).
Proof.
  intros Hr Hne Hread.
  rewrite (optimize_portfolio_outcome _ _ _ _ _ _ Hr).
  rewrite sweep_defined; [reflexivity |].
  intros weights e Hin.
  apply combine_portfolios_no_raise; auto.
  rewrite (weight_combinations_length _ _ _ Hin); lia.
Qed.

End Totality.

(** ** Zeros and NaN *)

Section NullFacts.

Context {F : Type} {ops : Float64 F} {laws : Float64Laws F}.

Lemma null_zero : null (of_Z 0 : F).
Proof. split; apply fltb_irrefl. Qed.

Lemma null_fnan : null (fnan : F).
Proof. split; [apply fltb_fnan | apply fltb_fnan_l]. Qed.

Lemma null_not_above (x : F) : null x -> fltb (of_Z 0) x = false.
Proof. intros [H _]; exact H. Qed.

Lemma fold_left_fadd_null (l : list F) :
  Forall null l -> forall acc : F, null acc -> null (fold_left fadd l acc).
Proof.
  induction 1 as [| x l Hx _ IH]; intros acc Hacc; [exact Hacc |].
  cbn [fold_left]; apply IH, null_fadd; assumption.
Qed.

Lemma map2_fadd_null (r l : list F) :
  Forall null r -> Forall null l -> Forall null (map2 fadd r l).
Proof.
  intros Hr; revert l; induction Hr as [| a r Ha _ IH]; intros [| b l] Hl;
    cbn [map2]; try constructor.
  - apply null_fadd; [exact Ha | exact (Forall_inv Hl)].
  - apply IH; exact (Forall_inv_tail Hl).
Qed.

Lemma Forall_firstn {A : Type} (P : A -> Prop) (n : nat) (l : list A) :
  Forall P l -> Forall P (firstn n l).
Proof.
  intros H; rewrite <- (firstn_skipn n l) in H.
  apply Forall_app in H as [H _]; exact H.
Qed.

Lemma Forall_skipn {A : Type} (P : A -> Prop) (n : nat) (l : list A) :
  Forall P l -> Forall P (skipn n l).
Proof.
  intros H; rewrite <- (firstn_skipn n l) in H.
  apply Forall_app in H as [_ H]; exact H.
Qed.

Lemma add_by_eight_null (groups : nat) :
  forall r l : list F,
    Forall null r -> Forall null l ->
    Forall null (fst (add_by_eight groups r l)) /\
    Forall null (snd (add_by_eight groups r l)).
Proof.
  induction groups as [| g IH]; intros r l Hr Hl; cbn [add_by_eight].
  - split; assumption.
  - apply IH.
    + apply map2_fadd_null; [exact Hr | apply Forall_firstn; exact Hl].
    + apply Forall_skipn; exact Hl.
Qed.

Lemma sum_block_null (l : list F) : Forall null l -> null (sum_block l).
Proof.
  intros Hl; unfold sum_block.
  destruct (add_by_eight_null (List.length l / 8 - 1) (firstn 8 l) (skipn 8 l)
              (Forall_firstn _ _ _ Hl) (Forall_skipn _ _ _ Hl)) as [Hr Hrest].
  destruct (add_by_eight _ _ _) as [r rest]; cbn [fst snd] in Hr, Hrest.
  assert (Hdefault : null (fold_left fadd rest (fold_left fadd r (of_Z 0)))).
  { apply fold_left_fadd_null; [exact Hrest |].
    apply fold_left_fadd_null; [exact Hr | exact null_zero]. }
  destruct r as [| r0 [| r1 [| r2 [| r3 [| r4 [| r5 [| r6 [| r7 [| r8 r]]]]]]]]];
    try exact Hdefault.
  apply fold_left_fadd_null; [exact Hrest |].
  repeat match goal with
         | H : Forall null (_ :: _) |- _ =>
             let Hx := fresh "Hx" in
             pose proof (Forall_inv H) as Hx; apply Forall_inv_tail in H
         end.
  repeat apply null_fadd; assumption.
Qed.

Lemma pairwise_sum_null (fuel : nat) :
  forall l : list F, Forall null l -> null (pairwise_sum fuel l).
Proof.
  induction fuel as [| fuel IH]; intros l Hl; cbn [pairwise_sum].
  - destruct (List.length l <? 8)%nat.
    + apply fold_left_fadd_null; [exact Hl | exact null_zero].
    + destruct (List.length l <=? 128)%nat; apply sum_block_null; exact Hl.
  - destruct (List.length l <? 8)%nat.
    + apply fold_left_fadd_null; [exact Hl | exact null_zero].
    + destruct (List.length l <=? 128)%nat; [apply sum_block_null; exact Hl |].
      apply null_fadd; apply IH; [apply Forall_firstn | apply Forall_skipn]; exact Hl.
Qed.

Lemma np_sum_null (l : list F) : Forall null l -> null (np_sum l).
Proof.
  intros Hl; unfold np_sum.
  apply null_fadd; [exact null_zero | apply pairwise_sum_null; exact Hl].
Qed.

(** The deviation of zeros is a zero, or NaN. *)
Lemma series_std_null (l : list F) : Forall null l -> null (series_std l).
Proof.
  intros Hl; unfold series_std.
  assert (Hv : Forall null (dropna l)).
  { apply Forall_forall; intros x Hx.
    apply filter_In in Hx as [Hx _].
    exact (proj1 (Forall_forall null l) Hl x Hx). }
  destruct (List.length (dropna l) <=? 1)%nat; [exact null_fnan |].
  apply null_fsqrt, null_fdiv, np_sum_null.
  apply Forall_forall; intros y Hy.
  apply in_map_iff in Hy as (x & <- & Hx).
  apply null_fmul, null_fsub.
  - apply null_fdiv, np_sum_null; exact Hv.
  - exact (proj1 (Forall_forall null _) Hv x Hx).
Qed.

Lemma pct_change_from_repeat (v : F) (n : nat) :
  pct_change_from v (repeat v n) = repeat (fsub (fdiv v v) (of_Z 1)) n.
Proof. induction n as [| n IH]; cbn [repeat pct_change_from]; [| rewrite IH]; reflexivity. Qed.

(** The return of a value on itself is a zero, unless it is NaN. *)
Lemma self_return (v : F) :
  let r := fsub (fdiv v v) (of_Z 1) in
  null r \/ fisnan r = true.
Proof.
  cbn zeta; destruct (fdiv_same v) as [-> | Hnan].
  - left; apply fsub_same.
  - right; apply fsub_fnan_l; exact Hnan.
Qed.

(** The daily returns of a flat curve, in percent, are zeros. *)
Lemma flat_daily_returns (v : F) (n : nat) :
  Forall null
    (map (fun r => fmul r (of_Z 100)) (dropna (pct_change (v :: repeat v n)))).
Proof.
  apply Forall_forall; intros y Hy.
  apply in_map_iff in Hy as (r & <- & Hr).
  apply filter_In in Hr as [Hr Hnum].
  apply null_fmul.
  cbn [pct_change] in Hr; rewrite pct_change_from_repeat in Hr.
  destruct Hr as [<- | Hr].
  - rewrite fisnan_fnan in Hnum; discriminate.
  - apply repeat_spec in Hr; subst r.
    destruct (self_return v) as [H | H]; [exact H |].
    cbn zeta in H; rewrite H in Hnum; discriminate.
Qed.

(** On a flat curve the deviation of the returns is not above zero, and the
    Sharpe ratio is the zero of the other branch. *)
Lemma flat_metrics (v : F) (n : nat) (cap : F) :
  exists m,
    calculate_portfolio_metrics (v :: repeat v n) cap = Some m /\
    null (std_dev m) /\
    sharpe_ratio m = of_Z 0.
Proof.
  eexists; split; [reflexivity |].
  cbn [std_dev sharpe_ratio].
  pose proof (series_std_null _ (flat_daily_returns v n)) as Hstd.
  split; [exact Hstd |].
  rewrite (null_not_above _ Hstd); reflexivity.
Qed.

End NullFacts.

(** ** The running maximum and the minimum *)

Section DrawdownFacts.

Context {F : Type} {ops : Float64 F} {laws : Float64Laws F}.

Lemma positive_finite_number (x : F) : positive_finite x = true -> fisnan x = false.
Proof.
  unfold positive_finite; intros H.
  apply andb_prop in H as [H _].
  exact (proj2 (fltb_numbers _ _ H)).
Qed.

(** Of two numbers one is [<=] the other. *)
Lemma fleb_either (a b : F) :
  fisnan a = false -> fisnan b = false -> fleb a b = false -> fleb b a = true.
Proof.
  intros Ha Hb Hab.
  destruct (fltb b a) eqn:E; [apply fltb_fleb; exact E |].
  rewrite (fleb_total b a Hb Ha E) in Hab; discriminate.
Qed.

Lemma np_maximum_largest (acc y : F) (pre : list F) :
  Forall (fun x => fisnan x = false) pre -> fisnan y = false ->
  largest_of acc pre -> largest_of (np_maximum acc y) (pre ++ [y]).
Proof.
  intros Hpre Hy [Hin Hmax]; unfold np_maximum.
  assert (Hacc : fisnan acc = false)
    by exact (proj1 (Forall_forall _ pre) Hpre acc Hin).
  rewrite Hacc, orb_false_r.
  destruct (fleb y acc) eqn:E; split.
  - apply in_or_app; left; exact Hin.
  - intros x Hx; apply in_app_or in Hx as [Hx | [<- | []]]; [apply Hmax |]; assumption.
  - apply in_or_app; right; left; reflexivity.
  - pose proof (fleb_either y acc Hy Hacc E) as Hle.
    intros x Hx; apply in_app_or in Hx as [Hx | [<- | []]].
    + apply (fleb_trans x acc y); [apply Hmax; exact Hx | exact Hle].
    + apply fleb_refl; exact Hy.
Qed.

Lemma np_minimum_least (acc y : F) (pre : list F) :
  Forall (fun x => fisnan x = false) pre -> fisnan y = false ->
  least_of acc pre -> least_of (np_minimum acc y) (pre ++ [y]).
Proof.
  intros Hpre Hy [Hin Hmin]; unfold np_minimum.
  assert (Hacc : fisnan acc = false)
    by exact (proj1 (Forall_forall _ pre) Hpre acc Hin).
  rewrite Hacc, orb_false_r.
  destruct (fleb acc y) eqn:E; split.
  - apply in_or_app; left; exact Hin.
  - intros x Hx; apply in_app_or in Hx as [Hx | [<- | []]]; [apply Hmin |]; assumption.
  - apply in_or_app; right; left; reflexivity.
  - pose proof (fleb_either acc y Hacc Hy E) as Hle.
    intros x Hx; apply in_app_or in Hx as [Hx | [<- | []]].
    + apply (fleb_trans y acc x); [exact Hle | apply Hmin; exact Hx].
    + apply fleb_refl; exact Hy.
Qed.

Lemma prefixes_after (pre : list F) (y : F) (r : list F) :
  map (app pre) (prefixes (y :: r))
  = (pre ++ [y]) :: map (app (pre ++ [y])) (prefixes r).
Proof.
  cbn [prefixes map]; f_equal.
  rewrite map_map; apply map_ext; intros p.
  rewrite <- app_assoc; reflexivity.
Qed.

(** The running maximum of numbers gives a largest value of each
    beginning. *)
Lemma accumulate_from_largest (r : list F) :
  forall (acc : F) (pre : list F),
    Forall (fun x => fisnan x = false) pre ->
    Forall (fun x => fisnan x = false) r ->
    largest_of acc pre ->
    Forall2 (fun p beginning => largest_of p beginning)
      (accumulate_from np_maximum acc r) (map (app pre) (prefixes r)).
Proof.
  induction r as [| y r IH]; intros acc pre Hpre Hr Hacc.
  - constructor.
  - rewrite prefixes_after; cbn [accumulate_from].
    pose proof (np_maximum_largest acc y pre Hpre (Forall_inv Hr) Hacc) as Hstep.
    constructor; [exact Hstep |].
    apply IH; [| exact (Forall_inv_tail Hr) | exact Hstep].
    apply Forall_app; split; [exact Hpre |].
    constructor; [exact (Forall_inv Hr) | constructor].
Qed.

Lemma accumulate_length (f : F -> F -> F) (l : list F) :
  List.length (accumulate f l) = List.length l.
Proof.
  destruct l as [| x r]; [reflexivity |].
  cbn [accumulate List.length]; f_equal.
  revert x; induction r as [| y r IH]; intros x; [reflexivity |].
  cbn [accumulate_from List.length]; f_equal; apply IH.
Qed.

Lemma map2_unmasked (l peaks : list F) :
  Forall (fun x => fisnan x = false) l ->
  List.length peaks = List.length l ->
  map2 (fun v a => if fisnan v then fnan else a) l peaks = peaks.
Proof.
  intros Hl; revert peaks; induction Hl as [| v l Hv _ IH]; intros [| p peaks] Hlen;
    try discriminate; [reflexivity |].
  cbn [map2]; rewrite Hv; f_equal; apply IH.
  injection Hlen as Hlen; exact Hlen.
Qed.

Lemma cummax_of_numbers (l : list F) :
  Forall (fun x => fisnan x = false) l -> cummax l = accumulate np_maximum l.
Proof.
  intros Hl; unfold cummax.
  assert (Hvals : map (fun v => if fisnan v then fneg_inf else v) l = l).
  { rewrite <- (map_id l) at 2; apply map_ext_in; intros v Hv.
    rewrite (proj1 (Forall_forall _ l) Hl v Hv); reflexivity. }
  rewrite Hvals.
  apply map2_unmasked; [exact Hl | apply accumulate_length].
Qed.

Lemma cummax_running_peaks (l : list F) :
  Forall (fun x => fisnan x = false) l -> running_peaks (cummax l) l.
Proof.
  intros Hl; rewrite (cummax_of_numbers l Hl); unfold running_peaks.
  destruct l as [| x r]; [constructor |].
  cbn [accumulate prefixes].
  assert (Hx : largest_of x [x]).
  { split; [left; reflexivity |].
    intros y [<- | []]; apply fleb_refl; exact (Forall_inv Hl). }
  constructor; [exact Hx |].
  change (cons x) with (app [x]).
  apply accumulate_from_largest; [| exact (Forall_inv_tail Hl) | exact Hx].
  constructor; [exact (Forall_inv Hl) | constructor].
Qed.

Lemma fold_minimum_least (r : list F) :
  forall (acc : F) (pre : list F),
    Forall (fun x => fisnan x = false) pre ->
    Forall (fun x => fisnan x = false) r ->
    least_of acc pre ->
    least_of (fold_left np_minimum r acc) (pre ++ r).
Proof.
  induction r as [| y r IH]; intros acc pre Hpre Hr Hacc.
  - rewrite app_nil_r; exact Hacc.
  - cbn [fold_left].
    replace (pre ++ y :: r) with ((pre ++ [y]) ++ r) by (rewrite <- app_assoc; reflexivity).
    apply IH; [| exact (Forall_inv_tail Hr) |].
    + apply Forall_app; split; [exact Hpre |].
      constructor; [exact (Forall_inv Hr) | constructor].
    + apply np_minimum_least; [exact Hpre | exact (Forall_inv Hr) | exact Hacc].
Qed.

(** The minimum of a series of numbers that is not empty. *)
Lemma series_min_least (l : list F) :
  l <> [] -> Forall (fun x => fisnan x = false) l -> least_of (series_min l) l.
Proof.
  intros Hne Hl; unfold series_min.
  assert (Hdrop : dropna l = l).
  { unfold dropna; apply forallb_filter_id.
    apply forallb_forall; intros x Hx.
    rewrite (proj1 (Forall_forall _ l) Hl x Hx); reflexivity. }
  rewrite Hdrop.
  destruct l as [| x r]; [congruence |].
  change (x :: r) with ([x] ++ r).
  apply fold_minimum_least.
  - constructor; [exact (Forall_inv Hl) | constructor].
  - exact (Forall_inv_tail Hl).
  - split; [left; reflexivity |].
    intros y [<- | []]; apply fleb_refl; exact (Forall_inv Hl).
Qed.

(** The minimum of any series. *)
Lemma series_min_minimum (l : list F) : minimum_of (series_min l) l.
Proof.
  unfold series_min.
  assert (Hin : forall x, In x (dropna l) <-> In x l /\ fisnan x = false).
  { intros x; unfold dropna; rewrite filter_In.
    destruct (fisnan x); simpl; intuition congruence. }
  destruct (dropna l) as [| x r] eqn:E.
  - left; split; [apply fisnan_fnan |].
    apply Forall_forall; intros y Hy.
    destruct (fisnan y) eqn:Ey; [reflexivity |].
    destruct (proj2 (Hin y) (conj Hy Ey)).
  - right.
    assert (Hnum : Forall (fun y => fisnan y = false) (x :: r)).
    { apply Forall_forall; intros y Hy; exact (proj2 (proj1 (Hin y) Hy)). }
    assert (Hleast : least_of (fold_left np_minimum r x) ([x] ++ r)).
    { apply fold_minimum_least.
      - constructor; [exact (Forall_inv Hnum) | constructor].
      - exact (Forall_inv_tail Hnum).
      - split; [left; reflexivity |].
        intros y [<- | []]; apply fleb_refl; exact (Forall_inv Hnum). }
    destruct Hleast as [Hmem Hle]; cbn [app] in Hmem, Hle.
    destruct (proj1 (Hin _) Hmem) as [Hl Hn].
    split; [exact Hn |]. split; [exact Hl |].
    intros y Hy Hyn; apply Hle, Hin; split; assumption.
Qed.

(** A peak of a beginning of the curve is a value of the curve. *)
Lemma in_prefix_in (l p : list F) (x : F) : In p (prefixes l) -> In x p -> In x l.
Proof.
  revert p; induction l as [| y r IH]; intros p Hp Hx; [destruct Hp |].
  cbn [prefixes] in Hp; destruct Hp as [<- | Hp].
  - destruct Hx as [<- | []]; left; reflexivity.
  - apply in_map_iff in Hp as (q & <- & Hq).
    destruct Hx as [<- | Hx]; [left; reflexivity | right; exact (IH q Hq Hx)].
Qed.

Lemma running_peaks_in (peaks l : list F) (P : F -> Prop) :
  running_peaks peaks l -> Forall P l -> Forall P peaks.
Proof.
  unfold running_peaks; intros Hp Hl.
  assert (Hpre : Forall (fun p => forall x, In x p -> In x l) (prefixes l)).
  { apply Forall_forall; intros p Hin x Hx; exact (in_prefix_in l p x Hin Hx). }
  induction Hp as [| p b peaks bs [Hin _] _ IH]; constructor.
  - apply (proj1 (Forall_forall P l) Hl), (Forall_inv Hpre), Hin.
  - apply IH; exact (Forall_inv_tail Hpre).
Qed.

Lemma map2_Forall (f : F -> F -> F) (P Q R : F -> Prop) (l l' : list F) :
  (forall a b, P a -> Q b -> R (f a b)) ->
  Forall P l -> Forall Q l' -> Forall R (map2 f l l').
Proof.
  intros Hf Hl; revert l'; induction Hl as [| a l Ha _ IH]; intros [| b l'] Hl';
    cbn [map2]; constructor.
  - apply Hf; [exact Ha | exact (Forall_inv Hl')].
  - apply IH; exact (Forall_inv_tail Hl').
Qed.

(** What [calculate_portfolio_metrics] reports as the maximum drawdown of
    a curve of positive finite values. *)
Lemma max_drawdown_of_positive (vs : list F) (cap : F) :
  vs <> [] ->
  Forall (fun v => positive_finite v = true) vs ->
  exists m,
    calculate_portfolio_metrics vs cap = Some m /\
    running_peaks (cummax vs) vs /\
    least_of (max_drawdown m) (map2 drawdown_pct vs (cummax vs)).
Proof.
  intros Hne Hpos.
  assert (Hnum : Forall (fun x => fisnan x = false) vs).
  { apply Forall_forall; intros x Hx.
    apply positive_finite_number, (proj1 (Forall_forall _ vs) Hpos x Hx). }
  pose proof (cummax_running_peaks vs Hnum) as Hpeaks.
  destruct vs as [| v0 rest]; [congruence |].
  eexists; split; [reflexivity |].
  split; [exact Hpeaks |].
  cbn [max_drawdown].
  change (fun v p : F => fmul (fdiv (fsub v p) p) (of_Z 100)) with (@drawdown_pct F ops).
  apply series_min_least.
  - intros Hnil.
    apply (f_equal (@List.length F)) in Hnil.
    rewrite map2_length in Hnil; [discriminate |].
    unfold cummax; rewrite map2_length; [reflexivity |].
    rewrite accumulate_length, length_map; reflexivity.
  - apply (map2_Forall drawdown_pct (fun v => positive_finite v = true)
             (fun p => positive_finite p = true)).
    + intros a b; apply drawdown_number.
    + exact Hpos.
    + exact (running_peaks_in _ _ _ Hpeaks Hpos).
Qed.

(** A curve of one positive finite value has lost nothing. *)
Lemma max_drawdown_of_one (v cap : F) :
  positive_finite v = true ->
  option_map max_drawdown (calculate_portfolio_metrics [v] cap) = Some (of_Z 0).
Proof.
  intros Hv.
  cbn [calculate_portfolio_metrics option_map max_drawdown]; f_equal.
  unfold cummax; cbn [map accumulate accumulate_from map2].
  rewrite (positive_finite_number v Hv).
  rewrite (fsub_self v Hv), (fdiv_zero_l v Hv), fmul_zero_100.
  unfold series_min, dropna; cbn [filter].
  rewrite fisnan_zero; reflexivity.
Qed.

End DrawdownFacts.

(** ** The order of the strategies *)

Section OrderFacts.

Context {F : Type} {ops : Float64 F}.

(** A call whose files are not all readable returns no series. *)
Lemma blended_unreadable (strategies : list strategy) (weights : list F) (cap : F)
    (dir : directory F) (s : strategy) :
  In s strategies -> frame_of dir s = None ->
  blended strategies weights cap dir = None.
Proof.
  intros Hin Hs; unfold blended.
  destruct (weights_rejected weights); auto.
  destruct (outcome (load_all strategies dir)) as [[portfolios |] | e] eqn:Hl; auto.
  apply load_all_inv in Hl as [Hall _].
  exfalso; exact (Hall s Hin Hs).
Qed.

Lemma find_unreadable (dir : directory F) (strategies : list strategy) :
  (forall s, In s strategies -> frame_of dir s <> None) \/
  (exists s, In s strategies /\ frame_of dir s = None).
Proof.
  induction strategies as [| s rest [IH | (s' & Hin & Hs')]].
  - left; intros s [].
  - destruct (frame_of dir s) eqn:E.
    + left; intros s' [<- | Hin]; [congruence | auto].
    + right; exists s; simpl; auto.
  - right; exists s'; simpl; auto.
Qed.

(** With increasing dates in every frame, listing the strategies and their
    weights in another order changes the blended series only through the
    sum of the weights and the weighted sums of the dates. *)
Lemma blended_rearranged (sw sw' : list (strategy * F)) (cap : F) (dir : directory F) :
  Permutation sw sw' ->
  (forall s df, frame_of dir s = Some df -> StronglySorted Z.lt (index df)) ->
  py_sum (map snd sw) = py_sum (map snd sw') ->
  (forall common,
     weighted_blend (map (frame_or_empty dir) (map fst sw)) (map snd sw) common cap
     = weighted_blend (map (frame_or_empty dir) (map fst sw')) (map snd sw') common cap) ->
  blended (map fst sw) (map snd sw) cap dir
  = blended (map fst sw') (map snd sw') cap dir.
Proof.
  intros Hp Hsorted Hsum Hblend.
  pose proof (Permutation_map fst Hp) as Hps.
  assert (Hrej : weights_rejected (map snd sw) = weights_rejected (map snd sw'))
    by (unfold weights_rejected; rewrite Hsum; reflexivity).
  assert (Hlen : List.length sw = List.length sw') by (apply Permutation_length; exact Hp).
  destruct (find_unreadable dir (map fst sw)) as [Hread | (s & Hin & Hs)].
  2:{ rewrite (blended_unreadable _ _ _ _ s Hin Hs).
      symmetry; apply (blended_unreadable _ _ _ _ s); auto.
      apply (Permutation_in _ Hps); exact Hin. }
  assert (Hread' : forall s, In s (map fst sw') -> frame_of dir s <> None).
  { intros s Hin; apply Hread.
    apply (Permutation_in _ (Permutation_sym Hps)); exact Hin. }
  assert (Hcommon : common_dates_of (map (frame_or_empty dir) (map fst sw))
                    = common_dates_of (map (frame_or_empty dir) (map fst sw'))).
  { apply common_dates_perm.
    - apply Permutation_map; exact Hps.
    - intros df Hdf.
      apply in_map_iff in Hdf as (s & <- & Hin).
      specialize (Hread s Hin).
      unfold frame_or_empty.
      destruct (frame_of dir s) as [df |] eqn:E; [| congruence].
      apply (Hsorted s df E). }
  destruct (weights_rejected (map snd sw)) eqn:Hw.
  { unfold blended; rewrite <- Hrej, Hw; reflexivity. }
  assert (Hw' : weights_rejected (map snd sw') = false) by (symmetry; exact Hrej).
  destruct (common_dates_of (map (frame_or_empty dir) (map fst sw)))
    as [[| d0 rest] | e] eqn:Hc.
  - unfold blended.
    rewrite Hw, Hw', (load_all_defined dir _ Hread), (load_all_defined dir _ Hread').
    rewrite <- Hcommon, Hc; reflexivity.
  - rewrite (blended_defined _ _ cap dir d0 rest Hw Hread Hc)
      by (rewrite !length_map; lia).
    rewrite (blended_defined _ _ cap dir d0 rest Hw' Hread')
      by (rewrite <- ?Hcommon; auto; rewrite !length_map; lia).
    rewrite Hblend; reflexivity.
  - unfold blended.
    rewrite Hw, Hw', (load_all_defined dir _ Hread), (load_all_defined dir _ Hread').
    rewrite <- Hcommon, Hc; reflexivity.
Qed.

Context {laws : Float64Laws F}.

Lemma py_sum_first_two (a b : F) (ws : list F) :
  py_sum (a :: b :: ws) = py_sum (b :: a :: ws).
Proof. unfold py_sum; cbn [fold_left]; rewrite fadd_first_two; reflexivity. Qed.

Lemma weighted_blend_first_two (p1 p2 : frame F) (ps : list (frame F))
    (w1 w2 : F) (ws : list F) (common : list date) (cap : F) :
  weighted_blend (p1 :: p2 :: ps) (w1 :: w2 :: ws) common cap
  = weighted_blend (p2 :: p1 :: ps) (w2 :: w1 :: ws) common cap.
Proof.
  unfold weighted_blend; destruct common as [| d0 rest]; [reflexivity |].
  apply map_ext; intros d.
  cbn [map2 fold_left]; rewrite fadd_first_two; reflexivity.
Qed.

(** With increasing dates in every frame, the first two strategies may
    change places, each with its weight. *)
Lemma blended_first_two (s1 s2 : strategy) (w1 w2 : F) (others : list (strategy * F))
    (cap : F) (dir : directory F) :
  (forall s df, frame_of dir s = Some df -> StronglySorted Z.lt (index df)) ->
  blended (s1 :: s2 :: map fst others) (w1 :: w2 :: map snd others) cap dir
  = blended (s2 :: s1 :: map fst others) (w2 :: w1 :: map snd others) cap dir.
Proof.
  intros Hsorted.
  apply (blended_rearranged ((s1, w1) :: (s2, w2) :: others)
           ((s2, w2) :: (s1, w1) :: others) cap dir).
  - apply perm_swap.
  - exact Hsorted.
  - apply py_sum_first_two.
  - intros common; apply weighted_blend_first_two.
Qed.

(** ** The first value of the blend *)

(** On the first common date a curve worth a positive finite amount is
    rebased to the capital itself, and adds the capital times its weight. *)
Lemma weighted_term_at_start (d0 : date) (cap : F) (df : frame F) (w v : F) :
  value_at df d0 = Some v -> positive_finite v = true ->
  weighted_term d0 d0 cap df w = fmul cap w.
Proof.
  intros Hv Hpos; unfold weighted_term, value_or_nan; rewrite Hv.
  rewrite (fdiv_self v Hpos), fmul_one_l; reflexivity.
Qed.

Lemma terms_at_start (dir : directory F) (d0 : date) (cap : F) :
  forall (strategies : list strategy) (weights : list F),
    List.length weights = List.length strategies ->
    (forall s, In s strategies ->
       exists v, value_at (frame_or_empty dir s) d0 = Some v /\
                 positive_finite v = true) ->
    map2 (weighted_term d0 d0 cap) (map (frame_or_empty dir) strategies) weights
    = map (fmul cap) weights.
Proof.
  induction strategies as [| s rest IH]; intros [| w ws] Hlen Hstart;
    try discriminate; [reflexivity |].
  cbn [map map2].
  destruct (Hstart s (or_introl eq_refl)) as (v & Hv & Hpos).
  rewrite (weighted_term_at_start d0 cap _ w v Hv Hpos).
  f_equal; apply IH.
  - injection Hlen as Hlen; exact Hlen.
  - intros s' Hs'; apply Hstart; right; exact Hs'.
Qed.

End OrderFacts.

(** * Exact arithmetic *)

Module XRealFacts.

Import XReal.

Local Open Scope R_scope.

Lemma Rltb_true (a b : R) : a < b -> Rltb a b = true.
Proof. unfold Rltb; destruct (Rlt_dec a b); tauto. Qed.

Lemma Rltb_false (a b : R) : ~ a < b -> Rltb a b = false.
Proof. unfold Rltb; destruct (Rlt_dec a b); tauto. Qed.

Lemma Rleb_true (a b : R) : a <= b -> Rleb a b = true.
Proof. unfold Rleb; destruct (Rle_dec a b); tauto. Qed.

Lemma Rleb_false (a b : R) : ~ a <= b -> Rleb a b = false.
Proof. unfold Rleb; destruct (Rle_dec a b); tauto. Qed.

Lemma Reqb_true (a b : R) : a = b -> Reqb a b = true.
Proof. unfold Reqb; destruct (Req_EM_T a b); tauto. Qed.

Lemma Reqb_false (a b : R) : a <> b -> Reqb a b = false.
Proof. unfold Reqb; destruct (Req_EM_T a b); tauto. Qed.

Lemma Rltb_spec (a b : R) : Rltb a b = true <-> a < b.
Proof. unfold Rltb; destruct (Rlt_dec a b); split; auto; discriminate. Qed.

Lemma Rleb_spec (a b : R) : Rleb a b = true <-> a <= b.
Proof. unfold Rleb; destruct (Rle_dec a b); split; auto; discriminate. Qed.

(** Decide the comparisons of real numbers that linear arithmetic settles. *)
Ltac decide_reals :=
  repeat match goal with
    | |- context [Rabs ?a] =>
        first [rewrite (Rabs_pos_eq a) by lra | rewrite (Rabs_left1 a) by lra]
    | |- context [Rltb ?a ?b] =>
        first [rewrite (Rltb_true a b) by lra | rewrite (Rltb_false a b) by lra]
    | |- context [Rleb ?a ?b] =>
        first [rewrite (Rleb_true a b) by lra | rewrite (Rleb_false a b) by lra]
    | |- context [Reqb ?a ?b] =>
        first [rewrite (Reqb_true a b) by lra | rewrite (Reqb_false a b) by lra]
    end.

(** The float64 operations, read over the extended reals. *)
Ltac xreal :=
  change (@fadd t ops) with add in *;
  change (@fsub t ops) with sub in *;
  change (@fmul t ops) with mul in *;
  change (@fdiv t ops) with div in *;
  change (@fabs t ops) with abs in *;
  change (@fsqrt t ops) with sqrt in *;
  change (@fltb t ops) with ltb in *;
  change (@fleb t ops) with leb in *;
  change (@fisnan t ops) with is_nan in *;
  change (@fnan t ops) with NaN in *;
  change (@fpos_inf t ops) with (Infinite false) in *;
  change (@fneg_inf t ops) with (Infinite true) in *;
  change (@fceil t ops) with ceil in *;
  change (@of_Z t ops) with (fun z => Finite (IZR z)) in *;
  cbv beta in *.

Lemma add_comm (x y : t) : add x y = add y x.
Proof.
  destruct x as [a | s |], y as [b | s' |]; simpl; try reflexivity.
  - f_equal; lra.
  - destruct s, s'; reflexivity.
Qed.

Lemma add_assoc (x y z : t) : add (add x y) z = add x (add y z).
Proof.
  destruct x as [a | [|] |], y as [b | [|] |], z as [c | [|] |]; simpl;
    try reflexivity.
  f_equal; lra.
Qed.

Lemma fold_left_add_perm (l l' : list t) :
  Permutation l l' -> forall a, fold_left add l a = fold_left add l' a.
Proof.
  induction 1 as [| x l l' _ IH | x y l | l l' l'' _ IH1 _ IH2]; intros a; simpl; auto.
  - f_equal.
    rewrite !add_assoc; f_equal; apply add_comm.
  - rewrite IH1; apply IH2.
Qed.

Lemma div_finite (a b : R) : b <> 0 -> div (Finite a) (Finite b) = Finite (a / b).
Proof. intros Hb; simpl; rewrite Reqb_false by exact Hb; reflexivity. Qed.

Lemma sub_finite (a b : R) : sub (Finite a) (Finite b) = Finite (a - b).
Proof. reflexivity. Qed.

Lemma mul_finite (a b : R) : mul (Finite a) (Finite b) = Finite (a * b).
Proof. reflexivity. Qed.

Lemma sqrt_zero : sqrt (Finite 0) = Finite 0.
Proof. simpl; rewrite Rltb_false by lra; rewrite sqrt_0; reflexivity. Qed.

(** The order of the extended reals has the laws the ranking needs. *)
#[global] Instance xreal_key_order : KeyOrder t.
Proof.
  split; xreal.
  - intros [a | [|] |] [b | [|] |]; simpl; auto; try discriminate.
    intros H; apply Rltb_spec in H; apply Rleb_true; lra.
  - intros [a | [|] |] [b | [|] |]; simpl; auto; try discriminate.
    intros H; apply Rleb_spec in H; apply Rltb_false; lra.
  - intros [a | [|] |] [b | [|] |]; simpl; auto; try discriminate.
    intros _ _ H; apply Rleb_true.
    unfold Rltb in H; destruct (Rlt_dec a b); [discriminate | lra].
  - intros [a | [|] |] [b | [|] |] [c | [|] |]; simpl; auto; try discriminate.
    intros H1 H2; apply Rleb_spec in H1, H2; apply Rleb_true; lra.
Qed.

Lemma add_finite_inv (x y : t) (r : R) :
  add x y = Finite r -> exists a b, x = Finite a /\ y = Finite b /\ r = a + b.
Proof.
  destruct x as [a | s |], y as [b | s' |]; simpl; try discriminate.
  - intros [= <-]; eauto.
  - destruct (Bool.eqb s s'); discriminate.
Qed.

(** A finite sum has finite terms, and is their real sum. *)
Lemma fold_left_add_finite_inv (l : list t) :
  forall (x : t) (r : R),
    fold_left add l x = Finite r ->
    exists a rs, x = Finite a /\ l = map Finite rs /\ r = fold_left Rplus rs a.
Proof.
  induction l as [| y l IH]; simpl; intros x r H.
  - exists r, []; auto.
  - apply IH in H as (c & rs & Hc & -> & ->).
    apply add_finite_inv in Hc as (a & b & -> & -> & ->).
    exists a, (b :: rs); auto.
Qed.

Lemma fold_left_add_finite (rs : list R) (a : R) :
  fold_left add (map Finite rs) (Finite a) = Finite (fold_left Rplus rs a).
Proof. revert a; induction rs as [| b rs IH]; intros a; simpl; auto. Qed.

Lemma fold_left_Rplus_shift (rs : list R) (a : R) :
  fold_left Rplus rs a = a + fold_left Rplus rs 0.
Proof.
  revert a; induction rs as [| b rs IH]; intros a; simpl.
  - lra.
  - rewrite (IH (a + b)), (IH (0 + b)); lra.
Qed.

Lemma fold_left_Rplus_scale (rs : list R) (k : R) :
  fold_left Rplus (map (fun r => r * k) rs) 0 = fold_left Rplus rs 0 * k.
Proof.
  induction rs as [| b rs IH]; simpl.
  - lra.
  - rewrite (fold_left_Rplus_shift _ (0 + b * k)), (fold_left_Rplus_shift _ (0 + b)), IH.
    lra.
Qed.

End XRealFacts.

(** ** The weight checks *)

Module Checks.

Import XReal XRealFacts.

Local Open Scope R_scope.

Lemma lit_0_01_exact : @lit_0_01 t ops = Finite (1 / 100).
Proof. unfold lit_0_01; xreal; simpl; decide_reals; reflexivity. Qed.

Lemma py_sum_finite (rs : list R) :
  py_sum (map Finite rs) = Finite (fold_left Rplus rs 0).
Proof. unfold py_sum; xreal; apply fold_left_add_finite. Qed.

Lemma py_sum_finite_inv (weights : list t) (s : R) :
  py_sum weights = Finite s ->
  exists rs, weights = map Finite rs /\ s = fold_left Rplus rs 0.
Proof.
  unfold py_sum; xreal; intros H.
  apply fold_left_add_finite_inv in H as (a & rs & [= <-] & -> & ->).
  exists rs; auto.
Qed.

(** The distance of the sum to one, when it is a number. *)
Lemma distance_to_one (weights : list t) (d : R) :
  fabs (fsub (py_sum weights) (of_Z 1)) = Finite d ->
  exists s, py_sum weights = Finite s /\ d = Rabs (s - 1).
Proof.
  xreal; destruct (py_sum weights) as [s | sg |]; simpl; try discriminate.
  intros [= <-]; exists s; split; auto.
Qed.

Lemma sums_to_one_spec (weights : list t) :
  sums_to_one weights = true <->
  exists s, py_sum weights = Finite s /\ Rabs (s - 1) < 1 / 100.
Proof.
  unfold sums_to_one; rewrite lit_0_01_exact; xreal.
  destruct (py_sum weights) as [s | sg |]; simpl.
  - rewrite Rltb_spec; split.
    + intros H; exists s; split; auto.
    + intros (s' & [= <-] & H); exact H.
  - split; [discriminate | intros (s & Hs & _); discriminate].
  - split; [discriminate | intros (s & Hs & _); discriminate].
Qed.

Lemma weights_rejected_spec (weights : list t) :
  weights_rejected weights = true <->
  (exists s, py_sum weights = Finite s /\ 1 / 100 < Rabs (s - 1)) \/
  (exists sg, py_sum weights = Infinite sg).
Proof.
  unfold weights_rejected; rewrite lit_0_01_exact; xreal.
  destruct (py_sum weights) as [s | sg |]; simpl.
  - rewrite Rltb_spec; split.
    + intros H; left; exists s; split; auto.
    + intros [(s' & [= <-] & H) | (sg & Hs)]; [exact H | discriminate].
  - split; auto; intros _; right; eauto.
  - split; [discriminate |].
    intros [(s & Hs & _) | (sg & Hs)]; discriminate.
Qed.

Lemma sums_to_one_finite (rs : list R) :
  sums_to_one (map Finite rs) = Rltb (Rabs (fold_left Rplus rs 0 - 1)) (1 / 100).
Proof.
  unfold sums_to_one; rewrite lit_0_01_exact, py_sum_finite; xreal; reflexivity.
Qed.

End Checks.

(** ** The grid of step one *)

Module Grid.

Import XReal XRealFacts Checks.

Local Open Scope R_scope.

(** The grid of step one, in exact arithmetic: the two points 0 and 1. *)
Lemma step_one_range :
  np_arange (Finite 0) (add (Finite 1) (Finite 1)) (Finite 1)
  = Return [Finite 0; Finite 1].
Proof.
  unfold np_arange; xreal; simpl; decide_reals; unfold ceil.
  rewrite (Zceil_eq 2) by lra.
  simpl; repeat f_equal; lra.
Qed.

Lemma step_one_pairs :
  kept_tuples [Finite 0; Finite 1] 2 = [[Finite 0; Finite 1]; [Finite 1; Finite 0]].
Proof.
  unfold kept_tuples; simpl product.
  change [Finite 0; Finite 0] with (map Finite [0; 0]).
  change [Finite 0; Finite 1] with (map Finite [0; 1]).
  change [Finite 1; Finite 0] with (map Finite [1; 0]).
  change [Finite 1; Finite 1] with (map Finite [1; 1]).
  cbn [filter]; rewrite !sums_to_one_finite; simpl fold_left.
  decide_reals; reflexivity.
Qed.

Lemma step_one_singles :
  kept_tuples [Finite 0; Finite 1] 1 = [[Finite 1]].
Proof.
  unfold kept_tuples; simpl product.
  change [Finite 0] with (map Finite [0]).
  change [Finite 1] with (map Finite [1]).
  cbn [filter]; rewrite !sums_to_one_finite; simpl fold_left.
  decide_reals; reflexivity.
Qed.

End Grid.

(** NaN is what exact arithmetic takes it for. *)
#[global] Instance xreal_nan_laws : NaNLaws XReal.t.
Proof.
  split; [reflexivity |].
  intros [a | [|] |]; reflexivity.
Qed.

(** ** The laws of the arithmetic, in exact arithmetic *)

Module XRealLaws.

Import XReal XRealFacts.

Local Open Scope R_scope.

(** A zero or NaN. *)
Lemma null_exact (x : t) : null x <-> x = Finite 0 \/ x = NaN.
Proof.
  unfold null; xreal.
  destruct x as [a | [|] |]; simpl; split; try (intros [H | H]; discriminate);
    try (intros [H1 H2]; discriminate); auto.
  - unfold Rltb; intros [H1 H2].
    destruct (Rlt_dec 0 a), (Rlt_dec a 0); try discriminate.
    left; f_equal; lra.
  - intros [[= ->] | H]; [| discriminate].
    decide_reals; auto.
Qed.

Lemma positive_finite_exact (x : t) :
  positive_finite x = true <-> exists a, x = Finite a /\ 0 < a.
Proof.
  unfold positive_finite; xreal.
  destruct x as [a | [|] |]; simpl; split; try discriminate;
    try (intros (a' & H & _); discriminate).
  - rewrite andb_true_r, Rltb_spec; eauto.
  - intros (a' & [= <-] & Ha); rewrite andb_true_r; apply Rltb_spec; exact Ha.
Qed.

Ltac nulls :=
  repeat match goal with
    | H : null _ |- _ => apply null_exact in H; destruct H as [-> | ->]
    | |- null _ => apply null_exact
    end.

#[global] Instance xreal_laws : Float64Laws t.
Proof.
  split.
  - exact xreal_key_order.
  - exact xreal_nan_laws.
  - intros x; reflexivity.
  - intros [a | [|] |] [b | [|] |]; simpl; intros H; try discriminate; auto.
  - reflexivity.
  - intros a b Ha Hb; nulls; xreal; simpl; auto.
    left; f_equal; lra.
  - intros a b Ha Hb; nulls; xreal; simpl; auto.
    left; f_equal; lra.
  - intros a b Ha; nulls; xreal; destruct b as [b | [|] |]; simpl; auto;
      decide_reals; auto.
    left; f_equal; lra.
  - intros a b Ha; nulls; xreal; destruct b as [b | [|] |]; simpl; auto.
    destruct (Req_EM_T b 0) as [-> | Hb]; decide_reals; auto.
    left; f_equal; field; exact Hb.
  - intros a Ha; nulls; xreal; simpl; auto.
    decide_reals; left; f_equal; apply sqrt_0.
  - intros x; nulls; xreal; destruct x as [a | [|] |]; simpl; auto.
    left; f_equal; lra.
  - intros x; xreal; destruct x as [a | [|] |]; simpl; auto.
    destruct (Req_EM_T a 0) as [-> | Ha]; decide_reals; auto.
    left; f_equal; field; exact Ha.
  - intros x Hx; apply positive_finite_exact in Hx as (a & -> & Ha).
    xreal; simpl; f_equal; lra.
  - intros x Hx; apply positive_finite_exact in Hx as (a & -> & Ha).
    xreal; simpl; decide_reals; f_equal; field; lra.
  - intros x; xreal; destruct x as [a | [|] |]; simpl; decide_reals; auto.
    f_equal; lra.
  - intros x Hx; apply positive_finite_exact in Hx as (a & -> & Ha).
    xreal; simpl; decide_reals; f_equal; field; lra.
  - xreal; simpl; f_equal; lra.
  - intros [a | [|] |] b; simpl; try discriminate; reflexivity.
  - intros v p Hv Hp.
    apply positive_finite_exact in Hv as (a & -> & Ha).
    apply positive_finite_exact in Hp as (b & -> & Hb).
    unfold drawdown_pct; xreal; simpl; decide_reals; reflexivity.
  - intros a b; xreal.
    rewrite (add_assoc (Finite 0) a b), (add_assoc (Finite 0) b a), (add_comm a b).
    reflexivity.
Qed.

End XRealLaws.

(** * Binary64 *)

(** ** The order of the floats *)

Module Binary64Facts.

(** Case analysis on the comparisons of exponents and mantissas. *)
Ltac split_compare :=
  repeat match goal with
    | |- context [(?x ?= ?y)%Z] => destruct (Z.compare_spec x y); subst
    | |- context [PosDef.Pos.compare_cont Eq ?x ?y] =>
        change (PosDef.Pos.compare_cont Eq x y) with (Pos.compare x y);
        destruct (Pos.compare_spec x y); subst
    end.

Lemma SFltb_SFleb (a b : spec_float) : SFltb a b = true -> SFleb a b = true.
Proof. unfold SFltb, SFleb; destruct (SFcompare a b) as [[| |] |]; auto. Qed.

Lemma SFcompare_antisym (a b : spec_float) :
  SFcompare b a = option_map CompOpp (SFcompare a b).
Proof.
  destruct a as [sa | sa | | sa ma ea], b as [sb | sb | | sb mb eb]; simpl;
    try reflexivity;
    try (destruct sa; reflexivity); try (destruct sb; reflexivity);
    try (destruct sa, sb; reflexivity).
  destruct sa, sb; simpl; try reflexivity; f_equal;
    split_compare; simpl; try reflexivity; lia.
Qed.

Lemma SFleb_not_SFltb (a b : spec_float) : SFleb b a = true -> SFltb a b = false.
Proof.
  unfold SFleb, SFltb; rewrite (SFcompare_antisym a b).
  destruct (SFcompare a b) as [[| |] |]; simpl; auto; discriminate.
Qed.

Lemma SFcompare_none (a b : spec_float) :
  SFcompare a b = None -> a = S754_nan \/ b = S754_nan.
Proof. destruct a, b; simpl; auto; discriminate. Qed.

Lemma SFleb_total (a b : spec_float) :
  a <> S754_nan -> b <> S754_nan -> SFltb a b = false -> SFleb b a = true.
Proof.
  intros Ha Hb; unfold SFleb, SFltb; rewrite (SFcompare_antisym a b).
  destruct (SFcompare a b) as [[| |] |] eqn:E; simpl; auto; try discriminate.
  destruct (SFcompare_none _ _ E); contradiction.
Qed.

Lemma SFleb_trans (a b c : spec_float) :
  SFleb a b = true -> SFleb b c = true -> SFleb a c = true.
Proof.
  unfold SFleb.
  destruct a as [sa | sa | | sa ma ea], b as [sb | sb | | sb mb eb],
    c as [sc | sc | | sc mc ec]; simpl; try discriminate; auto;
    try (destruct sa; simpl; auto; try discriminate);
    try (destruct sb; simpl; auto; try discriminate);
    try (destruct sc; simpl; auto; try discriminate);
    split_compare; simpl; auto; try discriminate; try lia.
Qed.

Lemma is_nan_Prim2SF (x : float) : PrimFloat.is_nan x = false -> Prim2SF x <> S754_nan.
Proof.
  unfold PrimFloat.is_nan; rewrite FloatAxioms.eqb_spec.
  intros H E; rewrite E in H; discriminate.
Qed.

(** The comparisons of IEEE 754 have the laws the ranking needs. *)
#[global] Instance binary64_key_order : KeyOrder float.
Proof.
  split; simpl; intros a b.
  - rewrite FloatAxioms.ltb_spec, FloatAxioms.leb_spec; apply SFltb_SFleb.
  - rewrite FloatAxioms.ltb_spec, FloatAxioms.leb_spec; apply SFleb_not_SFltb.
  - rewrite FloatAxioms.ltb_spec, FloatAxioms.leb_spec; intros Ha Hb.
    apply SFleb_total; apply is_nan_Prim2SF; assumption.
  - intros c; rewrite !FloatAxioms.leb_spec; apply SFleb_trans.
Qed.

End Binary64Facts.

(** NaN is what binary64 takes it for. *)
#[global] Instance binary64_nan_laws : NaNLaws float.
Proof.
  split; [vm_compute; reflexivity |].
  intros x; cbn [fltb fnan Binary64.ops].
  rewrite FloatAxioms.ltb_spec.
  replace (Prim2SF PrimFloat.nan) with S754_nan by (vm_compute; reflexivity).
  unfold SFltb; destruct (Prim2SF x); reflexivity.
Qed.

(** ** The laws of the arithmetic, in binary64 *)

Module Binary64Laws.

Import Binary64Facts.

(** *** What the tests say of a float *)

Lemma SFcompare_refl (x : spec_float) : x <> S754_nan -> SFcompare x x = Some Eq.
Proof.
  destruct x as [s | s | | s m e]; intros H; try congruence; simpl.
  - reflexivity.
  - destruct s; reflexivity.
  - destruct s; rewrite Z.compare_refl;
      change (PosDef.Pos.compare_cont Eq m m) with (Pos.compare m m);
      rewrite Pos.compare_refl; reflexivity.
Qed.

Lemma is_nan_spec (x : float) : PrimFloat.is_nan x = true <-> Prim2SF x = S754_nan.
Proof.
  unfold PrimFloat.is_nan; rewrite FloatAxioms.eqb_spec; unfold SFeqb.
  split.
  - intros H; destruct (Prim2SF x) as [s | s | | s m e] eqn:E; try reflexivity;
      rewrite SFcompare_refl in H by discriminate; discriminate.
  - intros ->; reflexivity.
Qed.

Lemma is_number_spec (x : float) : PrimFloat.is_nan x = false <-> Prim2SF x <> S754_nan.
Proof.
  rewrite <- is_nan_spec; destruct (PrimFloat.is_nan x); split; congruence.
Qed.

Lemma Prim2SF_zero : Prim2SF PrimFloat.zero = S754_zero false.
Proof. reflexivity. Qed.

Lemma Prim2SF_infinity : Prim2SF PrimFloat.infinity = S754_infinity false.
Proof. reflexivity. Qed.

Lemma Prim2SF_nan : Prim2SF PrimFloat.nan = S754_nan.
Proof. reflexivity. Qed.

(** A zero or NaN. *)
Definition SFnull (x : spec_float) : Prop :=
  match x with
  | S754_zero _ | S754_nan => True
  | _ => False
  end.

Lemma null_spec (x : float) : null x <-> SFnull (Prim2SF x).
Proof.
  unfold null; cbn [fltb of_Z Binary64.ops Binary64.of_Z].
  rewrite !FloatAxioms.ltb_spec, Prim2SF_zero; unfold SFltb.
  destruct (Prim2SF x) as [s | [|] | | [|] m e]; simpl; intuition congruence.
Qed.

Lemma positive_finite_spec (x : float) :
  positive_finite x = true <-> exists m e, Prim2SF x = S754_finite false m e.
Proof.
  unfold positive_finite; cbn [fltb of_Z fpos_inf Binary64.ops Binary64.of_Z].
  rewrite !FloatAxioms.ltb_spec, Prim2SF_zero.
  rewrite Prim2SF_infinity.
  unfold SFltb.
  destruct (Prim2SF x) as [s | [|] | | [|] m e]; simpl; split;
    try discriminate; try (intros (m' & e' & H); discriminate).
  - intros _; eauto.
  - reflexivity.
Qed.

(** *** Zeros and NaN *)

Lemma SFnull_add (a b : spec_float) :
  SFnull a -> SFnull b -> SFnull (SF64add a b).
Proof. destruct a as [[|] | | |], b as [[|] | | |]; simpl; tauto. Qed.

Lemma SFnull_sub (a b : spec_float) :
  SFnull a -> SFnull b -> SFnull (SF64sub a b).
Proof. destruct a as [[|] | | |], b as [[|] | | |]; simpl; tauto. Qed.

Lemma SFnull_mul (a b : spec_float) : SFnull a -> SFnull (SF64mul a b).
Proof. destruct a as [sa | | |], b as [sb | sb | | sb mb eb]; simpl; tauto. Qed.

Lemma SFnull_div (a b : spec_float) : SFnull a -> SFnull (SF64div a b).
Proof. destruct a as [sa | | |], b as [sb | sb | | sb mb eb]; simpl; tauto. Qed.

Lemma SFnull_sqrt (a : spec_float) : SFnull a -> SFnull (SF64sqrt a).
Proof. destruct a as [sa | | |]; simpl; tauto. Qed.

Lemma null_add (a b : float) : null a -> null b -> null (a + b)%float.
Proof. rewrite !null_spec, FloatAxioms.add_spec; apply SFnull_add. Qed.

Lemma null_sub (a b : float) : null a -> null b -> null (a - b)%float.
Proof. rewrite !null_spec, FloatAxioms.sub_spec; apply SFnull_sub. Qed.

Lemma null_mul (a b : float) : null a -> null (a * b)%float.
Proof. rewrite !null_spec, FloatAxioms.mul_spec; apply SFnull_mul. Qed.

Lemma null_div (a b : float) : null a -> null (a / b)%float.
Proof. rewrite !null_spec, FloatAxioms.div_spec; apply SFnull_div. Qed.

Lemma null_sqrt (a : float) : null a -> null (PrimFloat.sqrt a).
Proof. rewrite !null_spec, FloatAxioms.sqrt_spec; apply SFnull_sqrt. Qed.

(** *** NaN *)

Lemma ltb_nan_l (x : float) : (PrimFloat.nan <? x)%float = false.
Proof. rewrite FloatAxioms.ltb_spec, Prim2SF_nan; reflexivity. Qed.

Lemma ltb_numbers (a b : float) :
  (a <? b)%float = true ->
  PrimFloat.is_nan a = false /\ PrimFloat.is_nan b = false.
Proof.
  rewrite FloatAxioms.ltb_spec, !is_number_spec; unfold SFltb.
  destruct (Prim2SF a), (Prim2SF b); simpl; intros H; split; congruence.
Qed.

Lemma sub_nan_l (a b : float) :
  PrimFloat.is_nan a = true -> PrimFloat.is_nan (a - b)%float = true.
Proof.
  rewrite !is_nan_spec, FloatAxioms.sub_spec; intros ->; reflexivity.
Qed.

(** *** A number and itself *)

Lemma SFsub_same (x : spec_float) : SFnull (SF64sub x x).
Proof.
  destruct x as [[|] | [|] | | s m e]; simpl; auto.
  rewrite Z.sub_diag; exact I.
Qed.

Lemma sub_same (x : float) : null (x - x)%float.
Proof. rewrite null_spec, FloatAxioms.sub_spec; apply SFsub_same. Qed.

Lemma sub_self (x : float) : positive_finite x = true -> (x - x)%float = PrimFloat.zero.
Proof.
  rewrite positive_finite_spec; intros (m & e & Hx).
  apply Prim2SF_inj; rewrite FloatAxioms.sub_spec, Hx, Prim2SF_zero.
  unfold SF64sub, SFsub; rewrite Z.sub_diag; reflexivity.
Qed.

Lemma div_zero_l (x : float) :
  positive_finite x = true -> (PrimFloat.zero / x)%float = PrimFloat.zero.
Proof.
  rewrite positive_finite_spec; intros (m & e & Hx).
  apply Prim2SF_inj; rewrite FloatAxioms.div_spec, Hx, Prim2SF_zero; reflexivity.
Qed.

(** *** Quotients and products that are exact *)

Lemma div_eucl_eq (a b : Z) : Z.div_eucl a b = (a / b, a mod b)%Z.
Proof. unfold Z.div, Z.modulo; destruct (Z.div_eucl a b); reflexivity. Qed.

Lemma SFdiv_core_same (m : positive) (e : Z) :
  SFdiv_core_binary prec emax (Zpos m) e (Zpos m) e
  = (9007199254740992, -53, loc_Exact)%Z.
Proof.
  unfold SFdiv_core_binary.
  rewrite !Z.sub_diag.
  change (Z.min (fexp prec emax 0) 0) with (-53)%Z.
  change (0 - -53)%Z with 53%Z.
  cbv iota beta.
  rewrite Z.shiftl_mul_pow2 by lia.
  rewrite div_eucl_eq.
  rewrite Z.mul_comm, Z.div_mul, Z.mod_mul by lia.
  unfold new_location.
  destruct (Z.even (Z.pos m)); reflexivity.
Qed.

Lemma SFdiv_same (s : bool) (m : positive) (e : Z) :
  SF64div (S754_finite s m e) (S754_finite s m e)
  = S754_finite false 4503599627370496 (-52).
Proof.
  unfold SF64div, SFdiv; rewrite SFdiv_core_same.
  destruct s; reflexivity.
Qed.

Lemma div_same (x : float) :
  (x / x)%float = PrimFloat.one \/ PrimFloat.is_nan (x / x)%float = true.
Proof.
  rewrite is_nan_spec, FloatAxioms.div_spec.
  destruct (Prim2SF x) as [s | s | | s m e] eqn:E; try (right; reflexivity).
  left; apply Prim2SF_inj.
  rewrite FloatAxioms.div_spec, E; apply SFdiv_same.
Qed.

Lemma div_self (x : float) : positive_finite x = true -> (x / x)%float = PrimFloat.one.
Proof.
  rewrite positive_finite_spec; intros (m & e & Hx).
  apply Prim2SF_inj; rewrite FloatAxioms.div_spec, Hx; apply SFdiv_same.
Qed.

Lemma digits2_pos_shift (m : positive) :
  Z.pos (digits2_pos (Pos.mul 4503599627370496 m)) = (Z.pos (digits2_pos m) + 52)%Z.
Proof. cbn [Pos.mul PosDef.Pos.mul digits2_pos]; lia. Qed.

Lemma shift_back (m : positive) :
  iter_pos shr_1 52
    {| shr_m := Z.pos (4503599627370496 * m); shr_r := false; shr_s := false |}
  = {| shr_m := Z.pos m; shr_r := false; shr_s := false |}.
Proof. reflexivity. Qed.

Lemma round_one_mul (s : bool) (m : positive) (e : Z) :
  bounded prec emax m e = true ->
  binary_round_aux prec emax s (Z.pos (Pos.mul 4503599627370496 m)) (-52 + e) loc_Exact
  = S754_finite s m e.
Proof.
  unfold bounded, canonical_mantissa; intros H.
  apply andb_prop in H as [Hc He].
  apply Z.eqb_eq in Hc.
  unfold binary_round_aux, shr_fexp.
  cbn [Zdigits2].
  rewrite digits2_pos_shift.
  replace (Z.pos (digits2_pos m) + 52 + (-52 + e))%Z with (Z.pos (digits2_pos m) + e)%Z by lia.
  rewrite Hc.
  replace (e - (-52 + e))%Z with 52%Z by lia.
  cbn [shr shr_record_of_loc].
  rewrite shift_back.
  cbn [shr_m loc_of_shr_record round_nearest_even Zdigits2].
  replace (-52 + e + 52)%Z with e by lia.
  rewrite Hc, Z.sub_diag.
  cbn [shr shr_m].
  rewrite He; reflexivity.
Qed.

Lemma mul_one_l (x : float) : (PrimFloat.one * x)%float = x.
Proof.
  apply Prim2SF_inj; rewrite FloatAxioms.mul_spec.
  change (Prim2SF PrimFloat.one) with (S754_finite false 4503599627370496 (-52)).
  pose proof (FloatAxioms.Prim2SF_valid x) as Hv.
  destruct (Prim2SF x) as [s | s | | s m e]; try reflexivity.
  unfold SF64mul, SFmul; cbn [xorb].
  apply round_one_mul; exact Hv.
Qed.

(** *** Sums *)

Lemma SFadd_comm (x y : spec_float) : SF64add x y = SF64add y x.
Proof.
  destruct x as [[|] | [|] | | sx mx ex], y as [[|] | [|] | | sy my ey];
    try reflexivity.
  unfold SF64add, SFadd.
  rewrite (Z.min_comm ey ex), Z.add_comm; reflexivity.
Qed.

Lemma SFadd_first_two (a b : spec_float) :
  SF64add (SF64add (S754_zero false) a) b = SF64add (SF64add (S754_zero false) b) a.
Proof.
  destruct a as [[|] | [|] | | sa ma ea], b as [[|] | [|] | | sb mb eb];
    try reflexivity.
  apply SFadd_comm.
Qed.

Lemma add_first_two (a b : float) :
  (PrimFloat.zero + a + b)%float = (PrimFloat.zero + b + a)%float.
Proof.
  apply Prim2SF_inj; rewrite !FloatAxioms.add_spec, Prim2SF_zero.
  apply SFadd_first_two.
Qed.

(** *** Rounding never makes NaN *)

Lemma shr_1_nonneg (mrs : shr_record) :
  (0 <= shr_m mrs)%Z -> (0 <= shr_m (shr_1 mrs))%Z.
Proof.
  destruct mrs as [[| [p | p |] | p] r s]; cbn [shr_1 shr_m]; lia.
Qed.

Lemma iter_shr_1_nonneg (p : positive) :
  forall mrs, (0 <= shr_m mrs)%Z -> (0 <= shr_m (iter_pos shr_1 p mrs))%Z.
Proof.
  induction p as [p IH | p IH |]; intros mrs H; cbn [iter_pos].
  - apply IH, IH, shr_1_nonneg, H.
  - apply IH, IH, H.
  - apply shr_1_nonneg, H.
Qed.

Lemma shr_nonneg (mrs : shr_record) (e n : Z) :
  (0 <= shr_m mrs)%Z -> (0 <= shr_m (fst (shr mrs e n)))%Z.
Proof.
  intros H; destruct n; cbn [shr fst]; try exact H.
  apply iter_shr_1_nonneg, H.
Qed.

Lemma shr_record_of_loc_m (m : Z) (l : location) : shr_m (shr_record_of_loc m l) = m.
Proof. destruct l as [| []]; reflexivity. Qed.

Lemma round_nearest_even_nonneg (m : Z) (l : location) :
  (0 <= m)%Z -> (0 <= round_nearest_even m l)%Z.
Proof.
  intros H; destruct l as [| []]; cbn [round_nearest_even]; try lia.
  destruct (Z.even m); lia.
Qed.

Lemma binary_round_aux_number (s : bool) (m e : Z) (l : location) :
  (0 <= m)%Z -> binary_round_aux prec emax s m e l <> S754_nan.
Proof.
  intros Hm; unfold binary_round_aux, shr_fexp.
  pose proof (shr_nonneg (shr_record_of_loc m l) e
                (fexp prec emax (Zdigits2 m + e) - e)) as H1.
  rewrite shr_record_of_loc_m in H1; specialize (H1 Hm).
  destruct (shr (shr_record_of_loc m l) e _) as [mrs' e'].
  cbn [fst] in H1.
  pose proof (round_nearest_even_nonneg _ (loc_of_shr_record mrs') H1) as H2.
  set (m2 := round_nearest_even (shr_m mrs') (loc_of_shr_record mrs')) in *.
  pose proof (shr_nonneg (shr_record_of_loc m2 loc_Exact) e'
                (fexp prec emax (Zdigits2 m2 + e') - e')) as H3.
  rewrite shr_record_of_loc_m in H3; specialize (H3 H2).
  destruct (shr (shr_record_of_loc m2 loc_Exact) e' _) as [mrs'' e''].
  cbn [fst] in H3.
  destruct (shr_m mrs'') as [| p | p]; try discriminate; [| lia].
  destruct (e'' <=? emax - prec)%Z; discriminate.
Qed.

Lemma binary_normalize_number (m e : Z) (szero : bool) :
  binary_normalize prec emax m e szero <> S754_nan.
Proof.
  destruct m as [| p | p]; cbn [binary_normalize]; try discriminate;
    unfold binary_round;
    destruct (shl_align p e _) as [mz ez];
    apply binary_round_aux_number; lia.
Qed.

Lemma SFsub_number (sx sy : bool) (mx my : positive) (ex ey : Z) :
  SF64sub (S754_finite sx mx ex) (S754_finite sy my ey) <> S754_nan.
Proof. apply binary_normalize_number. Qed.

Lemma SFdiv_number (a : spec_float) (m : positive) (e : Z) :
  a <> S754_nan -> SF64div a (S754_finite false m e) <> S754_nan.
Proof.
  destruct a as [sa | sa | | sa ma ea]; intros Ha; try discriminate; [congruence |].
  unfold SF64div, SFdiv, SFdiv_core_binary.
  set (s := (ea - e - _)%Z).
  set (m' := match s with Z.pos _ => _ | _ => _ end).
  assert (Hm' : (0 <= m')%Z).
  { subst m'; destruct s; try lia.
    rewrite Z.shiftl_mul_pow2 by lia.
    apply Z.mul_nonneg_nonneg; [lia | apply Z.pow_nonneg; lia]. }
  rewrite div_eucl_eq.
  apply binary_round_aux_number.
  apply Z.div_pos; lia.
Qed.

Lemma SFmul_number (a : spec_float) (s : bool) (m : positive) (e : Z) :
  a <> S754_nan -> SF64mul a (S754_finite s m e) <> S754_nan.
Proof.
  destruct a as [sa | sa | | sa ma ea]; intros Ha; try discriminate; [congruence |].
  apply binary_round_aux_number; lia.
Qed.

Lemma drawdown_is_number (v p : float) :
  positive_finite v = true -> positive_finite p = true ->
  PrimFloat.is_nan ((v - p) / p * PrimFloat.of_uint63 100)%float = false.
Proof.
  rewrite !positive_finite_spec; intros (mv & ev & Hv) (mp & ep & Hp).
  rewrite is_number_spec, FloatAxioms.mul_spec, FloatAxioms.div_spec,
    FloatAxioms.sub_spec, Hv, Hp.
  change (Prim2SF (of_uint63 100)) with (S754_finite false 7036874417766400 (-46)).
  apply SFmul_number, SFdiv_number, SFsub_number.
Qed.

(** *** The laws *)

#[global] Instance binary64_laws : Float64Laws float.
Proof.
  split.
  - exact binary64_key_order.
  - exact binary64_nan_laws.
  - exact ltb_nan_l.
  - exact ltb_numbers.
  - reflexivity.
  - exact null_add.
  - exact null_sub.
  - exact null_mul.
  - exact null_div.
  - exact null_sqrt.
  - exact sub_same.
  - exact div_same.
  - exact sub_self.
  - exact div_self.
  - exact mul_one_l.
  - exact div_zero_l.
  - reflexivity.
  - exact sub_nan_l.
  - exact drawdown_is_number.
  - exact add_first_two.
Qed.

End Binary64Laws.

(** ** Rounding to nearest in binary64 *)

Module RoundingSteps.

Import Binary64Laws Rounding.

Local Open Scope Z_scope.

(** *** The digits of a mantissa *)

Lemma digits2_pos_spec (m : positive) :
  2 ^ (Z.pos (digits2_pos m) - 1) <= Z.pos m < 2 ^ Z.pos (digits2_pos m).
Proof.
  induction m as [p IH | p IH |]; cbn [digits2_pos].
  - rewrite Pos2Z.inj_succ.
    replace (Z.succ (Z.pos (digits2_pos p)) - 1) with (Z.succ (Z.pos (digits2_pos p) - 1))
      by lia.
    rewrite !Z.pow_succ_r by lia; lia.
  - rewrite Pos2Z.inj_succ.
    replace (Z.succ (Z.pos (digits2_pos p)) - 1) with (Z.succ (Z.pos (digits2_pos p) - 1))
      by lia.
    rewrite !Z.pow_succ_r by lia; lia.
  - simpl; lia.
Qed.

Lemma Zdigits2_nonneg (m : Z) : 0 <= m -> 0 <= Zdigits2 m.
Proof. destruct m; simpl; lia. Qed.

Lemma Zdigits2_spec (m : Z) :
  0 < m -> 2 ^ (Zdigits2 m - 1) <= m < 2 ^ Zdigits2 m.
Proof. destruct m as [| p | p]; try lia; intros _; apply digits2_pos_spec. Qed.

(** A mantissa below [2^n] has at most [n] digits. *)
Lemma Zdigits2_le (m n : Z) : 0 <= m -> 0 <= n -> m < 2 ^ n -> Zdigits2 m <= n.
Proof.
  intros Hm Hn Hlt.
  destruct (Z.eq_dec m 0) as [-> | Hne]; [simpl; lia |].
  pose proof (Zdigits2_spec m ltac:(lia)) as [Hlo _].
  destruct (Z_le_gt_dec (Zdigits2 m) n) as [H | H]; [exact H |].
  assert (2 ^ n <= 2 ^ (Zdigits2 m - 1)) by (apply Z.pow_le_mono_r; lia).
  lia.
Qed.

(** A mantissa of at least [2^(n-1)] has at least [n] digits. *)
Lemma Zdigits2_ge (m n : Z) : 0 < n -> 2 ^ (n - 1) <= m -> n <= Zdigits2 m.
Proof.
  intros Hn Hge.
  assert (Hm : 0 < m) by (pose proof (Z.pow_pos_nonneg 2 (n - 1)); lia).
  pose proof (Zdigits2_spec m Hm) as [_ Hhi].
  pose proof (Zdigits2_nonneg m ltac:(lia)).
  destruct (Z_le_gt_dec n (Zdigits2 m)) as [H' | H']; [exact H' |].
  assert (2 ^ Zdigits2 m <= 2 ^ (n - 1)) by (apply Z.pow_le_mono_r; lia).
  lia.
Qed.

(** *** Shifting to the right *)

Lemma shr_1_div2 (mrs : shr_record) :
  0 <= shr_m mrs ->
  shr_m (shr_1 mrs) = shr_m mrs / 2 /\
  shr_r (shr_1 mrs) = Z.odd (shr_m mrs) /\
  shr_s (shr_1 mrs) = shr_r mrs || shr_s mrs.
Proof.
  destruct mrs as [[| [p | p |] | p] r s]; cbn [shr_1 shr_m shr_r shr_s];
    intros H; try lia; repeat split.
  - rewrite Pos2Z.inj_xI; apply (Z.div_unique _ 2 _ 1); lia.
  - rewrite Pos2Z.inj_xO; apply (Z.div_unique _ 2 _ 0); lia.
Qed.

Lemma holds_shr_1 (mrs : shr_record) (n d : Z) :
  holds mrs n d -> holds (shr_1 mrs) n (2 * d).
Proof.
  intros (Hd & Hn & Hm & Hloc).
  assert (Hm0 : 0 <= shr_m mrs) by (rewrite Hm; apply Z.div_pos; lia).
  destruct (shr_1_div2 mrs Hm0) as (Hm' & Hr' & Hs').
  pose proof (Z.mod_pos_bound n d Hd) as Hrem.
  pose proof (Z.div_mod n d ltac:(lia)) as Hdm.
  set (q := n / d) in *; set (r := n mod d) in *.
  pose proof (Z.div_mod q 2 ltac:(lia)) as Hq.
  pose proof (Z.mod_pos_bound q 2 ltac:(lia)) as Hq2.
  assert (Hdiv : n / (2 * d) = q / 2).
  { symmetry; apply (Z.div_unique n (2 * d) (q / 2) (d * (q mod 2) + r)); nia. }
  assert (Hmod : n mod (2 * d) = d * (q mod 2) + r).
  { symmetry; apply (Z.mod_unique n (2 * d) (q / 2) (d * (q mod 2) + r)); nia. }
  repeat split; try lia.
  - rewrite Hm', Hm, Hdiv; reflexivity.
  - rewrite Hmod.
    assert (Hexact : (shr_r mrs || shr_s mrs = false) <-> r = 0).
    { unfold loc_rem in Hloc.
      destruct mrs as [m [|] [|]]; cbn [loc_of_shr_record shr_r shr_s orb] in *;
        destruct (Z.eqb_spec r 0); split; try congruence; try discriminate. }
    destruct (shr_1 mrs) as [m1 r1 s1]; cbn [shr_m shr_r shr_s loc_of_shr_record] in *.
    subst r1 s1; rewrite Hm.
    rewrite Zodd_mod.
    unfold loc_rem.
    destruct (Z.eqb_spec (q mod 2) 1) as [Hodd | Heven].
    + rewrite Hodd.
      destruct (Z.eqb_spec (d * 1 + r) 0); [lia |].
      destruct (shr_r mrs || shr_s mrs) eqn:E.
      * assert (r <> 0) by (intros H0; apply Hexact in H0; congruence).
        f_equal; symmetry; apply Z.compare_gt_iff; lia.
      * assert (r = 0) by (apply Hexact; reflexivity).
        f_equal; symmetry; apply Z.compare_eq_iff; lia.
    + assert (Hz : q mod 2 = 0) by lia.
      rewrite Hz, Z.mul_0_r, Z.add_0_l.
      destruct (shr_r mrs || shr_s mrs) eqn:E.
      * assert (r <> 0) by (intros H0; apply Hexact in H0; congruence).
        destruct (Z.eqb_spec r 0); [contradiction |].
        f_equal; symmetry; apply Z.compare_lt_iff; lia.
      * assert (r = 0) by (apply Hexact; reflexivity).
        destruct (Z.eqb_spec r 0); [reflexivity | contradiction].
Qed.

Lemma pow2_xI (p : positive) : 2 ^ Z.pos p~1 = 2 * (2 ^ Z.pos p * 2 ^ Z.pos p).
Proof.
  replace (Z.pos p~1) with (Z.pos p + Z.pos p + 1) by lia.
  rewrite !Z.pow_add_r by lia; change (2 ^ 1) with 2; ring.
Qed.

Lemma pow2_xO (p : positive) : 2 ^ Z.pos p~0 = 2 ^ Z.pos p * 2 ^ Z.pos p.
Proof.
  replace (Z.pos p~0) with (Z.pos p + Z.pos p) by lia.
  rewrite Z.pow_add_r by lia; reflexivity.
Qed.

Lemma holds_iter_shr_1 (p : positive) :
  forall (mrs : shr_record) (n d : Z),
    holds mrs n d -> holds (iter_pos shr_1 p mrs) n (d * 2 ^ Z.pos p).
Proof.
  induction p as [p IH | p IH |]; intros mrs n d H; cbn [iter_pos].
  - apply holds_shr_1 in H; apply IH, IH in H.
    replace (d * 2 ^ Z.pos p~1) with (2 * d * 2 ^ Z.pos p * 2 ^ Z.pos p);
      [exact H | rewrite pow2_xI; ring].
  - apply IH, IH in H.
    replace (d * 2 ^ Z.pos p~0) with (d * 2 ^ Z.pos p * 2 ^ Z.pos p);
      [exact H | rewrite pow2_xO; ring].
  - apply holds_shr_1 in H.
    replace (d * 2 ^ 1) with (2 * d) by (change (2 ^ 1) with 2; ring).
    exact H.
Qed.

(** *** Rounding, and the digit it may add *)

Lemma fexp_eq (e : Z) : fexp prec emax e = Z.max (e - 53) (-1074).
Proof. reflexivity. Qed.

Lemma holds_of_loc (m : Z) (l : location) (n d : Z) :
  holds (shr_record_of_loc m l) n d -> m = n / d /\ l = loc_rem (n mod d) d.
Proof.
  intros (_ & _ & Hm & Hl); split.
  - rewrite <- Hm; destruct l as [| []]; reflexivity.
  - rewrite <- Hl; destruct l as [| []]; reflexivity.
Qed.

Lemma round_nearest_even_spec (mrs : shr_record) (n d : Z) :
  holds mrs n d ->
  let mr := round_nearest_even (shr_m mrs) (loc_of_shr_record mrs) in
  n / d <= mr <= n / d + 1 /\ 2 * Z.abs (mr * d - n) <= d.
Proof.
  intros (Hd & Hn & Hm & Hloc); cbn zeta.
  rewrite Hm, Hloc.
  pose proof (Z.mod_pos_bound n d Hd) as Hrem.
  pose proof (Z.div_mod n d ltac:(lia)) as Hdm.
  set (q := n / d) in *; set (r := n mod d) in *.
  unfold loc_rem.
  destruct (Z.eqb_spec r 0) as [Hr | Hr]; cbn [round_nearest_even].
  - split; [lia |]. replace (q * d - n) with 0 by nia. simpl; lia.
  - destruct (Z.compare_spec (2 * r) d) as [He | Hl | Hg].
    + destruct (Z.even q); (split; [lia |]).
      * replace (q * d - n) with (- r) by nia. rewrite Z.abs_opp, Z.abs_eq; lia.
      * replace ((q + 1) * d - n) with (d - r) by nia. rewrite Z.abs_eq; lia.
    + split; [lia |].
      replace (q * d - n) with (- r) by nia. rewrite Z.abs_opp, Z.abs_eq; lia.
    + split; [lia |].
      replace ((q + 1) * d - n) with (d - r) by nia. rewrite Z.abs_eq; lia.
Qed.

Lemma second_shift (s : bool) (mr e1 : Z) :
  0 <= mr <= 9007199254740992 -> -1074 <= e1 ->
  (let '(mrs'', e'') := shr_fexp prec emax mr e1 loc_Exact in
   match shr_m mrs'' with
   | 0 => S754_zero s
   | Z.pos m =>
       if e'' <=? emax - prec then S754_finite s m e'' else S754_infinity s
   | Z.neg _ => S754_nan
   end)
  = finish s mr e1.
Proof.
  intros Hmr He1; unfold shr_fexp, finish.
  destruct (Z.eqb_spec mr 9007199254740992) as [-> | Hne].
  - change (Zdigits2 9007199254740992) with 54.
    rewrite fexp_eq.
    replace (Z.max (54 + e1 - 53) (-1074) - e1) with 1 by lia.
    reflexivity.
  - assert (Hdig : Zdigits2 mr <= 53) by (apply Zdigits2_le; lia).
    pose proof (Zdigits2_nonneg mr ltac:(lia)) as Hdig0.
    rewrite fexp_eq.
    assert (Hk : Z.max (Zdigits2 mr + e1 - 53) (-1074) - e1 <= 0) by lia.
    destruct (Z.max (Zdigits2 mr + e1 - 53) (-1074) - e1) as [| p | p] eqn:E;
      try lia; cbn [shr shr_record_of_loc shr_m];
      destruct mr as [| p' | p']; try lia; reflexivity.
Qed.

Lemma binary_round_aux_spec (s : bool) (mx ex : Z) (lx : location) (n d : Z) :
  holds (shr_record_of_loc mx lx) n d ->
  let e1 := Z.max (fexp prec emax (Zdigits2 mx + ex)) ex in
  exists mr,
    0 <= mr <= 9007199254740992 /\
    2 * Z.abs (mr * (d * 2 ^ (e1 - ex)) - n) <= d * 2 ^ (e1 - ex) /\
    (ex <= fexp prec emax (Zdigits2 mx + ex) -> -1074 < e1 ->
     4503599627370496 * (d * 2 ^ (e1 - ex)) <= n) /\
    binary_round_aux prec emax s mx ex lx = finish s mr e1.
Proof.
  intros H; cbn zeta.
  pose proof (holds_of_loc _ _ _ _ H) as [Hmx _].
  pose proof H as (Hd & Hn & _ & _).
  assert (Hmx0 : 0 <= mx) by (rewrite Hmx; apply Z.div_pos; lia).
  pose proof (Zdigits2_nonneg mx Hmx0) as Hdg0.
  set (dg := Zdigits2 mx) in *.
  assert (Hmxlt : mx < 2 ^ dg).
  { destruct (Z.eq_dec mx 0) as [-> | Hne]; [apply Z.pow_pos_nonneg; lia |].
    apply (Zdigits2_spec mx); lia. }
  unfold binary_round_aux, shr_fexp; fold dg.
  rewrite fexp_eq.
  set (k := Z.max (dg + ex - 53) (-1074) - ex).
  assert (He1 : Z.max (Z.max (dg + ex - 53) (-1074)) ex - ex = Z.max k 0) by lia.
  rewrite He1.
  assert (Hshift :
    exists mrs', shr (shr_record_of_loc mx lx) ex k = (mrs', ex + Z.max k 0) /\
                 holds mrs' n (d * 2 ^ Z.max k 0)).
  { destruct k as [| p | p] eqn:Ek; cbn [shr].
    - eexists; split; [rewrite Z.add_0_r; reflexivity |].
      replace (d * 2 ^ Z.max 0 0) with d by (simpl; lia); exact H.
    - eexists; split; [replace (Z.max (Z.pos p) 0) with (Z.pos p) by lia; reflexivity |].
      replace (Z.max (Z.pos p) 0) with (Z.pos p) by lia.
      apply holds_iter_shr_1; exact H.
    - eexists; split;
        [replace (Z.max (Z.neg p) 0) with 0 by lia; rewrite Z.add_0_r; reflexivity |].
      replace (Z.max (Z.neg p) 0) with 0 by lia.
      replace (d * 2 ^ 0) with d by (simpl; lia); exact H. }
  destruct Hshift as (mrs' & -> & Hholds).
  set (kk := Z.max k 0) in *.
  assert (Hkk : 0 <= kk) by lia.
  pose proof (Z.pow_pos_nonneg 2 kk ltac:(lia) Hkk) as Hpow.
  pose proof (round_nearest_even_spec mrs' n (d * 2 ^ kk) Hholds) as [Hmr Herr].
  cbn zeta in Hmr, Herr.
  set (mr := round_nearest_even (shr_m mrs') (loc_of_shr_record mrs')) in *.
  assert (Hq : n / (d * 2 ^ kk) = mx / 2 ^ kk).
  { rewrite Hmx, Z.div_div by lia; reflexivity. }
  rewrite Hq in Hmr.
  assert (Hqlt : mx / 2 ^ kk < 9007199254740992).
  { apply Z.div_lt_upper_bound; [lia |].
    change 9007199254740992 with (2 ^ 53).
    rewrite <- Z.pow_add_r by lia.
    assert (2 ^ dg <= 2 ^ (kk + 53)) by (apply Z.pow_le_mono_r; lia).
    lia. }
  assert (Hq0 : 0 <= mx / 2 ^ kk) by (apply Z.div_pos; lia).
  exists mr; split; [lia |].
  split; [exact Herr |].
  split.
  - intros Hk He.
    assert (Hkeq : kk = dg - 53) by lia.
    assert (Hdg : 53 <= dg) by lia.
    assert (Hmx' : 2 ^ (dg - 1) <= mx).
    { destruct (Z.eq_dec mx 0) as [E0 | Hne];
        [unfold dg in Hdg; rewrite E0 in Hdg; simpl in Hdg; lia |].
      apply (Zdigits2_spec mx); lia. }
    assert (Hlow : 4503599627370496 <= mx / 2 ^ kk).
    { apply Z.div_le_lower_bound; [lia |].
      change 4503599627370496 with (2 ^ 52).
      rewrite <- Z.pow_add_r by lia.
      replace (kk + 52) with (dg - 1) by lia; exact Hmx'. }
    rewrite <- Hq in Hlow.
    pose proof (Z.mul_div_le n (d * 2 ^ kk) ltac:(nia)) as Hfloor.
    nia.
  - replace (ex + kk) with (Z.max (Z.max (dg + ex - 53) (-1074)) ex) by lia.
    apply second_shift; lia.
Qed.

End RoundingSteps.

(** ** The error of one rounding *)

Module RoundingError.

Import Binary64Laws Rounding RoundingSteps.

Local Open Scope R_scope.

Lemma bpow_pos (e : Z) : 0 < bpow e.
Proof. apply powerRZ_lt; lra. Qed.

Lemma bpow_add (a b : Z) : bpow (a + b) = bpow a * bpow b.
Proof. apply powerRZ_add; lra. Qed.

Lemma bpow_IZR (k : Z) : (0 <= k)%Z -> IZR (2 ^ k) = bpow k.
Proof.
  intros Hk; unfold bpow.
  destruct k as [| p | p]; [reflexivity | | lia].
  cbn [powerRZ].
  rewrite <- (positive_nat_Z p) at 1.
  rewrite <- pow_IZR; reflexivity.
Qed.

Lemma bpow_le (a b : Z) : (a <= b)%Z -> bpow a <= bpow b.
Proof.
  intros H.
  replace b with (a + (b - a))%Z by lia.
  rewrite bpow_add, <- (bpow_IZR (b - a)) by lia.
  assert (1 <= IZR (2 ^ (b - a))).
  { apply IZR_le.
    pose proof (Z.pow_pos_nonneg 2 (b - a) ltac:(lia) ltac:(lia)); lia. }
  pose proof (bpow_pos a); nra.
Qed.

Lemma bpow_succ (e : Z) : bpow (e + 1) = 2 * bpow e.
Proof. rewrite bpow_add; unfold bpow at 2; simpl; lra. Qed.

Lemma round_real (s : bool) (mx ex : Z) (lx : location) (n d : Z) :
  holds (shr_record_of_loc mx lx) n d ->
  let e1 := Z.max (fexp prec emax (Zdigits2 mx + ex)) ex in
  let X := IZR n / IZR d * bpow ex in
  exists mr : Z,
    (0 <= mr <= 9007199254740992)%Z /\
    binary_round_aux prec emax s mx ex lx = finish s mr e1 /\
    Rabs (IZR mr * bpow e1 - X) <= bpow e1 / 2 /\
    ((ex <= fexp prec emax (Zdigits2 mx + ex))%Z -> (-1074 < e1)%Z ->
     4503599627370496 * bpow e1 <= X).
Proof.
  intros H e1 X.
  destruct (binary_round_aux_spec s mx ex lx n d H)
    as (mr & Hmr & Herr & Hnorm & Hres).
  fold e1 in Herr, Hnorm, Hres.
  destruct H as (Hd & Hn & _).
  exists mr; split; [exact Hmr |]; split; [exact Hres |].
  assert (Hk : (0 <= e1 - ex)%Z) by (unfold e1; lia).
  assert (HdR : 0 < IZR d) by (apply IZR_lt; exact Hd).
  pose proof (bpow_pos ex) as HB.
  assert (He1 : bpow e1 = bpow ex * IZR (2 ^ (e1 - ex))).
  { rewrite (bpow_IZR (e1 - ex)), <- bpow_add by lia. f_equal; lia. }
  set (P := (2 ^ (e1 - ex))%Z) in *.
  assert (HP : 0 < IZR P).
  { apply IZR_lt; unfold P; apply Z.pow_pos_nonneg; lia. }
  split.
  - apply IZR_le in Herr.
    rewrite !mult_IZR, abs_IZR, minus_IZR, !mult_IZR in Herr.
    rewrite He1.
    replace (IZR mr * (bpow ex * IZR P) - X)
      with (bpow ex / IZR d * (IZR mr * (IZR d * IZR P) - IZR n))
      by (unfold X; field; lra).
    rewrite Rabs_mult, Rabs_pos_eq
      by (apply Rlt_le, Rdiv_lt_0_compat; lra).
    replace (bpow ex * IZR P / 2)
      with (bpow ex / IZR d * (IZR d * IZR P / 2)) by (field; lra).
    apply Rmult_le_compat_l; [apply Rlt_le, Rdiv_lt_0_compat; lra | lra].
  - intros Hshift Hlow.
    specialize (Hnorm Hshift Hlow).
    apply IZR_le in Hnorm.
    rewrite !mult_IZR in Hnorm.
    rewrite He1; unfold X.
    apply Rmult_le_reg_r with (IZR d); [exact HdR |].
    replace (IZR n / IZR d * bpow ex * IZR d) with (IZR n * bpow ex)
      by (field; lra).
    nra.
Qed.

(** What [finish] stands for. *)
Lemma finish_value (s : bool) (mr e1 : Z) :
  (0 <= mr <= 9007199254740992)%Z ->
  finish s mr e1 = S754_infinity s \/
  ((finish s mr e1 = S754_zero s \/
    exists m e, finish s mr e1 = S754_finite s m e) /\
   SF2R (finish s mr e1) = (if s then -1 else 1) * (IZR mr * bpow e1)).
Proof.
  intros Hmr; unfold finish.
  destruct mr as [| p | p]; [right; split; [left; reflexivity | simpl; lra] | | lia].
  destruct (Z.eqb_spec (Z.pos p) 9007199254740992) as [E | E].
  - destruct (e1 + 1 <=? 971)%Z; [right | left; reflexivity].
    split; [right; eauto |].
    cbn [SF2R]; rewrite E, bpow_succ.
    change (IZR 9007199254740992) with (2 * IZR 4503599627370496).
    ring.
  - destruct (e1 <=? 971)%Z; [right | left; reflexivity].
    split; [right; eauto | reflexivity].
Qed.

Lemma finish_finite (s : bool) (mr e1 : Z) :
  (0 <= mr <= 9007199254740992)%Z -> (e1 <= 970)%Z ->
  finish s mr e1 <> S754_infinity s.
Proof.
  intros Hmr He; unfold finish.
  destruct mr as [| p | p]; [discriminate | | discriminate].
  destruct (Z.pos p =? 9007199254740992)%Z.
  - destruct (Z.leb_spec (e1 + 1) 971); [discriminate | lia].
  - destruct (Z.leb_spec e1 971); [discriminate | lia].
Qed.

Lemma eta_pos : 0 < eta.
Proof. apply bpow_pos. Qed.

Lemma bpow_lt_inv (a b : Z) : bpow a < bpow b -> (a < b)%Z.
Proof.
  intros H.
  destruct (Z.lt_ge_cases a b) as [Hlt | Hge]; [exact Hlt |].
  apply bpow_le in Hge; lra.
Qed.

Lemma IZR_near (a b : Z) : Rabs (IZR a - IZR b) <= / 2 -> a = b.
Proof.
  intros H.
  assert (a - b = 0)%Z; [| lia].
  apply one_IZR_lt1.
  rewrite minus_IZR.
  assert (Hlt : Rabs (IZR a - IZR b) < 1) by lra.
  apply Rabs_def2 in Hlt; lra.
Qed.

Lemma IZR_floor (n d : Z) : (0 < d)%Z -> (0 <= n)%Z -> IZR (n / d) <= IZR n / IZR d.
Proof.
  intros Hd Hn.
  assert (HdR : 0 < IZR d) by (apply IZR_lt; exact Hd).
  apply Rmult_le_reg_r with (IZR d); [exact HdR |].
  replace (IZR n / IZR d * IZR d) with (IZR n) by (field; lra).
  rewrite <- mult_IZR; apply IZR_le.
  pose proof (Z.mul_div_le n d Hd); lia.
Qed.

Lemma round_outcome (s : bool) (mx ex : Z) (lx : location) (n d : Z) :
  holds (shr_record_of_loc mx lx) n d ->
  (ex <= fexp prec emax (Zdigits2 mx + ex))%Z \/ d = 1%Z ->
  let X := IZR n / IZR d * bpow ex in
  let r := binary_round_aux prec emax s mx ex lx in
  exists y : R,
    0 <= y /\ rounded r s y /\ near y X /\
    (d = 1%Z -> (-1074 <= ex)%Z -> close y X) /\
    ((0 < mx)%Z \/ (ex <= 1023)%Z -> X < bpow 1023 ->
     ((fexp prec emax (Zdigits2 mx + ex) < ex)%Z -> (ex <= 971)%Z) ->
     r <> S754_infinity s).
Proof.
  intros H Hcase X r.
  destruct (round_real s mx ex lx n d H) as (mr & Hmr & Hres & Herr & Hnorm).
  fold X in Herr, Hnorm; fold r in Hres.
  pose proof (holds_of_loc _ _ _ _ H) as [Hmx _].
  destruct H as (Hd & Hn & _).
  assert (HdR : 0 < IZR d) by (apply IZR_lt; exact Hd).
  assert (HnR : 0 <= IZR n) by (apply IZR_le; exact Hn).
  assert (HX : 0 <= X).
  { unfold X. pose proof (bpow_pos ex).
    apply Rmult_le_pos; [apply Rmult_le_pos; [lra | apply Rlt_le, Rinv_0_lt_compat; lra] | lra]. }
  assert (Hmx0 : (0 <= mx)%Z) by (rewrite Hmx; apply Z.div_pos; lia).
  pose proof (Zdigits2_nonneg mx Hmx0) as Hdg0.
  set (f := fexp prec emax (Zdigits2 mx + ex)) in *.
  assert (Hf : f = Z.max (Zdigits2 mx + ex - 53) (-1074)) by (unfold f; apply fexp_eq).
  set (e1 := Z.max f ex) in *.
  pose proof (bpow_pos e1) as HB1.
  pose proof eta_pos as Heta.
  (* exact when nothing is shifted out *)
  assert (Hexact : d = 1%Z -> e1 = ex -> IZR mr * bpow e1 = X).
  { intros -> E. unfold X in *; rewrite E in *.
    replace (IZR n / 1 * bpow ex) with (IZR n * bpow ex) in * by (field; lra).
    pose proof (bpow_pos ex) as HB.
    replace (IZR mr * bpow ex - IZR n * bpow ex)
      with ((IZR mr - IZR n) * bpow ex) in Herr by ring.
    rewrite Rabs_mult, (Rabs_pos_eq (bpow ex)) in Herr by lra.
    assert (Rabs (IZR mr - IZR n) <= / 2).
    { apply Rmult_le_reg_r with (bpow ex); [exact HB | lra]. }
    rewrite (IZR_near mr n) by assumption; reflexivity. }
  exists (IZR mr * bpow e1).
  assert (Hy : 0 <= IZR mr * bpow e1).
  { apply Rmult_le_pos; [apply IZR_le; lia | lra]. }
  split; [exact Hy |].
  split.
  { unfold rounded; rewrite Hres.
    destruct (finish_value s mr e1 Hmr) as [Hinf | [Hfin Hval]];
      [left; exact Hinf | right; split; [exact Hfin | exact Hval]]. }
  split; [| split].
  - unfold near.
    destruct (Z.le_gt_cases ex f) as [Hshift | Hno].
    + destruct (Z.eq_dec e1 (-1074)) as [E | E].
      * assert (Hhalf : bpow e1 / 2 = eta).
        { rewrite E; unfold eta.
          change (-1074)%Z with (-1075 + 1)%Z; rewrite bpow_succ; lra. }
        assert (0 <= u * X); [| lra].
        apply Rmult_le_pos; [unfold u; lra | exact HX].
      * assert (Hlow : (-1074 < e1)%Z) by lia.
        specialize (Hnorm Hshift Hlow).
        unfold u; lra.
    + destruct Hcase as [Hc | Hc]; [lia |].
      rewrite (Hexact Hc) by lia.
      replace (X - X) with 0 by ring; rewrite Rabs_R0.
      assert (0 <= u * X); [| lra].
      apply Rmult_le_pos; [unfold u; lra | exact HX].
  - intros Hd1 Hex; unfold close.
    destruct (Z.eq_dec e1 ex) as [E | E].
    + rewrite (Hexact Hd1 E).
      replace (X - X) with 0 by ring; rewrite Rabs_R0.
      apply Rmult_le_pos; [unfold u; lra | exact HX].
    + assert (Hshift : (ex <= f)%Z) by lia.
      assert (Hlow : (-1074 < e1)%Z) by lia.
      specialize (Hnorm Hshift Hlow).
      unfold u; lra.
  - intros Hpos Hsmall Hno.
    rewrite Hres.
    destruct (Z.eq_dec mx 0) as [Hzero | Hnz].
    { destruct (Z.le_gt_cases ex f) as [Hshift | Hnoshift].
      - apply finish_finite; [exact Hmr |].
        rewrite Hzero in Hf; simpl in Hf; lia.
      - specialize (Hno Hnoshift).
        destruct Hcase as [Hc | Hc]; [lia |].
        assert (E : e1 = ex) by lia.
        pose proof (Hexact Hc E) as Hv.
        unfold X in Hv; rewrite Hc, E in Hv.
        replace (IZR n / 1 * bpow ex) with (IZR n * bpow ex) in Hv by (field; lra).
        pose proof (bpow_pos ex) as HB.
        apply Rmult_eq_reg_r in Hv; [| lra].
        apply eq_IZR in Hv.
        assert (Hmr0 : mr = 0%Z) by (rewrite Hv, <- (Z.div_1_r n), <- Hc, <- Hmx; exact Hzero).
        rewrite Hmr0; discriminate. }
    assert (Hpos' : (0 < mx)%Z) by lia.
    assert (Hdig : (2 ^ (Zdigits2 mx - 1) <= mx < 2 ^ Zdigits2 mx)%Z)
      by (apply Zdigits2_spec; exact Hpos').
    destruct (Z.le_gt_cases ex f) as [Hshift | Hnoshift].
    + apply finish_finite; [exact Hmr |].
      assert (Hdg1 : (0 < Zdigits2 mx)%Z).
      { destruct (Z.eq_dec (Zdigits2 mx) 0) as [E0 | ?]; [| lia].
        rewrite E0 in Hdig; simpl in Hdig; lia. }
      assert (Hlow : bpow (Zdigits2 mx - 1 + ex) <= X).
      { rewrite bpow_add, <- (bpow_IZR (Zdigits2 mx - 1)) by lia.
        unfold X. pose proof (bpow_pos ex).
        apply Rmult_le_compat_r; [lra |].
        apply Rle_trans with (IZR mx); [apply IZR_le; lia |].
        rewrite Hmx; apply IZR_floor; assumption. }
      assert (Zdigits2 mx - 1 + ex < 1023)%Z by (apply bpow_lt_inv; lra).
      lia.
    + specialize (Hno Hnoshift).
      destruct Hcase as [Hc | Hc]; [lia |].
      assert (E : e1 = ex) by lia.
      assert (Hmrx : mr = mx).
      { pose proof (Hexact Hc E) as Hv.
        unfold X in Hv; rewrite Hc, E in Hv.
        replace (IZR n / 1 * bpow ex) with (IZR n * bpow ex) in Hv by (field; lra).
        pose proof (bpow_pos ex) as HB.
        apply Rmult_eq_reg_r in Hv; [| lra].
        apply eq_IZR in Hv.
        rewrite Hmx, Hc, Z.div_1_r; exact Hv. }
      assert (Hlt : (mx < 2 ^ 52)%Z).
      { apply Z.lt_le_trans with (2 ^ Zdigits2 mx)%Z; [lia |].
        apply Z.pow_le_mono_r; lia. }
      change (2 ^ 52)%Z with 4503599627370496%Z in Hlt.
      rewrite E, Hmrx; unfold finish.
      destruct mx as [| p | p]; [discriminate | | discriminate].
      destruct (Z.eqb_spec (Z.pos p) 9007199254740992) as [E' | _]; [lia |].
      destruct (Z.leb_spec ex 971); [discriminate | lia].
Qed.

(** *** Numbers that are not negative *)

Lemma rounded_nn (r : spec_float) (y : R) : rounded r false y -> result_nn r y.
Proof.
  intros [H | [[H | (m & e & H)] Hv]]; [left; exact H | right | right];
    rewrite H in *; (split; [exact I | rewrite Hv; ring]).
Qed.

Lemma valid_finite (s : bool) (m : positive) (e : Z) :
  valid_binary (S754_finite s m e) = true ->
  (e = Z.max (Z.pos (digits2_pos m) + e - 53) (-1074) /\ e <= 971)%Z.
Proof.
  unfold valid_binary; cbn [SpecFloat.valid_binary];
    unfold bounded, canonical_mantissa; intros H.
  apply andb_prop in H as [Hc He].
  apply Z.eqb_eq in Hc; apply Z.leb_le in He.
  rewrite fexp_eq in Hc.
  split; [symmetry; exact Hc | exact He].
Qed.

Lemma SFnn_value (x : spec_float) : SFnn x -> 0 <= SF2R x.
Proof.
  destruct x as [s | s | | [|] m e]; cbn [SFnn SF2R]; try tauto; try lra.
  intros _. pose proof (bpow_pos e).
  assert (0 < IZR (Z.pos m)) by (apply IZR_lt; lia).
  nra.
Qed.

Lemma holds_exact (m : Z) : (0 <= m)%Z -> holds (shr_record_of_loc m loc_Exact) m 1.
Proof.
  intros Hm; unfold holds; cbn [shr_record_of_loc shr_m loc_of_shr_record].
  rewrite Z.div_1_r, Z.mod_1_r; unfold loc_rem; simpl.
  repeat split; lia.
Qed.

(** *** Products *)

Lemma SFmul_nn (a b : spec_float) :
  valid_binary a = true -> valid_binary b = true ->
  SFnn a -> SFnn b ->
  exists y : R,
    0 <= y /\ result_nn (SF64mul a b) y /\ near y (SF2R a * SF2R b) /\
    (SF2R a * SF2R b < bpow 1023 -> SF64mul a b <> S754_infinity false).
Proof.
  intros Va Vb Ha Hb.
  pose proof eta_pos as Heta.
  assert (Hzero : forall s x, x = 0 ->
    exists y : R, 0 <= y /\ result_nn (S754_zero s) y /\ near y x /\
      (x < bpow 1023 -> S754_zero s <> S754_infinity false)).
  { intros s x ->. exists 0; split; [lra |].
    split; [right; split; [exact I | reflexivity] |].
    split; [| discriminate].
    unfold near. replace (0 - 0) with 0 by ring. rewrite Rabs_R0; lra. }
  destruct a as [sa | sa | | [|] ma ea]; cbn [SFnn] in Ha; try tauto;
    destruct b as [sb | sb | | [|] mb eb]; cbn [SFnn] in Hb; try tauto;
    unfold SF64mul, SFmul; cbn [SF2R];
    try (apply Hzero; ring).
  cbn [xorb].
  apply valid_finite in Va as [Hca Hea], Vb as [Hcb Heb].
  pose proof (digits2_pos_spec ma) as Hda.
  pose proof (digits2_pos_spec mb) as Hdb.
  set (da := Z.pos (digits2_pos ma)) in *.
  set (db := Z.pos (digits2_pos mb)) in *.
  assert (Hda0 : (0 < da)%Z) by (unfold da; lia).
  assert (Hdb0 : (0 < db)%Z) by (unfold db; lia).
  assert (Hdig : (da + db - 1 <= Zdigits2 (Z.pos (ma * mb)))%Z).
  { apply Zdigits2_ge; [lia |].
    replace (da + db - 1 - 1)%Z with ((da - 1) + (db - 1))%Z by lia.
    rewrite Z.pow_add_r by lia.
    rewrite Pos2Z.inj_mul.
    apply Z.mul_le_mono_nonneg; try lia;
      apply Z.pow_nonneg; lia. }
  destruct (round_outcome false (Z.pos (ma * mb)) (ea + eb) loc_Exact
              (Z.pos (ma * mb)) 1
              (holds_exact (Z.pos (ma * mb)) ltac:(lia)) (or_intror eq_refl))
    as (y & Hy & Hout & Hnear & _ & Hfin).
  assert (HX : IZR (Z.pos (ma * mb)) / 1 * bpow (ea + eb)
               = 1 * (IZR (Z.pos ma) * bpow ea) * (1 * (IZR (Z.pos mb) * bpow eb))).
  { rewrite Pos2Z.inj_mul, mult_IZR, bpow_add; field. }
  rewrite HX in Hnear, Hfin.
  exists y; split; [exact Hy |].
  split; [apply rounded_nn; exact Hout |].
  split; [exact Hnear |].
  intros Hsmall; apply Hfin; [left; lia | exact Hsmall |].
  rewrite fexp_eq; lia.
Qed.

(** *** Sums and differences *)

Lemma iter_xO (m d : positive) :
  Z.pos (Pos.iter xO m d) = (Z.pos m * 2 ^ Z.pos d)%Z.
Proof.
  induction d as [| d IH] using Pos.peano_ind.
  - simpl; lia.
  - rewrite Pos.iter_succ, Pos2Z.inj_xO, IH, Pos2Z.inj_succ, Z.pow_succ_r by lia.
    lia.
Qed.

Lemma shl_align_spec (m : positive) (e e' : Z) :
  (snd (shl_align m e e') = Z.min e e' /\
   Z.pos (fst (shl_align m e e'))
   = Z.pos m * 2 ^ (e - snd (shl_align m e e')))%Z.
Proof.
  unfold shl_align.
  destruct (e' - e)%Z as [| d | d] eqn:E; cbn [fst snd].
  - split; [lia |]. rewrite Z.sub_diag; simpl; lia.
  - split; [lia |]. rewrite Z.sub_diag; simpl; lia.
  - split; [lia |].
    rewrite iter_xO. do 2 f_equal; lia.
Qed.

Lemma shl_align_value (m : positive) (e e' : Z) :
  IZR (Z.pos (fst (shl_align m e e'))) * bpow (snd (shl_align m e e'))
  = IZR (Z.pos m) * bpow e.
Proof.
  destruct (shl_align_spec m e e') as [He Hm].
  rewrite Hm, mult_IZR, (bpow_IZR (e - snd (shl_align m e e'))) by lia.
  rewrite Rmult_assoc, <- bpow_add.
  do 2 f_equal; lia.
Qed.

Lemma binary_round_outcome (s : bool) (m : positive) (e : Z) :
  (-1074 <= e <= 971)%Z ->
  let X := IZR (Z.pos m) * bpow e in
  exists y : R,
    0 <= y /\ rounded (binary_round prec emax s m e) s y /\ close y X /\
    (X < bpow 1023 -> binary_round prec emax s m e <> S754_infinity s).
Proof.
  intros He X; unfold binary_round.
  pose proof (shl_align_spec m e (fexp prec emax (Z.pos (digits2_pos m) + e)))
    as [Hez _].
  pose proof (shl_align_value m e (fexp prec emax (Z.pos (digits2_pos m) + e)))
    as Hval.
  destruct (shl_align m e (fexp prec emax (Z.pos (digits2_pos m) + e)))
    as [mz ez]; cbn [fst snd] in *.
  rewrite fexp_eq in Hez.
  destruct (round_outcome s (Z.pos mz) ez loc_Exact (Z.pos mz) 1
              (holds_exact (Z.pos mz) ltac:(lia)) (or_intror eq_refl))
    as (y & Hy & Hout & _ & Hclose & Hfin).
  replace (IZR (Z.pos mz) / 1 * bpow ez) with X in Hclose, Hfin
    by (unfold X; rewrite <- Hval; field).
  exists y; split; [exact Hy |].
  split; [exact Hout |].
  split; [apply Hclose; [reflexivity | lia] |].
  intros Hsmall; apply Hfin; [left; lia | exact Hsmall | lia].
Qed.

Lemma close_exact (X : R) : 0 <= X -> close X X.
Proof.
  intros HX; unfold close.
  replace (X - X) with 0 by ring; rewrite Rabs_R0.
  apply Rmult_le_pos; [unfold u; lra | exact HX].
Qed.

Lemma aligned_sum (ma mb : positive) (ea eb : Z) :
  let ez := Z.min ea eb in
  let Ma := Z.pos (fst (shl_align ma ea ez)) in
  let Mb := Z.pos (fst (shl_align mb eb ez)) in
  IZR Ma * bpow ez = IZR (Z.pos ma) * bpow ea /\
  IZR Mb * bpow ez = IZR (Z.pos mb) * bpow eb.
Proof.
  intros ez Ma Mb.
  pose proof (shl_align_value ma ea ez) as Ha.
  pose proof (shl_align_value mb eb ez) as Hb.
  destruct (shl_align_spec ma ea ez) as [Hea _].
  destruct (shl_align_spec mb eb ez) as [Heb _].
  replace (snd (shl_align ma ea ez)) with ez in Ha by (unfold ez in *; lia).
  replace (snd (shl_align mb eb ez)) with ez in Hb by (unfold ez in *; lia).
  split; assumption.
Qed.

Lemma SFadd_nn (a b : spec_float) :
  valid_binary a = true -> valid_binary b = true ->
  SFnn a -> SFnn b ->
  exists y : R,
    0 <= y /\ result_nn (SF64add a b) y /\ close y (SF2R a + SF2R b) /\
    (SF2R a + SF2R b < bpow 1023 -> SF64add a b <> S754_infinity false).
Proof.
  intros Va Vb Ha Hb.
  assert (Hsame : forall r x, SFnn r -> SF2R r = x ->
    exists y : R, 0 <= y /\ result_nn r y /\ close y x /\
      (x < bpow 1023 -> r <> S754_infinity false)).
  { intros r x Hr Hx. exists x.
    pose proof (SFnn_value r Hr) as H0; rewrite Hx in H0.
    split; [exact H0 |].
    split; [right; split; assumption |].
    split; [apply close_exact; exact H0 |].
    intros _ E; rewrite E in Hr; exact Hr. }
  destruct a as [sa | sa | | [|] ma ea]; cbn [SFnn] in Ha; try tauto;
    destruct b as [sb | sb | | [|] mb eb]; cbn [SFnn] in Hb; try tauto;
    unfold SF64add, SFadd.
  - destruct sa, sb; (apply Hsame; [exact I | simpl; ring]).
  - apply Hsame; [exact I | cbn [SF2R]; ring].
  - apply Hsame; [exact I | cbn [SF2R]; ring].
  - cbn zeta; cbn [cond_Zopp SF2R].
    apply valid_finite in Va as [Hca Hea], Vb as [Hcb Heb].
    destruct (aligned_sum ma mb ea eb) as [HMa HMb]; cbn zeta in HMa, HMb.
    set (ez := Z.min ea eb) in *.
    set (Ma := fst (shl_align ma ea ez)) in *.
    set (Mb := fst (shl_align mb eb ez)) in *.
    change (Z.pos Ma + Z.pos Mb)%Z with (Z.pos (Ma + Mb)).
    cbn [binary_normalize].
    destruct (binary_round_outcome false (Ma + Mb) ez ltac:(unfold ez; lia))
      as (y & Hy & Hout & Hclose & Hfin).
    cbn zeta in Hclose, Hfin.
    assert (HX : IZR (Z.pos (Ma + Mb)) * bpow ez
                 = 1 * (IZR (Z.pos ma) * bpow ea) + 1 * (IZR (Z.pos mb) * bpow eb)).
    { rewrite Pos2Z.inj_add, plus_IZR, Rmult_plus_distr_r, HMa, HMb; ring. }
    rewrite HX in Hclose, Hfin.
    exists y; split; [exact Hy |].
    split; [apply rounded_nn; exact Hout |].
    split; assumption.
Qed.

(** The magnitude of a difference. *)
Lemma SFsub_abs (a b : spec_float) :
  valid_binary a = true -> valid_binary b = true ->
  SFnn a -> SFnn b ->
  exists y : R,
    0 <= y /\ result_nn (SFabs (SF64sub a b)) y /\
    close y (Rabs (SF2R a - SF2R b)) /\
    (Rabs (SF2R a - SF2R b) < bpow 1023 ->
     SFabs (SF64sub a b) <> S754_infinity false).
Proof.
  intros Va Vb Ha Hb.
  assert (Hsame : forall r x, SFnn r -> SF2R r = x ->
    exists y : R, 0 <= y /\ result_nn r y /\ close y x /\
      (x < bpow 1023 -> r <> S754_infinity false)).
  { intros r x Hr Hx. exists x.
    pose proof (SFnn_value r Hr) as H0; rewrite Hx in H0.
    split; [exact H0 |].
    split; [right; split; assumption |].
    split; [apply close_exact; exact H0 |].
    intros _ E; rewrite E in Hr; exact Hr. }
  destruct a as [sa | sa | | [|] ma ea]; cbn [SFnn] in Ha; try tauto;
    destruct b as [sb | sb | | [|] mb eb]; cbn [SFnn] in Hb; try tauto;
    unfold SF64sub, SFsub.
  - destruct sa, sb; (apply Hsame; [exact I |]); simpl;
      replace (0 - 0) with 0 by ring; rewrite Rabs_R0; reflexivity.
  - cbn [negb SFabs]. apply Hsame; [exact I |].
    cbn [SF2R].
    pose proof (bpow_pos eb). assert (0 < IZR (Z.pos mb)) by (apply IZR_lt; lia).
    replace (0 - 1 * (IZR (Z.pos mb) * bpow eb)) with (- (IZR (Z.pos mb) * bpow eb)) by ring.
    rewrite Rabs_Ropp, Rabs_pos_eq by nra. ring.
  - cbn [SFabs]. apply Hsame; [exact I |].
    cbn [SF2R].
    pose proof (bpow_pos ea). assert (0 < IZR (Z.pos ma)) by (apply IZR_lt; lia).
    replace (1 * (IZR (Z.pos ma) * bpow ea) - 0) with (IZR (Z.pos ma) * bpow ea) by ring.
    rewrite Rabs_pos_eq by nra. ring.
  - cbn zeta; cbn [cond_Zopp SF2R].
    apply valid_finite in Va as [Hca Hea], Vb as [Hcb Heb].
    destruct (aligned_sum ma mb ea eb) as [HMa HMb]; cbn zeta in HMa, HMb.
    set (ez := Z.min ea eb) in *.
    set (Ma := fst (shl_align ma ea ez)) in *.
    set (Mb := fst (shl_align mb eb ez)) in *.
    pose proof (bpow_pos ez) as HB.
    assert (HX : 1 * (IZR (Z.pos ma) * bpow ea) - 1 * (IZR (Z.pos mb) * bpow eb)
                 = IZR (Z.pos Ma - Z.pos Mb) * bpow ez).
    { rewrite minus_IZR, Rmult_minus_distr_r, HMa, HMb; ring. }
    rewrite HX.
    destruct (Z.pos Ma - Z.pos Mb)%Z as [| p | p] eqn:E; cbn [binary_normalize].
    + cbn [SFabs]. apply Hsame; [exact I |].
      rewrite Rmult_0_l, Rabs_R0; reflexivity.
    + assert (Hp : 0 < IZR (Z.pos p)) by (apply IZR_lt; lia).
      rewrite Rabs_pos_eq by nra.
      destruct (binary_round_outcome false p ez ltac:(unfold ez; lia))
        as (y & Hy & Hout & Hclose & Hfin).
      cbn zeta in Hclose, Hfin.
      exists y; split; [exact Hy |].
      destruct Hout as [Hinf | [[Hz | (m & e & Hf)] Hv]].
      * rewrite Hinf; cbn [SFabs].
        split; [left; reflexivity |]. split; [exact Hclose |].
        intros Hs; exfalso; exact (Hfin Hs Hinf).
      * rewrite Hz in *; cbn [SFabs].
        split; [right; split; [exact I | simpl in *; lra] |].
        split; [exact Hclose | discriminate].
      * rewrite Hf in *; cbn [SFabs].
        split; [right; split; [exact I | rewrite Hv; ring] |].
        split; [exact Hclose | discriminate].
    + assert (Hp : 0 < IZR (Z.pos p)) by (apply IZR_lt; lia).
      replace (IZR (Z.neg p) * bpow ez) with (- (IZR (Z.pos p) * bpow ez))
        by (change (Z.neg p) with (- Z.pos p)%Z; rewrite opp_IZR; ring).
      rewrite Rabs_Ropp, Rabs_pos_eq by nra.
      destruct (binary_round_outcome true p ez ltac:(unfold ez; lia))
        as (y & Hy & Hout & Hclose & Hfin).
      cbn zeta in Hclose, Hfin.
      exists y; split; [exact Hy |].
      destruct Hout as [Hinf | [[Hz | (m & e & Hf)] Hv]].
      * rewrite Hinf; cbn [SFabs].
        split; [left; reflexivity |]. split; [exact Hclose |].
        intros Hs; exfalso; exact (Hfin Hs Hinf).
      * rewrite Hz in *; cbn [SFabs].
        split; [right; split; [exact I | simpl in *; lra] |].
        split; [exact Hclose | discriminate].
      * rewrite Hf in *; cbn [SFabs].
        split; [right; split; [exact I | cbn [SF2R] in *; lra] |].
        split; [exact Hclose | discriminate].
Qed.

(** *** Quotients *)

Lemma new_location_spec (d r : Z) :
  (0 <= r < d)%Z -> new_location d r = loc_rem r d.
Proof.
  intros Hr; unfold new_location, new_location_even, new_location_odd, loc_rem.
  destruct (Z.even d) eqn:Ev; [reflexivity |].
  destruct (Z.eqb_spec r 0); [reflexivity |].
  assert (Hodd : Z.odd d = true) by (rewrite <- Z.negb_even, Ev; reflexivity).
  apply Z.odd_spec in Hodd as [t Ht].
  destruct (Z.compare_spec (2 * r + 1) d), (Z.compare_spec (2 * r) d);
    try reflexivity; lia.
Qed.

Lemma loc_of_shr_record_of_loc (m : Z) (l : location) :
  loc_of_shr_record (shr_record_of_loc m l) = l.
Proof. destruct l as [| []]; reflexivity. Qed.

Lemma bpow_opp (e : Z) : bpow (- e) = / bpow e.
Proof.
  pose proof (bpow_pos e) as H.
  apply Rmult_eq_reg_l with (bpow e); [| lra].
  rewrite <- bpow_add, Z.add_opp_diag_r, Rinv_r by lra.
  reflexivity.
Qed.

Lemma SFdiv_core_holds (mx my : positive) (ex ey : Z) :
  let D := (Zdigits2 (Z.pos mx) + ex - (Zdigits2 (Z.pos my) + ey))%Z in
  let e' := Z.min (fexp prec emax D) (ex - ey) in
  exists q l,
    SFdiv_core_binary prec emax (Z.pos mx) ex (Z.pos my) ey = (q, e', l) /\
    holds (shr_record_of_loc q l) (Z.pos mx * 2 ^ (ex - ey - e')) (Z.pos my) /\
    (e' <= fexp prec emax (Zdigits2 q + e'))%Z.
Proof.
  intros D e'.
  unfold SFdiv_core_binary.
  fold D; fold e'.
  set (s := (ex - ey - e')%Z).
  assert (Hs : (0 <= s)%Z) by (unfold s, e'; lia).
  set (m' := match s with
             | 0%Z => Z.pos mx
             | Z.pos _ => Z.shiftl (Z.pos mx) s
             | Z.neg _ => 0%Z
             end).
  assert (Hm' : m' = (Z.pos mx * 2 ^ s)%Z).
  { unfold m'; destruct s as [| p | p] eqn:E; [simpl; lia | | lia].
    rewrite Z.shiftl_mul_pow2 by lia; reflexivity. }
  rewrite div_eucl_eq, Hm'.
  set (n := (Z.pos mx * 2 ^ s)%Z).
  assert (Hpow : (0 < 2 ^ s)%Z) by (apply Z.pow_pos_nonneg; lia).
  assert (Hn : (0 < n)%Z) by (unfold n; nia).
  pose proof (Z.mod_pos_bound n (Z.pos my) ltac:(lia)) as Hrem.
  exists (n / Z.pos my)%Z, (new_location (Z.pos my) (n mod Z.pos my)).
  split; [reflexivity |].
  split.
  - unfold holds.
    rewrite shr_record_of_loc_m, loc_of_shr_record_of_loc.
    repeat split; try lia.
    apply new_location_spec; exact Hrem.
  - (* the quotient has the digits the exponent was chosen for *)
    pose proof (digits2_pos_spec mx) as Hdx.
    pose proof (digits2_pos_spec my) as Hdy.
    cbn [Zdigits2] in D.
    set (dx := Z.pos (digits2_pos mx)) in *.
    set (dy := Z.pos (digits2_pos my)) in *.
    assert (Hq0 : (0 <= n / Z.pos my)%Z) by (apply Z.div_pos; lia).
    pose proof (Zdigits2_nonneg _ Hq0) as Hdq0.
    assert (Hdq : (dx + s - dy <= Zdigits2 (n / Z.pos my))%Z).
    { destruct (Z.le_gt_cases (dx + s - dy) 0) as [Hle | Hgt]; [lia |].
      apply Zdigits2_ge; [lia |].
      apply Z.div_le_lower_bound; [lia |].
      apply Z.le_trans with (2 ^ dy * 2 ^ (dx + s - dy - 1))%Z;
        [apply Z.mul_le_mono_nonneg_r; [apply Z.pow_nonneg; lia | lia] |].
      rewrite <- Z.pow_add_r by lia.
      replace (dy + (dx + s - dy - 1))%Z with ((dx - 1) + s)%Z by lia.
      rewrite Z.pow_add_r by (unfold dx; lia).
      unfold n; apply Z.mul_le_mono_nonneg_r; lia. }
    rewrite !fexp_eq.
    unfold e' at 1; rewrite fexp_eq.
    unfold s in Hdq. lia.
Qed.

Lemma SFdiv_nn (a : spec_float) (mb : positive) (eb : Z) :
  valid_binary a = true -> valid_binary (S754_finite false mb eb) = true ->
  SFnn a ->
  let b := S754_finite false mb eb in
  exists y : R,
    0 <= y /\ result_nn (SF64div a b) y /\ near y (SF2R a / SF2R b) /\
    (SF2R a / SF2R b < bpow 1023 -> SF64div a b <> S754_infinity false).
Proof.
  intros Va Vb Ha b.
  pose proof eta_pos as Heta.
  pose proof (bpow_pos eb) as HBb.
  assert (Hmb : 0 < IZR (Z.pos mb)) by (apply IZR_lt; lia).
  destruct a as [sa | sa | | [|] ma ea]; cbn [SFnn] in Ha; try tauto;
    unfold b, SF64div, SFdiv.
  - exists 0; split; [lra |].
    split; [right; split; [exact I | reflexivity] |].
    split; [| discriminate].
    unfold near; cbn [SF2R].
    replace (0 - 0 / (1 * (IZR (Z.pos mb) * bpow eb))) with 0
      by (field; split; lra).
    rewrite Rabs_R0.
    replace (0 / (1 * (IZR (Z.pos mb) * bpow eb))) with 0 by (field; split; lra).
    lra.
  - cbn [xorb].
    destruct (SFdiv_core_holds ma mb ea eb) as (q & l & Hcore & Hholds & Hshift).
    cbn zeta in Hcore, Hholds, Hshift.
    set (D := (Zdigits2 (Z.pos ma) + ea - (Zdigits2 (Z.pos mb) + eb))%Z) in *.
    set (e' := Z.min (fexp prec emax D) (ea - eb)) in *.
    rewrite Hcore.
    destruct (round_outcome false q e' l _ _ Hholds (or_introl Hshift))
      as (y & Hy & Hout & Hnear & _ & Hfin).
    pose proof (bpow_pos ea) as HBa.
    assert (Hma : 0 < IZR (Z.pos ma)) by (apply IZR_lt; lia).
    assert (Hs : (0 <= ea - eb - e')%Z) by (unfold e'; lia).
    assert (HX : IZR (Z.pos ma * 2 ^ (ea - eb - e')) / IZR (Z.pos mb) * bpow e'
                 = 1 * (IZR (Z.pos ma) * bpow ea) / (1 * (IZR (Z.pos mb) * bpow eb))).
    { rewrite mult_IZR, (bpow_IZR (ea - eb - e')) by lia.
      replace (ea - eb - e')%Z with (ea + (- eb + - e'))%Z by lia.
      rewrite !bpow_add, !bpow_opp.
      pose proof (bpow_pos e').
      field; repeat split; lra. }
    rewrite HX in Hnear, Hfin.
    exists y; split; [exact Hy |].
    split; [apply rounded_nn; exact Hout |].
    split; [exact Hnear |].
    intros Hsmall; apply Hfin; [right | exact Hsmall | lia].
    cbn [SF2R] in Hsmall.
    (* the exponent is in range because the quotient is *)
    pose proof (digits2_pos_spec ma) as Hdx.
    pose proof (digits2_pos_spec mb) as Hdy.
    cbn [Zdigits2] in D.
    set (dx := Z.pos (digits2_pos ma)) in *.
    set (dy := Z.pos (digits2_pos mb)) in *.
    assert (Hlow : bpow (D - 1) <= 1 * (IZR (Z.pos ma) * bpow ea) / (1 * (IZR (Z.pos mb) * bpow eb))).
    { replace (D - 1)%Z with ((dx - 1) + ea + (- dy + - eb))%Z by (unfold D; lia).
      rewrite !bpow_add, !bpow_opp.
      rewrite <- (bpow_IZR (dx - 1)) by (unfold dx; lia).
      assert (H1 : IZR (2 ^ (dx - 1)) <= IZR (Z.pos ma)) by (apply IZR_le; lia).
      assert (H2 : IZR (Z.pos mb) <= bpow dy).
      { rewrite <- bpow_IZR by (unfold dy; lia). apply IZR_le; lia. }
      pose proof (bpow_pos dy) as HBd.
      assert (H0 : 0 < IZR (2 ^ (dx - 1))).
      { apply IZR_lt, Z.pow_pos_nonneg; unfold dx; lia. }
      replace (1 * (IZR (Z.pos ma) * bpow ea) / (1 * (IZR (Z.pos mb) * bpow eb)))
        with (IZR (Z.pos ma) * bpow ea * (/ IZR (Z.pos mb) * / bpow eb))
        by (field; split; lra).
      assert (H3 : / bpow dy <= / IZR (Z.pos mb)) by (apply Rinv_le_contravar; lra).
      assert (H4 : 0 < / bpow eb) by (apply Rinv_0_lt_compat; lra).
      assert (H5 : 0 < / bpow dy) by (apply Rinv_0_lt_compat; lra).
      apply Rmult_le_compat; nra. }
    assert (D - 1 < 1023)%Z by (apply bpow_lt_inv; lra).
    unfold e'; rewrite fexp_eq; lia.
Qed.

(** *** Comparisons *)

Lemma SFcompare_nn (a b : spec_float) :
  valid_binary a = true -> valid_binary b = true ->
  SFnn a -> SFnn b ->
  match SFcompare a b with
  | Some Lt => SF2R a < SF2R b
  | Some Eq => SF2R a = SF2R b
  | Some Gt => SF2R b < SF2R a
  | None => False
  end.
Proof.
  intros Va Vb Ha Hb.
  assert (Hpos : forall m e, 0 < 1 * (IZR (Z.pos m) * bpow e)).
  { intros m e. pose proof (bpow_pos e).
    assert (0 < IZR (Z.pos m)) by (apply IZR_lt; lia). nra. }
  destruct a as [sa | sa | | [|] ma ea]; cbn [SFnn] in Ha; try tauto;
    destruct b as [sb | sb | | [|] mb eb]; cbn [SFnn] in Hb; try tauto;
    cbn [SFcompare SF2R]; try reflexivity; try apply Hpos.
  apply valid_finite in Va as [Hca Hea], Vb as [Hcb Heb].
  pose proof (digits2_pos_spec ma) as Hda.
  pose proof (digits2_pos_spec mb) as Hdb.
  set (da := Z.pos (digits2_pos ma)) in *.
  set (db := Z.pos (digits2_pos mb)) in *.
  assert (Hlex : forall m1 m2 e1 e2 d1 d2,
    (2 ^ (d1 - 1) <= Z.pos m1 < 2 ^ d1)%Z -> (2 ^ (d2 - 1) <= Z.pos m2 < 2 ^ d2)%Z ->
    (e1 = Z.max (d1 + e1 - 53) (-1074))%Z -> (e2 = Z.max (d2 + e2 - 53) (-1074))%Z ->
    (e1 < e2)%Z ->
    1 * (IZR (Z.pos m1) * bpow e1) < 1 * (IZR (Z.pos m2) * bpow e2)).
  { intros m1 m2 e1 e2 d1 d2 H1 H2 Hc1 Hc2 Hlt.
    assert (Hd2 : d2 = 53%Z) by lia.
    assert (Hd1 : (d1 <= 53)%Z) by lia.
    replace e2 with (e1 + (e2 - e1))%Z by lia.
    rewrite bpow_add, <- (bpow_IZR (e2 - e1)) by lia.
    pose proof (bpow_pos e1) as HB.
    assert (Hm1 : IZR (Z.pos m1) < 9007199254740992).
    { apply IZR_lt. apply Z.lt_le_trans with (2 ^ d1)%Z; [lia |].
      change 9007199254740992%Z with (2 ^ 53)%Z.
      apply Z.pow_le_mono_r; lia. }
    assert (Hm2 : 4503599627370496 <= IZR (Z.pos m2)).
    { apply IZR_le. rewrite Hd2 in H2. simpl in H2. lia. }
    assert (Hp : 2 <= IZR (2 ^ (e2 - e1))).
    { apply IZR_le. change 2%Z with (2 ^ 1)%Z at 1.
      apply Z.pow_le_mono_r; lia. }
    assert (9007199254740992 <= IZR (Z.pos m2) * IZR (2 ^ (e2 - e1))) by nra.
    nra. }
  destruct (Z.compare_spec ea eb) as [E | Hlt | Hgt].
  - subst eb. rewrite Pos.compare_cont_spec; unfold Pos.switch_Eq.
    pose proof (bpow_pos ea) as HB.
    destruct (Pos.compare_spec ma mb) as [E | Hlt | Hgt].
    + subst; reflexivity.
    + assert (IZR (Z.pos ma) < IZR (Z.pos mb)) by (apply IZR_lt; lia). nra.
    + assert (IZR (Z.pos mb) < IZR (Z.pos ma)) by (apply IZR_lt; lia). nra.
  - apply (Hlex ma mb ea eb da db); assumption.
  - apply (Hlex mb ma eb ea db da); assumption || lia.
Qed.

(** *** The numbers of the program *)

Lemma nn_value (x : float) : nn x -> 0 <= value x.
Proof. apply SFnn_value. Qed.

Lemma nn_not_bad (x : float) : nn x -> bad x -> False.
Proof. unfold nn, bad; intros H [E | E]; rewrite E in H; exact H. Qed.

Lemma result_bad (x : float) (y : R) : result x y -> nn x \/ bad x.
Proof. intros [H | [H _]]; [right; right; exact H | left; exact H]. Qed.

Lemma ltb_value (a b : float) :
  nn a -> nn b -> ((a <? b)%float = true <-> value a < value b).
Proof.
  intros Ha Hb; rewrite FloatAxioms.ltb_spec; unfold SFltb, value.
  pose proof (SFcompare_nn _ _ (FloatAxioms.Prim2SF_valid a)
                (FloatAxioms.Prim2SF_valid b) Ha Hb) as H.
  destruct (SFcompare (Prim2SF a) (Prim2SF b)) as [[| |] |];
    split; intros H'; try reflexivity; try discriminate; try lra; tauto.
Qed.

Lemma leb_value (a b : float) :
  nn a -> nn b -> ((a <=? b)%float = true <-> value a <= value b).
Proof.
  intros Ha Hb; rewrite FloatAxioms.leb_spec; unfold SFleb, value.
  pose proof (SFcompare_nn _ _ (FloatAxioms.Prim2SF_valid a)
                (FloatAxioms.Prim2SF_valid b) Ha Hb) as H.
  destruct (SFcompare (Prim2SF a) (Prim2SF b)) as [[| |] |];
    split; intros H'; try reflexivity; try discriminate; try lra; tauto.
Qed.

Lemma add_result (a b : float) :
  nn a -> nn b ->
  exists y : R,
    0 <= y /\ result (a + b)%float y /\ close y (value a + value b) /\
    (value a + value b < bpow 1023 -> nn (a + b)%float).
Proof.
  intros Ha Hb.
  destruct (SFadd_nn _ _ (FloatAxioms.Prim2SF_valid a)
              (FloatAxioms.Prim2SF_valid b) Ha Hb) as (y & Hy & Hres & Hc & Hfin).
  unfold result, nn, value; rewrite FloatAxioms.add_spec.
  exists y; repeat split; try assumption.
  intros Hs; destruct Hres as [E | [Hn _]]; [exfalso; exact (Hfin Hs E) | exact Hn].
Qed.

Lemma mul_result (a b : float) :
  nn a -> nn b ->
  exists y : R,
    0 <= y /\ result (a * b)%float y /\ near y (value a * value b) /\
    (value a * value b < bpow 1023 -> nn (a * b)%float).
Proof.
  intros Ha Hb.
  destruct (SFmul_nn _ _ (FloatAxioms.Prim2SF_valid a)
              (FloatAxioms.Prim2SF_valid b) Ha Hb) as (y & Hy & Hres & Hc & Hfin).
  unfold result, nn, value; rewrite FloatAxioms.mul_spec.
  exists y; repeat split; try assumption.
  intros Hs; destruct Hres as [E | [Hn _]]; [exfalso; exact (Hfin Hs E) | exact Hn].
Qed.

Lemma div_result (a b : float) :
  nn a -> nn b -> 0 < value b ->
  exists y : R,
    0 <= y /\ result (a / b)%float y /\ near y (value a / value b) /\
    (value a / value b < bpow 1023 -> nn (a / b)%float).
Proof.
  intros Ha Hb Hpos.
  pose proof (FloatAxioms.Prim2SF_valid b) as Vb.
  unfold result, nn, value in *; rewrite FloatAxioms.div_spec.
  destruct (Prim2SF b) as [sb | sb | | [|] mb eb] eqn:Eb; cbn [SFnn] in Hb; try tauto;
    try (simpl in Hpos; lra).
  destruct (SFdiv_nn _ mb eb (FloatAxioms.Prim2SF_valid a) Vb Ha)
    as (y & Hy & Hres & Hc & Hfin).
  exists y; repeat split; try assumption.
  intros Hs; destruct Hres as [E | [Hn _]]; [exfalso; exact (Hfin Hs E) | exact Hn].
Qed.

Lemma sub_abs_result (a b : float) :
  nn a -> nn b ->
  exists y : R,
    0 <= y /\ result (PrimFloat.abs (a - b)) y /\
    close y (Rabs (value a - value b)) /\
    (Rabs (value a - value b) < bpow 1023 -> nn (PrimFloat.abs (a - b))).
Proof.
  intros Ha Hb.
  destruct (SFsub_abs _ _ (FloatAxioms.Prim2SF_valid a)
              (FloatAxioms.Prim2SF_valid b) Ha Hb) as (y & Hy & Hres & Hc & Hfin).
  unfold result, nn, value; rewrite FloatAxioms.abs_spec, FloatAxioms.sub_spec.
  exists y; repeat split; try assumption.
  intros Hs; destruct Hres as [E | [Hn _]]; [exfalso; exact (Hfin Hs E) | exact Hn].
Qed.

(** *** Numbers that are not negative, finite or not *)

Lemma notneg_spec (x : float) :
  (x <? PrimFloat.zero)%float = false <-> notneg x.
Proof.
  rewrite FloatAxioms.ltb_spec, Prim2SF_zero.
  unfold notneg, nn, bad, SFltb.
  destruct (Prim2SF x) as [s | [|] | | [|] m e]; cbn [SFcompare SFnn];
    split; intros H; try reflexivity; try discriminate; try tauto;
    try (destruct H as [[] | [H | H]]; discriminate).
Qed.

Lemma add_bad_l (a b : float) : bad a -> notneg b -> bad (a + b)%float.
Proof.
  unfold notneg, bad, nn; rewrite FloatAxioms.add_spec.
  intros [Ea | Ea] Hb; rewrite Ea;
    destruct (Prim2SF b) as [s | [|] | | [|] m e]; cbn [SFnn] in Hb;
    unfold SF64add, SFadd; try tauto;
    destruct Hb as [Hb | [Hb | Hb]]; try tauto; try discriminate.
Qed.

Lemma add_bad_r (a b : float) : notneg a -> bad b -> bad (a + b)%float.
Proof.
  intros Ha Hb.
  assert (E : Prim2SF (a + b)%float = Prim2SF (b + a)%float)
    by (rewrite !FloatAxioms.add_spec; apply SFadd_comm).
  pose proof (add_bad_l b a Hb Ha) as H.
  unfold bad in *; rewrite E; exact H.
Qed.

Lemma add_notneg (a b : float) : notneg a -> notneg b -> notneg (a + b)%float.
Proof.
  intros [Ha | Ha] [Hb | Hb].
  - destruct (add_result a b Ha Hb) as (y & _ & Hres & _).
    apply result_bad in Hres; exact Hres.
  - right; apply add_bad_r; [left |]; assumption.
  - right; apply add_bad_l; [| left]; assumption.
  - right; apply add_bad_l; [| right]; assumption.
Qed.

Lemma add_nn_inv (a b : float) :
  notneg a -> notneg b -> nn (a + b)%float ->
  nn a /\ nn b /\ close (value (a + b)%float) (value a + value b).
Proof.
  intros Ha Hb Hs.
  assert (Hna : nn a).
  { destruct Ha as [Ha | Ha]; [exact Ha |].
    exfalso; apply (nn_not_bad _ Hs), add_bad_l; assumption. }
  assert (Hnb : nn b).
  { destruct Hb as [Hb | Hb]; [exact Hb |].
    exfalso; apply (nn_not_bad _ Hs), add_bad_r; [left |]; assumption. }
  split; [exact Hna |]; split; [exact Hnb |].
  destruct (add_result a b Hna Hnb) as (y & _ & [E | [_ Hv]] & Hc & _).
  - exfalso; apply (nn_not_bad _ Hs); right; exact E.
  - rewrite Hv; exact Hc.
Qed.

(** *** Sums from left to right *)

Lemma Rsum_nonneg (l : list float) : Forall nn l -> 0 <= Rsum l.
Proof.
  induction 1 as [| x l Hx _ IH]; simpl; [lra |].
  pose proof (nn_value x Hx); lra.
Qed.

Lemma u_pos : 0 < u.
Proof. unfold u; lra. Qed.

Lemma fold_notneg (l : list float) :
  forall acc, notneg acc -> Forall notneg l -> notneg (fold_left PrimFloat.add l acc).
Proof.
  induction l as [| x l IH]; intros acc Hacc Hl; simpl; [exact Hacc |].
  inversion Hl; subst.
  apply IH; [apply add_notneg |]; assumption.
Qed.

(** A sum that is a finite number was reached through finite numbers, and
    is the exact sum up to one rounding for each addition. *)
Lemma fold_nn_inv (l : list float) :
  forall acc,
    notneg acc -> Forall notneg l ->
    2 * INR (List.length l) * u <= 1 ->
    nn (fold_left PrimFloat.add l acc) ->
    nn acc /\ Forall nn l /\
    (1 - INR (List.length l) * u) * (value acc + Rsum l)
      <= value (fold_left PrimFloat.add l acc)
      <= (1 + 2 * INR (List.length l) * u) * (value acc + Rsum l).
Proof.
  pose proof u_pos as Hu.
  induction l as [| x l IH]; intros acc Hacc Hl Hlen Hs.
  - simpl in *. split; [exact Hs |]. split; [constructor |]. lra.
  - inversion Hl as [| ? ? Hx Hl']; subst.
    cbn [List.length] in *; rewrite S_INR in *.
    pose proof (pos_INR (List.length l)) as Hk.
    set (k := INR (List.length l)) in *.
    cbn [fold_left] in *.
    destruct (IH (acc + x)%float (add_notneg _ _ Hacc Hx) Hl' ltac:(nra) Hs)
      as (Hax & Hnl & Hlo & Hhi).
    destruct (add_nn_inv acc x Hacc Hx Hax) as (Hna & Hnx & Hc).
    split; [exact Hna |]. split; [constructor; assumption |].
    pose proof (nn_value _ Hna) as Ha0.
    pose proof (nn_value _ Hnx) as Hx0.
    pose proof (Rsum_nonneg l Hnl) as Hs0.
    cbn [Rsum fold_right]; fold (Rsum l).
    unfold close in Hc.
    set (v := value (acc + x)%float) in *.
    set (va := value acc) in *. set (vx := value x) in *.
    set (S' := Rsum l) in *.
    set (F := value (fold_left PrimFloat.add l (acc + x)%float)) in *.
    assert (Hv1 : v <= (1 + u) * (va + vx)).
    { pose proof (Rle_abs (v - (va + vx))); lra. }
    assert (Hv2 : (1 - u) * (va + vx) <= v).
    { pose proof (Rle_abs (- (v - (va + vx)))) as H. rewrite Rabs_Ropp in H; lra. }
    assert (Hku : 0 <= k * u) by (apply Rmult_le_pos; lra).
    split.
    + apply Rle_trans with ((1 - k * u) * (v + S')); [| exact Hlo].
      apply Rle_trans with ((1 - k * u) * ((1 - u) * (va + vx + S'))).
      * replace ((1 - k * u) * ((1 - u) * (va + vx + S')))
          with ((1 - (k + 1) * u + k * u * u) * (va + (vx + S'))) by ring.
        apply Rmult_le_compat_r; [lra |].
        assert (0 <= k * u * u) by (apply Rmult_le_pos; lra). lra.
      * apply Rmult_le_compat_l; [nra |].
        assert (0 <= u * S') by (apply Rmult_le_pos; lra). lra.
    + apply Rle_trans with ((1 + 2 * k * u) * (v + S')); [exact Hhi |].
      apply Rle_trans with ((1 + 2 * k * u) * ((1 + u) * (va + vx + S'))).
      * apply Rmult_le_compat_l; [nra |].
        assert (0 <= u * S') by (apply Rmult_le_pos; lra). lra.
      * replace ((1 + 2 * k * u) * ((1 + u) * (va + vx + S')))
          with ((1 + 2 * k * u + u + 2 * k * u * u) * (va + (vx + S'))) by ring.
        apply Rmult_le_compat_r; [lra |].
        assert (2 * k * u * u <= 1 * u); [| lra].
        apply Rmult_le_compat_r; lra.
Qed.

(** A sum of finite numbers whose exact sum is in range is a finite
    number. *)
Lemma fold_nn (l : list float) :
  forall acc,
    nn acc -> Forall nn l ->
    2 * INR (List.length l) * u <= 1 ->
    (1 + 2 * INR (List.length l) * u) * (value acc + Rsum l) < bpow 1023 ->
    nn (fold_left PrimFloat.add l acc).
Proof.
  pose proof u_pos as Hu.
  induction l as [| x l IH]; intros acc Hacc Hl Hlen Hs; [exact Hacc |].
  inversion Hl as [| ? ? Hx Hl']; subst.
  cbn [List.length] in *; rewrite S_INR in *.
  pose proof (pos_INR (List.length l)) as Hk.
  set (k := INR (List.length l)) in *.
  cbn [fold_left Rsum fold_right] in *; fold (Rsum l) in *.
  pose proof (nn_value _ Hacc) as Ha0.
  pose proof (nn_value _ Hx) as Hx0.
  pose proof (Rsum_nonneg l Hl') as Hs0.
  destruct (add_result acc x Hacc Hx) as (y & _ & Hres & Hc & Hfin).
  set (va := value acc) in *. set (vx := value x) in *.
  set (S' := Rsum l) in *.
  assert (Hku : 0 <= k * u) by (apply Rmult_le_pos; lra).
  assert (Htot : va + (vx + S') <= (1 + 2 * (k + 1) * u) * (va + (vx + S'))).
  { assert (0 <= 2 * (k + 1) * u * (va + (vx + S'))); [| lra].
    apply Rmult_le_pos; [nra | lra]. }
  assert (Hax : nn (acc + x)%float) by (apply Hfin; lra).
  destruct Hres as [E | [_ Hv]];
    [exfalso; apply (nn_not_bad _ Hax); right; exact E |].
  apply IH; [exact Hax | exact Hl' | nra |].
  rewrite Hv. unfold close in Hc.
  assert (Hv1 : y <= (1 + u) * (va + vx)).
  { pose proof (Rle_abs (y - (va + vx))); lra. }
  apply Rle_lt_trans with ((1 + 2 * (k + 1) * u) * (va + (vx + S'))); [| exact Hs].
  apply Rle_trans with ((1 + 2 * k * u) * ((1 + u) * (va + vx + S'))).
  - apply Rmult_le_compat_l; [nra |].
    assert (0 <= u * S') by (apply Rmult_le_pos; lra). lra.
  - replace ((1 + 2 * k * u) * ((1 + u) * (va + vx + S')))
      with ((1 + 2 * k * u + u + 2 * k * u * u) * (va + (vx + S'))) by ring.
    apply Rmult_le_compat_r; [lra |].
    assert (2 * k * u * u <= 1 * u); [| lra].
    apply Rmult_le_compat_r; lra.
Qed.

(** *** Tests and constants *)

Lemma leb_between (lo x hi : float) :
  nn lo -> nn hi ->
  (lo <=? x)%float = true -> (x <=? hi)%float = true -> nn x.
Proof.
  rewrite !FloatAxioms.leb_spec; unfold nn, SFleb.
  destruct (Prim2SF lo) as [sl | sl | | [|] ml el]; cbn [SFnn]; try tauto;
    destruct (Prim2SF hi) as [sh | sh | | [|] mh eh]; cbn [SFnn]; try tauto;
    destruct (Prim2SF x) as [sx | [|] | | [|] mx ex]; cbn [SFcompare SFnn];
    intros; try tauto; discriminate.
Qed.

Lemma SFeqb_finite (a : spec_float) (s : bool) (m : positive) (e : Z) :
  SFeqb a (S754_finite s m e) = true -> a = S754_finite s m e.
Proof.
  unfold SFeqb.
  destruct a as [sa | sa | | sa ma ea]; cbn [SFcompare];
    try discriminate; try (destruct sa; discriminate);
    try (destruct s; discriminate).
  destruct sa, s; try discriminate;
    destruct (Z.compare_spec ea e) as [-> | ? | ?]; try discriminate;
    rewrite Pos.compare_cont_spec; unfold Pos.switch_Eq;
    destruct (Pos.compare_spec ma m) as [-> | ? | ?]; cbn [CompOpp];
    intros Heq; try discriminate Heq; reflexivity.
Qed.

Lemma eqb_one (x : float) : (x =? 1)%float = true -> x = 1%float.
Proof.
  rewrite FloatAxioms.eqb_spec.
  change (Prim2SF 1) with (S754_finite false 4503599627370496 (-52)).
  intros H; apply SFeqb_finite in H.
  apply Prim2SF_inj; rewrite H; reflexivity.
Qed.

Lemma bpow_neg_IZR (k : Z) : (0 <= k)%Z -> bpow (- k) = / IZR (2 ^ k).
Proof. intros Hk; rewrite bpow_opp, bpow_IZR by exact Hk; reflexivity. Qed.

Lemma value_finite (x : float) (m : positive) (e : Z) :
  Prim2SF x = S754_finite false m e -> nn x /\ value x = IZR (Z.pos m) * bpow e.
Proof.
  intros H; unfold nn, value; rewrite H; split; [exact I | simpl; ring].
Qed.

Lemma bpow_le_value (k : Z) (m : positive) (e : Z) :
  (e <= k)%Z -> (2 ^ (k - e) <= Z.pos m)%Z -> bpow k <= IZR (Z.pos m) * bpow e.
Proof.
  intros He Hm.
  replace k with ((k - e) + e)%Z at 1 by lia.
  rewrite bpow_add, <- (bpow_IZR (k - e)) by lia.
  pose proof (bpow_pos e).
  apply Rmult_le_compat_r; [lra | apply IZR_le; exact Hm].
Qed.

Lemma value_le_bpow (k : Z) (m : positive) (e : Z) :
  (e <= k)%Z -> (Z.pos m <= 2 ^ (k - e))%Z -> IZR (Z.pos m) * bpow e <= bpow k.
Proof.
  intros He Hm.
  replace k with ((k - e) + e)%Z at 1 by lia.
  rewrite bpow_add, <- (bpow_IZR (k - e)) by lia.
  pose proof (bpow_pos e).
  apply Rmult_le_compat_r; [lra | apply IZR_le; exact Hm].
Qed.

Lemma nn_zero : nn PrimFloat.zero.
Proof. exact I. Qed.

Lemma value_zero : value PrimFloat.zero = 0.
Proof. reflexivity. Qed.

Lemma nn_one : nn 1%float.
Proof. exact I. Qed.

Lemma value_one : value 1%float = 1.
Proof.
  unfold value.
  change (Prim2SF 1) with (S754_finite false 4503599627370496 (-52)).
  cbn [SF2R].
  replace (bpow (-52)) with (/ IZR (2 ^ 52))
    by (symmetry; apply (bpow_neg_IZR 52); lia).
  change (2 ^ 52)%Z with 4503599627370496%Z.
  field.
Qed.

Lemma eta_small : eta = bpow (-75) * bpow (-1000).
Proof. unfold eta; rewrite <- bpow_add; reflexivity. Qed.

(** *** A list of numbers times a number *)

Lemma scaled_terms (c : float) (ws : list float) :
  nn c -> Forall nn ws ->
  value c * Rsum ws < bpow 1023 ->
  Forall nn (map (PrimFloat.mul c) ws) /\
  Rabs (Rsum (map (PrimFloat.mul c) ws) - value c * Rsum ws)
  <= u * (value c * Rsum ws) + INR (List.length ws) * eta.
Proof.
  intros Hc Hws.
  pose proof (nn_value c Hc) as Hc0.
  pose proof u_pos as Hu. pose proof eta_pos as Heta.
  induction Hws as [| x l Hx Hl IH]; intros Hsmall.
  - simpl. split; [constructor |].
    replace (0 - value c * 0) with 0 by ring. rewrite Rabs_R0. lra.
  - cbn [map Rsum fold_right List.length] in *; fold (Rsum l) in *.
    fold (Rsum (map (PrimFloat.mul c) l)).
    rewrite S_INR.
    pose proof (nn_value x Hx) as Hx0.
    pose proof (Rsum_nonneg l Hl) as Hs0.
    assert (Hcx : 0 <= value c * value x) by (apply Rmult_le_pos; lra).
    assert (Hcs : 0 <= value c * Rsum l) by (apply Rmult_le_pos; lra).
    destruct IH as [IHn IHe]; [nra |].
    destruct (mul_result c x Hc Hx) as (y & Hy & Hres & Hnear & Hfin).
    assert (Hn : nn (c * x)%float) by (apply Hfin; nra).
    destruct Hres as [E | [_ Hv]];
      [exfalso; apply (nn_not_bad _ Hn); right; exact E |].
    split; [constructor; assumption |].
    rewrite Hv. unfold near in Hnear.
    replace (y + Rsum (map (PrimFloat.mul c) l) - value c * (value x + Rsum l))
      with ((y - value c * value x)
            + (Rsum (map (PrimFloat.mul c) l) - value c * Rsum l)) by ring.
    eapply Rle_trans; [apply Rabs_triang |].
    nra.
Qed.

Lemma value_bounds (x : float) (m : positive) (e k : Z) :
  Prim2SF x = S754_finite false m e -> (0 <= k)%Z -> e = (- k)%Z ->
  nn x /\ value x = IZR (Z.pos m) / IZR (2 ^ k).
Proof.
  intros H Hk ->.
  destruct (value_finite x m (- k) H) as [Hn Hv].
  split; [exact Hn |].
  rewrite Hv, bpow_neg_IZR by exact Hk; reflexivity.
Qed.

(** The tolerance [1e-6] and the bound [0.01] of the weight checks, as the
    floats they are. *)
Lemma tolerance_value :
  nn 1e-6%float /\ 9 / 10000000 <= value 1e-6%float <= 11 / 10000000.
Proof.
  destruct (value_bounds 1e-6%float 4722366482869645 (-72) 72 eq_refl
              ltac:(lia) eq_refl) as [Hn Hv].
  split; [exact Hn |].
  rewrite Hv.
  change (2 ^ 72)%Z with 4722366482869645213696%Z.
  lra.
Qed.

Lemma lit_0_01_value :
  nn (1 / 100)%float /\
  999 / 100000 <= value (1 / 100)%float <= 1001 / 100000.
Proof.
  destruct (value_bounds (1 / 100)%float 5764607523034235 (-59) 59 eq_refl
              ltac:(lia) eq_refl) as [Hn Hv].
  split; [exact Hn |].
  rewrite Hv.
  change (2 ^ 59)%Z with 576460752303423488%Z.
  lra.
Qed.

Lemma u_small : u <= 2 / 10000000000000000.
Proof. unfold u; lra. Qed.

Lemma bpow_23 : bpow 1023 = 8388608 * bpow 1000.
Proof.
  change 1023%Z with (23 + 1000)%Z; rewrite bpow_add.
  rewrite <- (bpow_IZR 23) by lia. reflexivity.
Qed.

Lemma eta_bound : eta <= / 10000000000000000000000 * bpow (-1000).
Proof.
  rewrite eta_small.
  pose proof (bpow_pos (-1000)).
  apply Rmult_le_compat_r; [lra |].
  replace (bpow (-75)) with (/ IZR (2 ^ 75))
    by (symmetry; apply (bpow_neg_IZR 75); lia).
  change (2 ^ 75)%Z with 37778931862957161709568%Z.
  lra.
Qed.

Lemma bpow_1000 : bpow (-1000) * bpow 1000 = 1.
Proof. rewrite <- bpow_add; reflexivity. Qed.

(** The range of the capital: from [1e-300] to [1e300]. *)
Lemma capital_range (cap : float) :
  (1e-300 <=? cap)%float = true -> (cap <=? 1e300)%float = true ->
  nn cap /\ bpow (-1000) <= value cap <= bpow 1000.
Proof.
  intros Hlo Hhi.
  destruct (value_finite 1e-300%float 6032057205060441 (-1049) eq_refl)
    as [Hnl Hvl].
  destruct (value_finite 1e300%float 6724873095247260 944 eq_refl)
    as [Hnh Hvh].
  assert (Hn : nn cap) by (apply (leb_between _ _ _ Hnl Hnh Hlo Hhi)).
  split; [exact Hn |].
  apply (leb_value _ _ Hnl Hn) in Hlo.
  apply (leb_value _ _ Hn Hnh) in Hhi.
  rewrite Hvl in Hlo; rewrite Hvh in Hhi.
  split.
  - eapply Rle_trans; [| exact Hlo].
    apply bpow_le_value; [lia |].
    change (-1000 - -1049)%Z with 49%Z.
    change (2 ^ 49)%Z with 562949953421312%Z. lia.
  - eapply Rle_trans; [exact Hhi |].
    apply value_le_bpow; [lia |].
    change (1000 - 944)%Z with 56%Z.
    change (2 ^ 56)%Z with 72057594037927936%Z. lia.
Qed.

Lemma abs_le_inv (x y b : R) : Rabs (x - y) <= b -> y - b <= x <= y + b.
Proof.
  intros H.
  pose proof (Rle_abs (x - y)).
  pose proof (Rle_abs (- (x - y))) as H'. rewrite Rabs_Ropp in H'.
  lra.
Qed.

(** The sum of the capital times each weight, for weights that are not
    negative and whose sum is the float 1.0, is within 1.2e-9 of the
    capital, relatively. *)
Lemma weighted_capital (cap : float) (weights : list float) :
  Forall notneg weights ->
  fold_left PrimFloat.add weights PrimFloat.zero = 1%float ->
  (Z.of_nat (List.length weights) <= 1000000)%Z ->
  nn cap -> bpow (-1000) <= value cap <= bpow 1000 ->
  let first := fold_left PrimFloat.add (map (PrimFloat.mul cap) weights) PrimFloat.zero in
  nn first /\
  Rabs (value first - value cap) <= 12 / 10000000000 * value cap.
Proof.
  intros Hw Hsum Hlen Hc Hrange first.
  pose proof u_pos as Hu. pose proof u_small as Hus.
  pose proof eta_pos as Heta. pose proof eta_bound as Hetab.
  pose proof (bpow_pos (-1000)) as Hb. pose proof (bpow_pos 1000) as HB.
  pose proof bpow_1000 as HbB. pose proof bpow_23 as H23.
  set (b := bpow (-1000)) in *. set (B := bpow 1000) in *.
  set (c := value cap) in *.
  assert (HN : INR (List.length weights) <= 1000000).
  { rewrite INR_IZR_INZ; apply IZR_le; exact Hlen. }
  pose proof (pos_INR (List.length weights)) as HN0.
  set (N := INR (List.length weights)) in *.
  assert (Ha : N * u <= 2 / 10000000000).
  { apply Rle_trans with (1000000 * u); [apply Rmult_le_compat_r; lra | lra]. }
  assert (Ha0 : 0 <= N * u) by (apply Rmult_le_pos; lra).
  (* the weights *)
  assert (Hone : nn (fold_left PrimFloat.add weights PrimFloat.zero))
    by (rewrite Hsum; exact nn_one).
  destruct (fold_nn_inv weights PrimFloat.zero (or_introl nn_zero) Hw
              ltac:(fold N; lra) Hone) as (_ & Hnw & Hlo & Hhi).
  rewrite Hsum, value_one, value_zero in Hlo, Hhi.
  fold N in Hlo, Hhi.
  pose proof (Rsum_nonneg weights Hnw) as HW0.
  set (W := Rsum weights) in *.
  rewrite Rplus_0_l in Hlo, Hhi.
  assert (HW1 : W <= 1 + 4 / 10000000000).
  { assert ((1 - 2 / 10000000000) * W <= (1 - N * u) * W)
      by (apply Rmult_le_compat_r; lra).
    lra. }
  assert (HW2 : 1 - 4 / 10000000000 <= W).
  { assert ((1 + 2 * N * u) * W <= (1 + 4 / 10000000000) * W)
      by (apply Rmult_le_compat_r; lra).
    lra. }
  (* the products *)
  assert (HP1 : c * W <= (1 + 4 / 10000000000) * c) by nra.
  assert (HP2 : (1 - 4 / 10000000000) * c <= c * W) by nra.
  assert (HP0 : 0 <= c * W) by nra.
  destruct (scaled_terms cap weights Hc Hnw ltac:(fold c W; nra)) as [Hnt Het].
  fold c W N in Het.
  apply abs_le_inv in Het.
  pose proof (Rsum_nonneg _ Hnt) as HT0.
  set (St := Rsum (map (PrimFloat.mul cap) weights)) in *.
  assert (HNeta : N * eta <= / 10000000000000000 * c).
  { apply Rle_trans with (1000000 * eta); [apply Rmult_le_compat_r; lra | lra]. }
  assert (HuP : u * (c * W) <= 2 / 10000000000000000 * (c * W))
    by (apply Rmult_le_compat_r; lra).
  assert (HuP0 : 0 <= u * (c * W)) by (apply Rmult_le_pos; lra).
  assert (HSt1 : St <= (1 + 5 / 10000000000) * c) by lra.
  assert (HSt2 : (1 - 5 / 10000000000) * c <= St) by lra.
  (* their sum *)
  assert (Hlenmap : INR (List.length (map (PrimFloat.mul cap) weights)) = N)
    by (rewrite length_map; reflexivity).
  assert (Hnf : nn first).
  { apply fold_nn; [exact nn_zero | exact Hnt | rewrite Hlenmap; lra |].
    rewrite Hlenmap, value_zero, Rplus_0_l; fold St.
    assert ((1 + 2 * N * u) * St <= (1 + 4 / 10000000000) * St)
      by (apply Rmult_le_compat_r; lra).
    nra. }
  split; [exact Hnf |].
  destruct (fold_nn_inv _ PrimFloat.zero (or_introl nn_zero)
              (Forall_impl _ (fun x H => or_introl H) Hnt)
              ltac:(rewrite Hlenmap; lra) Hnf) as (_ & _ & HTlo & HThi).
  rewrite Hlenmap, value_zero, Rplus_0_l in HTlo, HThi.
  fold first St in HTlo, HThi.
  assert (H1 : (1 + 2 * N * u) * St <= (1 + 4 / 10000000000) * St)
    by (apply Rmult_le_compat_r; lra).
  assert (H2 : (1 - 2 / 10000000000) * St <= (1 - N * u) * St)
    by (apply Rmult_le_compat_r; lra).
  apply Rabs_le; lra.
Qed.

(** What is within 1.2e-9 of the capital passes the test
    [abs (first - cap) <= 1e-6 * cap] of the floats. *)
Lemma within_tolerance (first cap : float) :
  nn first -> nn cap -> bpow (-1000) <= value cap <= bpow 1000 ->
  Rabs (value first - value cap) <= 12 / 10000000000 * value cap ->
  (PrimFloat.abs (first - cap) <=? 1e-6 * cap)%float = true.
Proof.
  intros Hf Hc Hrange Hclose.
  pose proof u_pos as Hu. pose proof u_small as Hus.
  pose proof eta_pos as Heta. pose proof eta_bound as Hetab.
  pose proof (bpow_pos (-1000)) as Hb. pose proof (bpow_pos 1000) as HB.
  pose proof bpow_1000 as HbB. pose proof bpow_23 as H23.
  destruct tolerance_value as [Hnt Hvt].
  set (b := bpow (-1000)) in *. set (B := bpow 1000) in *.
  set (c := value cap) in *.
  set (t := value 1e-6%float) in *.
  pose proof (Rabs_pos (value first - c)) as Hd0.
  set (d := Rabs (value first - c)) in *.
  destruct (sub_abs_result first cap Hf Hc) as (y & Hy & Hres & Hcl & Hfin).
  fold c d in Hcl, Hfin.
  assert (Hnd : nn (PrimFloat.abs (first - cap))) by (apply Hfin; nra).
  destruct Hres as [E | [_ Hv]];
    [exfalso; apply (nn_not_bad _ Hnd); right; exact E |].
  destruct (mul_result 1e-6%float cap Hnt Hc) as (y' & Hy' & Hres' & Hnear & Hfin').
  fold c t in Hnear, Hfin'.
  assert (Htc1 : t * c <= 11 / 10000000 * c) by nra.
  assert (Htc2 : 9 / 10000000 * c <= t * c) by nra.
  assert (Hnm : nn (1e-6 * cap)%float) by (apply Hfin'; nra).
  destruct Hres' as [E | [_ Hv']];
    [exfalso; apply (nn_not_bad _ Hnm); right; exact E |].
  apply (leb_value _ _ Hnd Hnm).
  rewrite Hv, Hv'.
  unfold close in Hcl; unfold near in Hnear.
  apply abs_le_inv in Hcl; apply abs_le_inv in Hnear.
  assert (Hud : u * d <= 2 / 10000000000000000 * d)
    by (apply Rmult_le_compat_r; lra).
  assert (Hut : u * (t * c) <= 2 / 10000000000000000 * (t * c))
    by (apply Rmult_le_compat_r; lra).
  lra.
Qed.

(** *** The grid of weights *)

Lemma mul_notneg (a b : float) : notneg a -> notneg b -> notneg (a * b)%float.
Proof.
  intros Ha Hb.
  destruct Ha as [Ha | Ha], Hb as [Hb | Hb].
  - destruct (mul_result a b Ha Hb) as (y & _ & Hres & _).
    apply result_bad in Hres; exact Hres.
  - right. unfold nn, bad in *. rewrite FloatAxioms.mul_spec.
    destruct (Prim2SF a) as [sa | sa | | [|] ma ea]; cbn [SFnn] in Ha; try tauto;
      destruct Hb as [-> | ->]; unfold SF64mul, SFmul; cbn [xorb]; tauto.
  - right. unfold nn, bad in *. rewrite FloatAxioms.mul_spec.
    destruct (Prim2SF b) as [sb | sb | | [|] mb eb]; cbn [SFnn] in Hb; try tauto;
      destruct Ha as [-> | ->]; unfold SF64mul, SFmul; cbn [xorb]; tauto.
  - right. unfold bad in *. rewrite FloatAxioms.mul_spec.
    destruct Ha as [-> | ->], Hb as [-> | ->]; unfold SF64mul, SFmul;
      cbn [xorb]; tauto.
Qed.

Lemma of_Z_notneg (i : Z) : (0 <= i)%Z -> notneg (Binary64.of_Z i).
Proof.
  intros Hi; destruct i as [| p | p]; [left; exact I | | lia].
  unfold Binary64.of_Z, notneg, nn, bad.
  rewrite FloatAxioms.of_uint63_spec.
  pose proof (Uint63.to_Z_bounded (Uint63.of_Z (Z.pos p))) as [Hlo _].
  destruct (Uint63.to_Z (Uint63.of_Z (Z.pos p))) as [| q | q]; [left; exact I | | lia].
  cbn [binary_normalize].
  destruct (binary_round_outcome false q 0 ltac:(lia)) as (y & _ & Hout & _).
  apply rounded_nn in Hout.
  destruct Hout as [E | [Hn _]]; [right; right; exact E | left; exact Hn].
Qed.

Lemma positive_notneg (x : float) : (PrimFloat.zero <? x)%float = true -> notneg x.
Proof.
  rewrite FloatAxioms.ltb_spec, Prim2SF_zero.
  unfold notneg, nn, bad, SFltb.
  destruct (Prim2SF x) as [s | [|] | | [|] m e]; cbn [SFcompare SFnn];
    intros H; try discriminate; tauto.
Qed.

(** *** The test of a sum against 1.0 *)

(** A sum that is not a finite number fails [abs(sum - 1.0) < 0.01]. *)
Lemma bad_sum_far (s : float) :
  bad s -> (PrimFloat.abs (s - 1) <? 1 / 100)%float = false.
Proof.
  unfold bad.
  rewrite FloatAxioms.ltb_spec, FloatAxioms.abs_spec, FloatAxioms.sub_spec.
  intros [-> | ->]; reflexivity.
Qed.

Lemma overflow_not_below (d x : float) :
  Prim2SF d = S754_infinity false -> (d <? x)%float = false.
Proof.
  rewrite FloatAxioms.ltb_spec; intros ->.
  unfold SFltb; destruct (Prim2SF x) as [s | [|] | | s m e]; reflexivity.
Qed.

(** A finite sum that is not negative and passes the test is within 0.0101
    of 1. *)
Lemma sum_near_one (s : float) :
  nn s -> (PrimFloat.abs (s - 1) <? 1 / 100)%float = true ->
  Rabs (value s - 1) <= 101 / 10000.
Proof.
  intros Hs Htest.
  pose proof u_pos as Hu. pose proof u_small as Hus.
  destruct lit_0_01_value as [Hnl Hvl].
  destruct (sub_abs_result s 1%float Hs nn_one) as (y & Hy & Hres & Hcl & _).
  rewrite value_one in Hcl.
  destruct Hres as [E | [Hnd Hv]].
  - rewrite (overflow_not_below _ _ E) in Htest; discriminate.
  - apply (ltb_value _ _ Hnd Hnl) in Htest.
    rewrite Hv in Htest.
    unfold close in Hcl. apply abs_le_inv in Hcl.
    pose proof (Rabs_pos (value s - 1)) as Hd0.
    set (d := Rabs (value s - 1)) in *.
    assert (u * d <= 2 / 10000000000000000 * d)
      by (apply Rmult_le_compat_r; lra).
    lra.
Qed.

(** A finite sum within 1.2e-9 of 1 passes [abs(sum - 1.0) > 0.01] as
    false. *)
Lemma sum_at_one (s : float) :
  nn s -> Rabs (value s - 1) <= 12 / 10000000000 ->
  (1 / 100 <? PrimFloat.abs (s - 1))%float = false.
Proof.
  intros Hs Hclose.
  pose proof u_pos as Hu. pose proof u_small as Hus.
  pose proof (bpow_pos 1000) as HB. pose proof bpow_23 as H23.
  pose proof (bpow_le 0 1000 ltac:(lia)) as H1; change (bpow 0) with 1 in H1.
  destruct lit_0_01_value as [Hnl Hvl].
  destruct (sub_abs_result s 1%float Hs nn_one) as (y & Hy & Hres & Hcl & Hfin).
  rewrite value_one in Hcl, Hfin.
  assert (Hnd : nn (PrimFloat.abs (s - 1))) by (apply Hfin; lra).
  destruct Hres as [E | [_ Hv]];
    [exfalso; apply (nn_not_bad _ Hnd); right; exact E |].
  destruct (1 / 100 <? PrimFloat.abs (s - 1))%float eqn:Ht; [| reflexivity].
  apply (ltb_value _ _ Hnl Hnd) in Ht.
  rewrite Hv in Ht.
  unfold close in Hcl. apply abs_le_inv in Hcl.
  pose proof (Rabs_pos (value s - 1)) as Hd0.
  set (d := Rabs (value s - 1)) in *.
  assert (u * d <= 2 / 10000000000000000 * d)
    by (apply Rmult_le_compat_r; lra).
  lra.
Qed.

(** *** A list of numbers divided by a number *)

Lemma divided_terms (s : float) (ws : list float) :
  nn s -> 0 < value s -> Forall nn ws ->
  Rsum ws / value s < bpow 1023 ->
  Forall nn (map (fun w => (w / s)%float) ws) /\
  Rabs (Rsum (map (fun w => (w / s)%float) ws) - Rsum ws / value s)
  <= u * (Rsum ws / value s) + INR (List.length ws) * eta.
Proof.
  intros Hs Hpos Hws.
  pose proof u_pos as Hu. pose proof eta_pos as Heta.
  assert (Hinv : 0 < / value s) by (apply Rinv_0_lt_compat; exact Hpos).
  induction Hws as [| x l Hx Hl IH]; intros Hsmall.
  - simpl. split; [constructor |].
    replace (0 - 0 / value s) with 0 by (field; lra).
    replace (0 / value s) with 0 by (field; lra).
    rewrite Rabs_R0. lra.
  - cbn [map Rsum fold_right List.length] in *; fold (Rsum l) in *.
    fold (Rsum (map (fun w => (w / s)%float) l)).
    rewrite S_INR.
    pose proof (nn_value x Hx) as Hx0.
    pose proof (Rsum_nonneg l Hl) as Hs0.
    replace ((value x + Rsum l) / value s)
      with (value x / value s + Rsum l / value s) in * by (field; lra).
    assert (Hqx : 0 <= value x / value s)
      by (apply Rmult_le_pos; lra).
    assert (Hqs : 0 <= Rsum l / value s)
      by (apply Rmult_le_pos; lra).
    destruct IH as [IHn IHe]; [lra |].
    destruct (div_result x s Hx Hs Hpos) as (y & Hy & Hres & Hnear & Hfin).
    assert (Hn : nn (x / s)%float) by (apply Hfin; lra).
    destruct Hres as [E | [_ Hv]];
      [exfalso; apply (nn_not_bad _ Hn); right; exact E |].
    split; [constructor; assumption |].
    rewrite Hv. unfold near in Hnear.
    replace (y + Rsum (map (fun w => (w / s)%float) l)
             - (value x / value s + Rsum l / value s))
      with ((y - value x / value s)
            + (Rsum (map (fun w => (w / s)%float) l) - Rsum l / value s)) by ring.
    eapply Rle_trans; [apply Rabs_triang |].
    lra.
Qed.

(** A tuple of numbers that are not negative, whose sum passes the test of
    the grid search, has a positive finite sum; divided by it, the tuple
    has a sum within 1.2e-9 of 1. *)
Lemma normalised_sum (raw : list float) :
  Forall notneg raw ->
  (Z.of_nat (List.length raw) <= 1000000)%Z ->
  let s := fold_left PrimFloat.add raw PrimFloat.zero in
  (PrimFloat.abs (s - 1) <? 1 / 100)%float = true ->
  let normalized := map (fun w => (w / s)%float) raw in
  let s' := fold_left PrimFloat.add normalized PrimFloat.zero in
  nn s /\ 0 < value s /\ Forall nn normalized /\
  nn s' /\ Rabs (value s' - 1) <= 12 / 10000000000.
Proof.
  intros Hraw Hlen s Htest normalized s'.
  pose proof u_pos as Hu. pose proof u_small as Hus.
  pose proof eta_pos as Heta. pose proof eta_bound as Hetab.
  pose proof (bpow_pos (-1000)) as Hb. pose proof (bpow_pos 1000) as HB.
  pose proof bpow_1000 as HbB. pose proof bpow_23 as H23.
  pose proof (bpow_le 0 1000 ltac:(lia)) as H1; change (bpow 0) with 1 in H1.
  pose proof (bpow_le (-1000) 0 ltac:(lia)) as Hb1; change (bpow 0) with 1 in Hb1.
  set (b := bpow (-1000)) in *. set (B := bpow 1000) in *.
  assert (HN : INR (List.length raw) <= 1000000).
  { rewrite INR_IZR_INZ; apply IZR_le; exact Hlen. }
  pose proof (pos_INR (List.length raw)) as HN0.
  set (N := INR (List.length raw)) in *.
  assert (Ha : N * u <= 2 / 10000000000).
  { apply Rle_trans with (1000000 * u); [apply Rmult_le_compat_r; lra | lra]. }
  assert (Ha0 : 0 <= N * u) by (apply Rmult_le_pos; lra).
  (* the sum of the tuple *)
  assert (Hs : nn s).
  { destruct (fold_notneg raw PrimFloat.zero (or_introl nn_zero) Hraw) as [H | H];
      [exact H |].
    fold s in H. rewrite (bad_sum_far s H) in Htest; discriminate. }
  destruct (fold_nn_inv raw PrimFloat.zero (or_introl nn_zero) Hraw
              ltac:(fold N; lra) Hs) as (_ & Hnr & Hlo & Hhi).
  fold s N in Hlo, Hhi. rewrite value_zero, Rplus_0_l in Hlo, Hhi.
  pose proof (Rsum_nonneg raw Hnr) as HW0.
  set (W := Rsum raw) in *.
  pose proof (sum_near_one s Hs Htest) as Hone.
  apply abs_le_inv in Hone.
  set (vs := value s) in *.
  assert (Hpos : 0 < vs) by lra.
  split; [exact Hs |]. split; [exact Hpos |].
  (* the quotient of the exact sum by the float sum *)
  assert (Hinv : 0 < / vs) by (apply Rinv_0_lt_compat; exact Hpos).
  set (R := W / vs).
  assert (HR0 : 0 <= R) by (apply Rmult_le_pos; lra).
  assert (HRlo : (1 - N * u) * R <= 1).
  { unfold R. apply Rmult_le_reg_r with vs; [exact Hpos |].
    replace ((1 - N * u) * (W / vs) * vs) with ((1 - N * u) * W) by (field; lra).
    lra. }
  assert (HRhi : 1 <= (1 + 2 * N * u) * R).
  { unfold R. apply Rmult_le_reg_r with vs; [exact Hpos |].
    replace ((1 + 2 * N * u) * (W / vs) * vs) with ((1 + 2 * N * u) * W)
      by (field; lra).
    lra. }
  assert (HR1 : R <= 1 + 4 / 10000000000).
  { assert ((1 - 2 / 10000000000) * R <= (1 - N * u) * R)
      by (apply Rmult_le_compat_r; lra).
    lra. }
  assert (HR2 : 1 - 4 / 10000000000 <= R).
  { assert ((1 + 2 * N * u) * R <= (1 + 4 / 10000000000) * R)
      by (apply Rmult_le_compat_r; lra).
    lra. }
  destruct (divided_terms s raw Hs Hpos Hnr ltac:(fold vs W R; lra)) as [Hnt Het].
  fold vs W R N normalized in Hnt, Het.
  apply abs_le_inv in Het.
  pose proof (Rsum_nonneg _ Hnt) as HT0.
  set (St := Rsum normalized) in *.
  assert (HNeta : N * eta <= / 10000000000000000).
  { apply Rle_trans with (1000000 * eta); [apply Rmult_le_compat_r; lra | lra]. }
  assert (HuR : u * R <= 2 / 10000000000000000 * R)
    by (apply Rmult_le_compat_r; lra).
  assert (HuR0 : 0 <= u * R) by (apply Rmult_le_pos; lra).
  split; [exact Hnt |].
  assert (Hlenmap : INR (List.length normalized) = N)
    by (unfold normalized; rewrite length_map; reflexivity).
  assert (Hns : nn s').
  { apply fold_nn; [exact nn_zero | exact Hnt | rewrite Hlenmap; lra |].
    rewrite Hlenmap, value_zero, Rplus_0_l; fold St.
    assert ((1 + 2 * N * u) * St <= (1 + 4 / 10000000000) * St)
      by (apply Rmult_le_compat_r; lra).
    lra. }
  split; [exact Hns |].
  destruct (fold_nn_inv _ PrimFloat.zero (or_introl nn_zero)
              (Forall_impl _ (fun x H => or_introl H) Hnt)
              ltac:(rewrite Hlenmap; lra) Hns) as (_ & _ & HTlo & HThi).
  rewrite Hlenmap, value_zero, Rplus_0_l in HTlo, HThi.
  fold s' St in HTlo, HThi.
  assert (H2 : (1 + 2 * N * u) * St <= (1 + 4 / 10000000000) * St)
    by (apply Rmult_le_compat_r; lra).
  assert (H3 : (1 - 2 / 10000000000) * St <= (1 - N * u) * St)
    by (apply Rmult_le_compat_r; lra).
  apply Rabs_le; lra.
Qed.

(** *** A step that is not positive *)

(** What [0 < x] is false of: NaN, the zeros and the negative numbers. *)
Lemma not_positive_spec (x : float) :
  (PrimFloat.zero <? x)%float = false <->
  match Prim2SF x with
  | S754_infinity false | S754_finite false _ _ => False
  | _ => True
  end.
Proof.
  rewrite FloatAxioms.ltb_spec, Prim2SF_zero; unfold SFltb.
  destruct (Prim2SF x) as [s | [|] | | [|] m e]; cbn [SFcompare];
    split; intros H; try reflexivity; try discriminate; tauto.
Qed.

Lemma rounded_not_positive (r : spec_float) (y : R) :
  rounded r true y ->
  match r with
  | S754_infinity false | S754_finite false _ _ => False
  | _ => True
  end.
Proof.
  intros [-> | [[-> | (m & e & ->)] _]]; exact I.
Qed.

Lemma add_not_positive (a b : float) :
  (PrimFloat.zero <? a)%float = false -> (PrimFloat.zero <? b)%float = false ->
  (PrimFloat.zero <? a + b)%float = false.
Proof.
  rewrite !not_positive_spec, FloatAxioms.add_spec.
  pose proof (FloatAxioms.Prim2SF_valid a) as Va.
  pose proof (FloatAxioms.Prim2SF_valid b) as Vb.
  destruct (Prim2SF a) as [sa | [|] | | [|] ma ea]; try tauto;
    destruct (Prim2SF b) as [sb | [|] | | [|] mb eb]; try tauto;
    intros _ _; unfold SF64add, SFadd; try exact I;
    try (destruct sa, sb; exact I).
  cbn zeta; cbn [cond_Zopp].
  apply valid_finite in Va as [Hca Hea], Vb as [Hcb Heb].
  change (- Z.pos (fst (shl_align ma ea (Z.min ea eb)))
          + - Z.pos (fst (shl_align mb eb (Z.min ea eb))))%Z
    with (Z.neg (fst (shl_align ma ea (Z.min ea eb))
                 + fst (shl_align mb eb (Z.min ea eb)))).
  cbn [binary_normalize].
  destruct (binary_round_outcome true
              (fst (shl_align ma ea (Z.min ea eb)) + fst (shl_align mb eb (Z.min ea eb)))
              (Z.min ea eb) ltac:(lia)) as (y & _ & Hout & _).
  exact (rounded_not_positive _ _ Hout).
Qed.

Lemma mul_not_positive (a b : float) :
  notneg a -> (PrimFloat.zero <? b)%float = false ->
  (PrimFloat.zero <? a * b)%float = false.
Proof.
  rewrite !not_positive_spec, FloatAxioms.mul_spec.
  unfold notneg, nn, bad.
  destruct (Prim2SF a) as [sa | [|] | | [|] ma ea]; cbn [SFnn];
    try (intros [[] | [H | H]]; discriminate);
    destruct (Prim2SF b) as [sb | [|] | | [|] mb eb]; try tauto;
    intros _ _; unfold SF64mul, SFmul; cbn [xorb]; try exact I.
  destruct (round_outcome true (Z.pos (ma * mb)) (ea + eb) loc_Exact
              (Z.pos (ma * mb)) 1
              (holds_exact (Z.pos (ma * mb)) ltac:(lia)) (or_intror eq_refl))
    as (y & _ & Hout & _).
  exact (rounded_not_positive _ _ Hout).
Qed.

Lemma fold_not_positive (l : list float) :
  forall acc,
    (PrimFloat.zero <? acc)%float = false ->
    Forall (fun x => (PrimFloat.zero <? x)%float = false) l ->
    (PrimFloat.zero <? fold_left PrimFloat.add l acc)%float = false.
Proof.
  induction l as [| x l IH]; intros acc Hacc Hl; simpl; [exact Hacc |].
  inversion Hl; subst.
  apply IH; [apply add_not_positive |]; assumption.
Qed.

(** A sum that is not positive fails [abs(sum - 1.0) < 0.01]. *)
Lemma not_positive_sum_far (s : float) :
  (PrimFloat.zero <? s)%float = false ->
  (PrimFloat.abs (s - 1) <? 1 / 100)%float = false.
Proof.
  intros Hs.
  destruct ((PrimFloat.abs (s - 1) <? 1 / 100)%float) eqn:Htest; [| reflexivity].
  exfalso.
  apply not_positive_spec in Hs.
  pose proof (FloatAxioms.Prim2SF_valid s) as Vs.
  destruct lit_0_01_value as [Hnl Hvl].
  pose proof u_pos as Hu. pose proof u_small as Hus.
  assert (Hcase :
    (PrimFloat.abs (s - 1) <? 1 / 100)%float = false \/
    exists y : R, 1 - u <= y /\ result (PrimFloat.abs (s - 1)) y).
  { unfold result, nn, value.
    rewrite FloatAxioms.ltb_spec, FloatAxioms.abs_spec, FloatAxioms.sub_spec.
    change (Prim2SF 1) with (S754_finite false 4503599627370496 (-52)).
    destruct (Prim2SF s) as [ss | [|] | | [|] m e]; try tauto;
      try (left; reflexivity).
    right.
    unfold SF64sub, SFsub; cbn zeta; cbn [cond_Zopp].
    apply valid_finite in Vs as [Hc He].
    destruct (aligned_sum m 4503599627370496 e (-52)) as [HMa HMb];
      cbn zeta in HMa, HMb.
    set (ez := Z.min e (-52)) in *.
    set (Ma := fst (shl_align m e ez)) in *.
    set (Mb := fst (shl_align 4503599627370496 (-52) ez)) in *.
    change (- Z.pos Ma - Z.pos Mb)%Z with (Z.neg (Ma + Mb)).
    cbn [binary_normalize].
    destruct (binary_round_outcome true (Ma + Mb) ez ltac:(unfold ez; lia))
      as (y & Hy & Hout & Hclose & _).
    cbn zeta in Hclose.
    assert (HX : 1 <= IZR (Z.pos (Ma + Mb)) * bpow ez).
    { rewrite Pos2Z.inj_add, plus_IZR, Rmult_plus_distr_r, HMa, HMb.
      pose proof (bpow_pos e).
      assert (0 < IZR (Z.pos m)) by (apply IZR_lt; lia).
      assert (IZR 4503599627370496 * bpow (-52) = 1).
      { replace (bpow (-52)) with (/ IZR (2 ^ 52))
          by (symmetry; apply (bpow_neg_IZR 52); lia).
        change (2 ^ 52)%Z with 4503599627370496%Z. field. }
      nra. }
    unfold close in Hclose. apply abs_le_inv in Hclose.
    exists y; split; [nra |].
    destruct Hout as [-> | [[-> | (m' & e' & ->)] Hv]]; cbn [SFabs].
    - left; reflexivity.
    - right; split; [exact I | simpl in *; lra].
    - right; split; [exact I | cbn [SF2R] in *; lra]. }
  destruct Hcase as [Hf | (y & Hy & [E | [Hnd Hv]])].
  - rewrite Hf in Htest; discriminate.
  - rewrite (overflow_not_below _ _ E) in Htest; discriminate.
  - apply (ltb_value _ _ Hnd Hnl) in Htest.
    rewrite Hv in Htest. lra.
Qed.

End RoundingError.

(** ** Running the program *)

Module Examples.

Import Run.

(** The literal [0.01] of the program is the double Python reads. *)
Example lit_0_01_binary64 : lit_0_01 = 0.01%float.
Proof. vm_compute; reflexivity. Qed.

(** The example of the specification: A and B blended 50/50 from 20000. *)
Example blend_half_half :
  returned_series
    (combine_portfolios [hsbc; whgroup] [0.5; 0.5]%float 20000%float two_curves)
  = [20000; 21500; 22000; 23000]%float.
Proof. vm_compute; reflexivity. Qed.

(** Weights that sum to 0.995 pass the check and scale the blend. *)
Example blend_0995 :
  returned_series
    (combine_portfolios [hsbc; whgroup] [0.5; 0.495]%float 20000%float two_curves)
  = [19900; 21395; 21900; 22860]%float.
Proof. vm_compute; reflexivity. Qed.

(** The default grid has eleven points. *)
Example default_grid :
  np_arange 0%float (1 + 0.1)%float 0.1%float
  = Return [0; 0.1; 0.2; 0.30000000000000004; 0.4; 0.5;
            0.6000000000000001; 0.7000000000000001; 0.8; 0.9; 1]%float.
Proof. vm_compute; reflexivity. Qed.

(** On the default grid, for two and for three strategies, the filter keeps
    11 and 66 tuples; each has a positive sum, and its normalised form
    passes the weight check of the combiner. *)
Example default_grid_tuples :
  let grid := [0; 0.1; 0.2; 0.30000000000000004; 0.4; 0.5;
               0.6000000000000001; 0.7000000000000001; 0.8; 0.9; 1]%float in
  let safe (raw : list float) :=
    fltb 0%float (py_sum raw) && negb (weights_rejected (normalize raw)) in
  (List.length (kept_tuples grid 2) = 11%nat /\
   forallb safe (kept_tuples grid 2) = true) /\
  (List.length (kept_tuples grid 3) = 66%nat /\
   forallb safe (kept_tuples grid 3) = true).
Proof. repeat split; vm_compute; reflexivity. Qed.

(** A curve of one value, and a flat curve of three, in binary64. *)
Example flat_curves_binary64 :
  option_map (@sharpe_ratio float) (calculate_portfolio_metrics [5%float] 20000%float)
  = Some 0%float /\
  option_map (@sharpe_ratio float)
    (calculate_portfolio_metrics [5%float; 5%float; 5%float] 20000%float)
  = Some 0%float.
Proof. split; vm_compute; reflexivity. Qed.

(** A curve that rises to 120 and falls to 90 has lost a quarter. *)
Example max_drawdown_binary64 :
  option_map (@max_drawdown float)
    (calculate_portfolio_metrics [100; 120; 90]%float 20000%float)
  = Some (-25)%float.
Proof. vm_compute; reflexivity. Qed.

End Examples.

(** ** The two histories *)

Lemma two_curves_sorted (s : strategy) (df : frame float) :
  frame_of Run.two_curves s = Some df -> StronglySorted Z.lt (index df).
Proof.
  unfold frame_of, Run.two_curves.
  destruct (String.eqb _ "0005.HK_aggressive").
  - intros [= <-]; simpl; repeat constructor; lia.
  - destruct (String.eqb _ "0288.HK_conservative"); [| discriminate].
    intros [= <-]; simpl; repeat constructor; lia.
Qed.

Lemma two_curves_readable (s : strategy) :
  In s [Run.hsbc; Run.whgroup] -> frame_of Run.two_curves s <> None.
Proof.
  intros [<- | [<- | []]]; unfold frame_of, Run.two_curves; simpl; discriminate.
Qed.

(** * The claims *)

(** ** C1: The first value of the blend *)

(** When every history is worth a positive finite amount on the first
    common date, every curve is rebased to the capital itself on that date,
    and the blend starts with the sum, taken from zero in the order of the
    strategies, of the capital times each weight.  This holds in every
    reading of the numbers that has the laws of the arithmetic. *)
Lemma blend_first_value {F : Type} {ops : Float64 F}
    {laws : Float64Laws F} (strategies : list strategy) (weights : list F) (cap : F)
    (dir : directory F) (d0 : date) (rest : list date) :
  List.length weights = List.length strategies ->
  weights_rejected weights = false ->
  (forall s, In s strategies -> frame_of dir s <> None) ->
  common_dates_of (map (frame_or_empty dir) strategies) = Return (d0 :: rest) ->
  (forall s, In s strategies ->
     exists v, value_at (frame_or_empty dir s) d0 = Some v /\
               positive_finite v = true) ->
  exists tail,
    returned_series (combine_portfolios strategies weights cap dir)
    = py_sum (map (fmul cap) weights) :: tail.
Proof.
  intros Hlen Hw Hread Hcommon Hstart.
  rewrite returned_series_blended.
  rewrite (blended_defined strategies weights cap dir d0 rest Hw Hread Hcommon)
    by lia.
  unfold weighted_blend; cbn [map].
  eexists; f_equal.
  rewrite (terms_at_start dir d0 cap strategies weights Hlen Hstart).
  reflexivity.
Qed.

(** C1 (what holds instead).  In binary64: for at most 1000000 strategies
    whose histories are all readable, share a date, and are each worth a
    positive finite amount on the first common date, for as many weights,
    none of them negative, whose sum as [sum] computes it is exactly 1.0,
    and for a capital from 1e-300 to 1e300, the series [combine_portfolios]
    returns has a first value, and that value passes the test
    [abs(first - capital) <= 1e-6 * capital]. *)
Theorem blend_starts_at_capital (strategies : list strategy) (weights : list float)
    (cap : float) (dir : directory float) (d0 : date) (rest : list date) :
  List.length weights = List.length strategies ->
  (Z.of_nat (List.length strategies) <= 1000000)%Z ->
  Forall (fun w => (w <? 0)%float = false) weights ->
  (py_sum weights =? 1)%float = true ->
  (1e-300 <=? cap)%float = true -> (cap <=? 1e300)%float = true ->
  (forall s, In s strategies -> frame_of dir s <> None) ->
  common_dates_of (map (frame_or_empty dir) strategies) = Return (d0 :: rest) ->
  (forall s, In s strategies ->
     exists v, value_at (frame_or_empty dir s) d0 = Some v /\
               positive_finite v = true) ->
  exists first tail,
    returned_series (combine_portfolios strategies weights cap dir) = first :: tail /\
    (PrimFloat.abs (first - cap) <=? 1e-6 * cap)%float = true.
Proof.
  intros Hlen Hmany Hsigns Hsum Hlo Hhi Hread Hcommon Hstart.
  apply RoundingError.eqb_one in Hsum.
  assert (Hw : weights_rejected weights = false).
  { unfold weights_rejected; rewrite Hsum; vm_compute; reflexivity. }
  destruct (blend_first_value strategies weights cap dir d0 rest
              Hlen Hw Hread Hcommon Hstart) as (tail & Hseries).
  exists (py_sum (map (fmul cap) weights)), tail.
  split; [exact Hseries |].
  destruct (RoundingError.capital_range cap Hlo Hhi) as [Hc Hrange].
  assert (Hnotneg : Forall Rounding.notneg weights).
  { eapply Forall_impl; [| exact Hsigns].
    intros w; apply RoundingError.notneg_spec. }
  destruct (RoundingError.weighted_capital cap weights Hnotneg Hsum
              ltac:(rewrite Hlen; exact Hmany) Hc Hrange) as [Hfirst Hclose].
  exact (RoundingError.within_tolerance _ cap Hfirst Hc Hrange Hclose).
Qed.

Lemma blend_starts_at_capital_witness :
  exists first tail,
    returned_series
      (combine_portfolios [Run.hsbc; Run.whgroup] [0.6; 0.4]%float 20000%float
         Run.two_curves) = first :: tail /\
    (PrimFloat.abs (first - 20000) <=? 1e-6 * 20000)%float = true.
Proof.
  apply (blend_starts_at_capital [Run.hsbc; Run.whgroup] [0.6; 0.4]%float
           20000%float Run.two_curves 1%Z [2%Z; 3%Z; 4%Z]).
  - reflexivity.
  - simpl; lia.
  - repeat constructor.
  - vm_compute; reflexivity.
  - vm_compute; reflexivity.
  - vm_compute; reflexivity.
  - exact two_curves_readable.
  - reflexivity.
  - intros s [<- | [<- | []]]; exists 100%float; split; reflexivity.
Defined.

(** C1 fails when a history is worth nothing on the first common date: the
    program divides by that value.  With weights 0.5 and 0.5, which sum to
    exactly 1.0, and a first history that starts at 0, the blended series
    starts with NaN, which is not within any tolerance of the capital.  It
    also fails, in binary64, at the ends of the range of the floats, for
    histories that start at 100.  With the same weights and the smallest
    positive capital, the products of the capital and the weights are
    rounded away and the blend starts at 0.  With the greatest finite
    capital and the weights 1 and 2^-53, whose sum is rounded to exactly
    1.0, the sum of the products overflows and the blend starts at
    infinity. *)
Lemma blend_not_at_capital :
  (py_sum [0.5; 0.5]%float = 1%float /\
   returned_series
     (combine_portfolios [Run.hsbc; Run.whgroup] [0.5; 0.5]%float 20000%float
        Run.zero_start)
   = [PrimFloat.nan; PrimFloat.infinity] /\
   PrimFloat.leb (PrimFloat.abs (PrimFloat.nan - 20000)) (1e-6 * 20000) = false)
  /\
  (PrimFloat.ltb 0 5e-324 = true /\
   hd 1%float
     (returned_series
        (combine_portfolios [Run.hsbc; Run.whgroup] [0.5; 0.5]%float 5e-324%float
           Run.two_curves))
   = 0%float /\
   PrimFloat.leb (PrimFloat.abs (0 - 5e-324)) (1e-6 * 5e-324) = false)
  /\
  (py_sum [1; 1.1102230246251565e-16]%float = 1%float /\
   PrimFloat.ltb 1.7976931348623157e308 PrimFloat.infinity = true /\
   hd 1%float
     (returned_series
        (combine_portfolios [Run.hsbc; Run.whgroup]
           [1; 1.1102230246251565e-16]%float 1.7976931348623157e308%float
           Run.two_curves))
   = PrimFloat.infinity /\
   PrimFloat.leb (PrimFloat.abs (PrimFloat.infinity - 1.7976931348623157e308))
     (1e-6 * 1.7976931348623157e308) = false).
Proof. repeat split; vm_compute; reflexivity. Qed.

(** ** C2: The ranking *)

(** C2 (what the program does instead).  In every reading of the numbers
    whose comparisons have the laws of [KeyOrder], binary64 among them: for
    a cap [top_n] that is not negative, and when no Sharpe ratio among the
    successful combinations is NaN, the list [optimize_portfolio] returns is
    the beginning, of at most [top_n] entries, of the one arrangement of
    the successful combinations that is in descending order of Sharpe ratio
    with entries of equal Sharpe ratio in the order they were enumerated.
    So the ranking is in descending order itself, and its entries of any
    one Sharpe ratio are the first of those enumerated, in that order. *)
Theorem optimize_portfolio_ranking {F : Type} {ops : Float64 F} {ord : KeyOrder F}
    (strategies : list strategy) (cap : F) (dir : directory F) (weight_step : F)
    (top_n : Z) (weight_range : list F) (ranking : list (portfolio F)) :
  let results :=
    successes strategies (weight_combinations weight_range (List.length strategies))
      cap dir in
  (0 <= top_n)%Z ->
  np_arange (of_Z 0) (fadd (of_Z 1) weight_step) weight_step = Return weight_range ->
  keys_ordered results ->
  outcome (optimize_portfolio strategies cap dir weight_step top_n) = Return ranking ->
  exists sorted,
    stable_descending sorted results /\
    (forall other, stable_descending other results -> other = sorted) /\
    ranking = firstn (Z.to_nat top_n) sorted /\
    (Z.of_nat (List.length ranking) <= top_n)%Z /\
    StronglySorted descending ranking /\
    forall k, is_prefix (with_sharpe k ranking) (with_sharpe k results).
Proof.
  intros results Hn Hr Hkeys Hrun.
  rewrite (optimize_portfolio_outcome _ _ _ _ _ _ Hr) in Hrun.
  destruct (outcome (sweep strategies _ cap dir)) as [swept | e] eqn:Hs;
    try discriminate.
  apply sweep_returns in Hs; fold results in Hs; subst swept.
  inversion Hrun as [Hrank]; clear Hrun.
  rewrite (slice_to_nonneg _ _ Hn).
  pose proof (sort_by_sharpe_stable_descending results Hkeys) as Hsorted.
  exists (sort_by_sharpe results).
  split; [exact Hsorted |].
  split; [intros other Hother;
          exact (stable_descending_unique results _ _ Hkeys Hother Hsorted) |].
  split; [reflexivity |].
  destruct Hsorted as (_ & Hdesc & Hstable).
  repeat split.
  - pose proof (firstn_le_length (Z.to_nat top_n) (sort_by_sharpe results)).
    lia.
  - apply (StronglySorted_prefix _ _ (sort_by_sharpe results)); [| exact Hdesc].
    apply firstn_is_prefix.
  - intros k; rewrite <- (Hstable k).
    apply filter_is_prefix, firstn_is_prefix.
Qed.

Lemma optimize_portfolio_ranking_witness :
  let results :=
    successes [Run.hsbc; Run.whgroup]
      (weight_combinations [0%float; 0.5%float; 1%float] 2)
      20000%float Run.two_curves in
  let ranking := slice_to (sort_by_sharpe results) 2 in
  exists sorted,
    stable_descending sorted results /\
    (forall other, stable_descending other results -> other = sorted) /\
    ranking = firstn (Z.to_nat 2) sorted /\
    (Z.of_nat (List.length ranking) <= 2)%Z /\
    StronglySorted descending ranking /\
    forall k, is_prefix (with_sharpe k ranking) (with_sharpe k results).
Proof.
  apply (optimize_portfolio_ranking [Run.hsbc; Run.whgroup] 20000%float
           Run.two_curves 0.5%float 2 [0%float; 0.5%float; 1%float]).
  - lia.
  - vm_compute; reflexivity.
  - apply Forall_forall; intros p Hin.
    vm_compute in Hin.
    destruct Hin as [<- | [<- | [<- | []]]]; reflexivity.
  - vm_compute; reflexivity.
Defined.

(** C2 fails for a negative cap: [results[:-1]] is everything but the last
    entry.  Two strategies on a grid of step 0.5 give three combinations,
    none with a NaN for Sharpe ratio; with [top_n = -1] the ranking has two
    entries. *)
Lemma optimize_portfolio_negative_top_n :
  exists ranking,
    outcome (optimize_portfolio [Run.hsbc; Run.whgroup] 20000%float Run.two_curves
               0.5%float (-1)%Z)
    = Return ranking /\
    map (@weights_of float) ranking = [[0.5; 0.5]; [0; 1]]%float /\
    ~ (Z.of_nat (List.length ranking) <= -1)%Z /\
    map (fun p => fisnan (sharpe p))
      (successes [Run.hsbc; Run.whgroup]
         (weight_combinations [0%float; 0.5%float; 1%float] 2)
         20000%float Run.two_curves)
    = [false; false; false].
Proof.
  eexists; split; [vm_compute; reflexivity |].
  split; [vm_compute; reflexivity |].
  split; [simpl; lia |].
  vm_compute; reflexivity.
Qed.

(** The Sharpe ratio can be NaN, and a ranking that holds one is in no
    order.  On two histories that climb from 1 to [2^1023], with a capital
    of 1, the total return overflows and so does the deviation of the daily
    returns: the Sharpe ratio of each of the three combinations is infinity
    over infinity, and no arrangement of the three results has every entry
    followed by one whose Sharpe ratio is [<=] its own. *)
Lemma ranking_with_nan_sharpe :
  let results :=
    successes [Run.hsbc; Run.whgroup]
      (weight_combinations [0%float; 0.5%float; 1%float] 2)
      1%float Run.steep in
  List.length results = 3%nat /\
  Forall (fun p => fisnan (sharpe p) = true) results /\
  forall arrangement,
    Permutation arrangement results -> ~ Sorted descending arrangement.
Proof.
  cbv zeta; split; [vm_compute; reflexivity |].
  split.
  { apply Forall_forall; intros p Hin; vm_compute in Hin.
    destruct Hin as [<- | [<- | [<- | []]]]; reflexivity. }
  intros arrangement Hp Hs.
  pose proof (Permutation_length Hp) as Hlen.
  destruct arrangement as [| a [| b rest]]; try discriminate.
  assert (Ha : In a (a :: b :: rest)) by (left; reflexivity).
  assert (Hb : In b (a :: b :: rest)) by (right; left; reflexivity).
  apply (Permutation_in _ Hp) in Ha, Hb.
  inversion Hs as [| ? ? _ Hhd]; subst.
  inversion Hhd as [| ? ? Hab]; subst.
  vm_compute in Ha, Hb.
  destruct Ha as [<- | [<- | [<- | []]]], Hb as [<- | [<- | [<- | []]]];
    vm_compute in Hab; discriminate.
Qed.

(** ** C3: Failures during the sweep *)

(** C3 (what the program does instead).  A combination whose
    [combine_portfolios] returns [None] (weights rejected, a history not
    found, no common date, no data) is dropped and the sweep goes on: when
    no combination raises, the ranking is cut from a rearrangement of the
    dictionaries of the combinations that succeeded, and whatever is ranked
    is the dictionary of a combination that succeeded.  An exception is not
    caught: if a combination raises, so does [optimize_portfolio]. *)
Theorem optimize_portfolio_drops_none_only {F : Type} {ops : Float64 F}
    (strategies : list strategy) (cap : F) (dir : directory F) (weight_step : F)
    (top_n : Z) (weight_range : list F) :
  np_arange (of_Z 0) (fadd (of_Z 1) weight_step) weight_step = Return weight_range ->
  let combinations := weight_combinations weight_range (List.length strategies) in
  let run := optimize_portfolio strategies cap dir weight_step top_n in
  ((forall weights e, In weights combinations ->
      outcome (combine_portfolios strategies weights cap dir) <> Raise e) ->
   exists sorted,
     Permutation sorted (successes strategies combinations cap dir) /\
     outcome run = Return (slice_to sorted top_n))
  /\ (forall ranking p, outcome run = Return ranking -> In p ranking ->
        exists weights, In weights combinations /\
          outcome (combine_portfolios strategies weights cap dir) = Return (Portfolio p))
  /\ (forall weights e, In weights combinations ->
        outcome (combine_portfolios strategies weights cap dir) = Raise e ->
        exists e', outcome run = Raise e').
Proof.
  intros Hr; cbv zeta.
  rewrite (optimize_portfolio_outcome _ _ _ _ _ _ Hr).
  repeat split.
  - intros Hno; rewrite (sweep_defined _ _ _ _ Hno).
    eexists; split; [apply sort_by_sharpe_perm | reflexivity].
  - intros ranking p Hrun Hin.
    destruct (outcome (sweep strategies _ cap dir)) as [results | e] eqn:Hs;
      try discriminate.
    inversion Hrun; subst ranking; clear Hrun.
    apply in_successes.
    rewrite <- (sweep_returns _ _ _ _ _ Hs).
    destruct (slice_to_is_prefix (sort_by_sharpe results) top_n) as [rest Hp].
    apply (Permutation_in _ (sort_by_sharpe_perm results)).
    rewrite Hp; apply in_or_app; auto.
  - intros weights e Hin Hw.
    apply in_split in Hin as (before & after & Hsplit).
    destruct (sweep_aborts strategies before after weights cap dir e Hw) as (e' & He').
    exists e'; rewrite Hsplit, He'; reflexivity.
Qed.

Lemma optimize_portfolio_drops_none_only_witness :
  let combinations := weight_combinations [0%float; 1%float] 1 in
  let run := optimize_portfolio [Run.hsbc] 20000%float Run.two_curves 1%float 10%Z in
  (exists sorted,
     Permutation sorted (successes [Run.hsbc] combinations 20000%float Run.two_curves) /\
     outcome run = Return (slice_to sorted 10%Z))
  /\ (forall ranking p, outcome run = Return ranking -> In p ranking ->
        exists weights, In weights combinations /\
          outcome (combine_portfolios [Run.hsbc] weights 20000%float Run.two_curves)
          = Return (Portfolio p))
  /\ (forall weights e, In weights combinations ->
        outcome (combine_portfolios [Run.hsbc] weights 20000%float Run.two_curves)
        = Raise e ->
        exists e', outcome run = Raise e').
Proof.
  assert (Hgrid : np_arange (of_Z 0) (fadd (of_Z 1) 1%float) 1%float
                  = Return [0%float; 1%float]) by (vm_compute; reflexivity).
  destruct (optimize_portfolio_drops_none_only [Run.hsbc] 20000%float Run.two_curves
              1%float 10%Z [0%float; 1%float] Hgrid) as (Hdrop & Honly & Habort).
  split; [| split; assumption].
  apply Hdrop.
  intros weights e [<- | []]; vm_compute; discriminate.
Defined.

(** C3 fails on a file pandas cannot read.  With such a file for the only
    strategy, the sweep does not drop the combination and return an empty
    ranking: it stops on the exception.  (With the file missing instead, the
    combination is dropped and the ranking is empty.) *)
Lemma optimize_portfolio_aborts_on_unreadable_file :
  outcome (optimize_portfolio [Run.hsbc] 20000%float Run.broken_file 0.5%float 10%Z)
  = Raise ParserError
  /\ outcome (optimize_portfolio [Run.whgroup] 20000%float Run.broken_file 0.5%float 10%Z)
     = Return [].
Proof. split; vm_compute; reflexivity. Qed.

(** ** C4: Flat curves *)

(** C4.  For a curve that is not empty and whose consecutive values are
    all equal, [calculate_portfolio_metrics] returns metrics whose Sharpe
    ratio is the number 0: the deviation of the returns is a zero or NaN,
    never above zero, and the program then reports the literal 0.  A curve
    of one value is such a curve.  This holds in every reading of the
    numbers that has the laws of the arithmetic, binary64 among them. *)
Theorem flat_curve_sharpe_is_zero {F : Type} {ops : Float64 F} {laws : Float64Laws F}
    (series : list F) (cap : F) :
  series <> [] ->
  (forall i, (S i < List.length series)%nat ->
     nth (S i) series fnan = nth i series fnan) ->
  exists m,
    calculate_portfolio_metrics series cap = Some m /\
    sharpe_ratio m = of_Z 0 /\
    fisnan (sharpe_ratio m) = false /\
    fltb (of_Z 0) (std_dev m) = false.
Proof.
  intros Hne Hflat.
  apply flat_is_repeat in Hflat.
  destruct series as [| v rest]; [congruence |].
  cbn [hd List.length repeat] in Hflat; injection Hflat as Hrest.
  rewrite Hrest.
  destruct (flat_metrics v (List.length rest) cap) as (m & Hm & Hstd & Hsharpe).
  exists m; split; [exact Hm |].
  split; [exact Hsharpe |].
  split; [rewrite Hsharpe; apply fisnan_zero | exact (null_not_above _ Hstd)].
Qed.

Lemma flat_curve_sharpe_is_zero_witness :
  (exists m,
     calculate_portfolio_metrics [5; 5; 5]%float 20000%float = Some m /\
     sharpe_ratio m = of_Z 0 /\
     fisnan (sharpe_ratio m) = false /\
     fltb (of_Z 0) (std_dev m) = false) /\
  (exists m,
     calculate_portfolio_metrics [5]%float 20000%float = Some m /\
     sharpe_ratio m = of_Z 0 /\
     fisnan (sharpe_ratio m) = false /\
     fltb (of_Z 0) (std_dev m) = false).
Proof.
  split.
  - apply (flat_curve_sharpe_is_zero [5; 5; 5]%float 20000%float).
    + discriminate.
    + intros [| [| i]] Hi; simpl in *; try reflexivity; lia.
  - apply (flat_curve_sharpe_is_zero [5]%float 20000%float).
    + discriminate.
    + intros i Hi; simpl in Hi; lia.
Defined.

(** ** C5: The weight check *)

(** C5.  [combine_portfolios] returns [None] at the weight check exactly
    when [abs(sum(weights) - 1.0) > 0.01], and then no file has been
    consulted.  Weights that pass are used as they are: the dictionary
    carries them unchanged, and every value of the blended series is the
    sum, over the strategies, of the rebased curve times the weight that was
    given. *)
Theorem combine_portfolios_weight_check {F : Type} {ops : Float64 F}
    (strategies : list strategy) (weights : list F) (cap : F) (dir : directory F) :
  let r := combine_portfolios strategies weights cap dir in
  (fltb lit_0_01 (fabs (fsub (py_sum weights) (of_Z 1))) = true
   <-> outcome r = Return (Nothing InvalidWeights))
  /\ (outcome r = Return (Nothing InvalidWeights) -> files_read r = [])
  /\ (forall p, outcome r = Return (Portfolio p) ->
        weights_of p = weights /\
        exists portfolios,
          outcome (load_all strategies dir) = Return (Some portfolios) /\
          map snd (portfolio_series p)
          = weighted_blend portfolios weights (map fst (portfolio_series p)) cap).
Proof.
  cbv zeta.
  pose proof (combine_portfolios_invalid_weights strategies weights cap dir) as Hiff.
  split; [exact Hiff |].
  split.
  - intros H; apply Hiff in H.
    rewrite (combine_portfolios_rejects _ _ _ _ H); reflexivity.
  - intros p Hp.
    apply combine_portfolios_success in Hp
      as (portfolios & common & m & _ & Hload & _ & _ & _ & _ & ->).
    simpl; split; [reflexivity |].
    exists portfolios; split; [exact Hload |].
    pose proof (weighted_blend_length portfolios weights common cap) as Hlen.
    rewrite map_snd_combine, map_fst_combine; auto.
Qed.

(** ** C6: The grid of step one *)

Section GridOfTheSearch.

Context {F : Type} {ops : Float64 F}.

(** Once the grid is built, [optimize_portfolio] is the sweep over the
    tuples of the grid that pass the filter, each one normalised, and the
    ranking of what the sweep returns. *)
Lemma optimize_portfolio_on_grid (strategies : list strategy) (cap : F)
    (dir : directory F) (weight_step : F) (top_n : Z) (weight_range : list F) :
  np_arange (of_Z 0) (fadd (of_Z 1) weight_step) weight_step = Return weight_range ->
  optimize_portfolio strategies cap dir weight_step top_n
  = bind (sweep strategies
            (map normalize (kept_tuples weight_range (List.length strategies)))
            cap dir)
      (fun results => ret (slice_to (sort_by_sharpe results) top_n)).
Proof.
  intros Hgrid; unfold optimize_portfolio; rewrite Hgrid.
  unfold lift, weight_combinations; cbn [bind].
  destruct (sweep _ _ _ _) as [log [results | e]]; reflexivity.
Qed.

End GridOfTheSearch.

(** C6.  For two strategies and [weight_step = 1.0] the grid is (0, 1); of
    its four pairs the filter keeps (0, 1) and (1, 0), in this order, and
    [optimize_portfolio] is the sweep over these two tuples, normalised,
    followed by the ranking: it tests them and no other candidate.  This
    holds in binary64 as in exact arithmetic. *)
Theorem step_one_candidates (a b : strategy) (top_n : Z) :
  (forall (cap : float) (dir : directory float),
     np_arange 0%float (1 + 1)%float 1%float = Return [0%float; 1%float] /\
     kept_tuples [0%float; 1%float] 2 = [[0%float; 1%float]; [1%float; 0%float]] /\
     optimize_portfolio [a; b] cap dir 1%float top_n
     = bind (sweep [a; b] (map normalize [[0%float; 1%float]; [1%float; 0%float]])
               cap dir)
         (fun results => ret (slice_to (sort_by_sharpe results) top_n)))
  /\
  (forall (cap : XReal.t) (dir : directory XReal.t),
     np_arange (of_Z 0) (fadd (of_Z 1) (of_Z 1)) (of_Z 1)
     = Return [XReal.Finite 0; XReal.Finite 1] /\
     kept_tuples [XReal.Finite 0; XReal.Finite 1] 2
     = [[XReal.Finite 0; XReal.Finite 1]; [XReal.Finite 1; XReal.Finite 0]] /\
     optimize_portfolio [a; b] cap dir (of_Z 1) top_n
     = bind (sweep [a; b]
               (map normalize
                  [[XReal.Finite 0; XReal.Finite 1]; [XReal.Finite 1; XReal.Finite 0]])
               cap dir)
         (fun results => ret (slice_to (sort_by_sharpe results) top_n))).
Proof.
  split; intros cap dir.
  - assert (Hgrid : np_arange 0%float (1 + 1)%float 1%float = Return [0%float; 1%float])
      by (vm_compute; reflexivity).
    assert (Hkept : kept_tuples [0%float; 1%float] 2
                    = [[0%float; 1%float]; [1%float; 0%float]])
      by (vm_compute; reflexivity).
    split; [exact Hgrid |]; split; [exact Hkept |].
    rewrite (optimize_portfolio_on_grid [a; b] cap dir 1%float top_n _ Hgrid).
    cbn [List.length]; rewrite Hkept; reflexivity.
  - assert (Hgrid : np_arange (of_Z 0) (fadd (of_Z 1) (of_Z 1)) (of_Z 1)
                    = Return [XReal.Finite 0; XReal.Finite 1])
      by exact Grid.step_one_range.
    split; [exact Hgrid |]; split; [exact Grid.step_one_pairs |].
    rewrite (optimize_portfolio_on_grid [a; b] cap dir (of_Z 1) top_n _ Hgrid).
    cbn [List.length]; rewrite Grid.step_one_pairs; reflexivity.
Qed.

(** ** C7: The order of the strategies *)

(** C7 (what holds instead).  For histories whose dates increase, the first
    two strategies may change places, each with its weight, without any
    change to what [combine_portfolios] returns as metrics: both calls
    return the same six values, or neither returns any.  A blend of two
    strategies therefore does not depend on their order.  This holds in
    every reading of the numbers that has the laws of the arithmetic,
    binary64 among them. *)
Theorem combine_portfolios_first_two_commute {F : Type} {ops : Float64 F}
    {laws : Float64Laws F} (s1 s2 : strategy) (w1 w2 : F)
    (others : list (strategy * F)) (cap : F) (dir : directory F) :
  (forall s df, frame_of dir s = Some df -> StronglySorted Z.lt (index df)) ->
  returned_metrics
    (combine_portfolios (s1 :: s2 :: map fst others) (w1 :: w2 :: map snd others)
       cap dir)
  = returned_metrics
      (combine_portfolios (s2 :: s1 :: map fst others) (w2 :: w1 :: map snd others)
         cap dir).
Proof.
  intros Hsorted.
  rewrite !returned_metrics_blended.
  rewrite (blended_first_two s1 s2 w1 w2 others cap dir Hsorted).
  reflexivity.
Qed.

Lemma combine_portfolios_first_two_commute_witness :
  returned_metrics
    (combine_portfolios [Run.hsbc; Run.whgroup] [0.6; 0.4]%float 20000%float
       Run.two_curves)
  = returned_metrics
      (combine_portfolios [Run.whgroup; Run.hsbc] [0.4; 0.6]%float 20000%float
         Run.two_curves).
Proof.
  apply (combine_portfolios_first_two_commute Run.hsbc Run.whgroup
           0.6%float 0.4%float [] 20000%float Run.two_curves).
  exact two_curves_sorted.
Defined.

(** C7 fails on the program as it runs.  In binary64 the weighted sum is
    rounded at each addition, so its value depends on the order of the terms:
    three histories that start at 300 and end at 100, 200 and 400, weighted
    0.1, 0.2 and 0.7, blend to a final value of 21999.999999999996, and to
    22000 when listed in the reverse order.  And the common dates come in the
    order of the first history: with a history whose days are listed
    backwards, swapping the two strategies changes the final value from
    21500 to 18614.71... *)
Lemma combine_portfolios_order_matters :
  (option_map (@final_value float)
     (returned_metrics
        (combine_portfolios [Run.hsbc; Run.whgroup; Run.tencent]
           [0.1; 0.2; 0.7]%float 20000%float Run.three_curves))
   = Some 21999.999999999996%float /\
   option_map (@final_value float)
     (returned_metrics
        (combine_portfolios [Run.tencent; Run.whgroup; Run.hsbc]
           [0.7; 0.2; 0.1]%float 20000%float Run.three_curves))
   = Some 22000%float /\
   PrimFloat.eqb 21999.999999999996%float 22000%float = false)
  /\
  (option_map (@final_value float)
     (returned_metrics
        (combine_portfolios [Run.hsbc; Run.whgroup]
           [0.5; 0.5]%float 20000%float Run.backwards))
   = Some 21500%float /\
   option_map (@final_value float)
     (returned_metrics
        (combine_portfolios [Run.whgroup; Run.hsbc]
           [0.5; 0.5]%float 20000%float Run.backwards))
   = Some 18614.718614718615%float).
Proof. repeat split; vm_compute; reflexivity. Qed.

(** ** C8: Maximum drawdown *)

(** C8 (what holds instead).  For every curve that is not empty,
    [max_drawdown] is the minimum pandas takes of the drawdowns
    (value - running peak) / running peak * 100 of the points of the curve,
    where the running peaks are the cumulative maximum of the curve: the
    least of the drawdowns that are not NaN, and NaN when there is none.
    When no value of the curve is NaN, the cumulative maximum gives, for
    each point, a largest value of the curve up to that point.  When the
    values are positive and finite, every drawdown is a number, and
    [max_drawdown] is the drawdown of one of the points with no drawdown
    below it.  For a curve of one positive finite value it is 0.  This holds
    in every reading of the numbers that has the laws of the arithmetic,
    binary64 among them. *)
Theorem max_drawdown_is_least_drawdown {F : Type} {ops : Float64 F}
    {laws : Float64Laws F} (vs : list F) (cap : F) :
  vs <> [] ->
  exists m,
    calculate_portfolio_metrics vs cap = Some m /\
    minimum_of (max_drawdown m) (map2 drawdown_pct vs (cummax vs)) /\
    (Forall (fun v => fisnan v = false) vs -> running_peaks (cummax vs) vs) /\
    (Forall (fun v => positive_finite v = true) vs ->
     least_of (max_drawdown m) (map2 drawdown_pct vs (cummax vs))) /\
    (forall v, vs = [v] -> positive_finite v = true -> max_drawdown m = of_Z 0).
Proof.
  intros Hne.
  destruct vs as [| v0 rest] eqn:Evs; [congruence |].
  rewrite <- Evs.
  assert (Hm : exists m, calculate_portfolio_metrics vs cap = Some m /\
                         max_drawdown m
                         = series_min (map2 drawdown_pct vs (cummax vs))).
  { rewrite Evs; eexists; split; reflexivity. }
  destruct Hm as (m & Hm & Hdd).
  exists m; split; [exact Hm |].
  split; [rewrite Hdd; apply series_min_minimum |].
  split; [apply cummax_running_peaks |].
  split.
  - intros Hpos.
    destruct (max_drawdown_of_positive vs cap ltac:(rewrite Evs; discriminate) Hpos)
      as (m' & Hm' & _ & Hleast).
    rewrite Hm in Hm'; injection Hm' as <-; exact Hleast.
  - intros v Hv Hpos.
    pose proof (max_drawdown_of_one v cap Hpos) as H.
    rewrite <- Hv, Hm in H; injection H as H; exact H.
Qed.

Lemma max_drawdown_is_least_drawdown_witness :
  (exists m,
     calculate_portfolio_metrics [100; 120; 90]%float 20000%float = Some m /\
     minimum_of (max_drawdown m)
       (map2 drawdown_pct [100; 120; 90]%float (cummax [100; 120; 90]%float)) /\
     running_peaks (cummax [100; 120; 90]%float) [100; 120; 90]%float /\
     least_of (max_drawdown m)
       (map2 drawdown_pct [100; 120; 90]%float (cummax [100; 120; 90]%float))) /\
  (exists m,
     calculate_portfolio_metrics [100]%float 20000%float = Some m /\
     max_drawdown m = of_Z 0).
Proof.
  split.
  - destruct (max_drawdown_is_least_drawdown [100; 120; 90]%float 20000%float)
      as (m & Hm & Hmin & Hpeaks & Hleast & _).
    + discriminate.
    + exists m; split; [exact Hm |]. split; [exact Hmin |].
      split; [apply Hpeaks | apply Hleast]; repeat constructor.
  - destruct (max_drawdown_is_least_drawdown [100]%float 20000%float)
      as (m & Hm & _ & _ & _ & Hone).
    + discriminate.
    + exists m; split; [exact Hm | exact (Hone 100%float eq_refl eq_refl)].
Defined.

(** C8 fails, for its last part, on the curve of the single value 0, where
    the drawdown of the point is 0/0, and on the curve of the single value
    infinity, where it is the quotient of two infinities: [max_drawdown] is
    NaN then, not 0. *)
Lemma max_drawdown_of_zero_curve :
  option_map (@max_drawdown float) (calculate_portfolio_metrics [0%float] 20000%float)
  = Some PrimFloat.nan /\
  option_map (@max_drawdown float)
    (calculate_portfolio_metrics [PrimFloat.infinity] 20000%float)
  = Some PrimFloat.nan /\
  PrimFloat.eqb PrimFloat.nan 0%float = false.
Proof. repeat split; vm_compute; reflexivity. Qed.

(** ** C9: The count of the weights *)

(** C9 (what the program does instead).  The count of the weights is checked
    by [main], not by [combine_portfolios]: when custom weights are given
    and they are not as many as the strategies, the branch reports the
    mismatch, and no file has been consulted and nothing computed. *)
Theorem main_checks_weight_count {F : Type} {ops : Float64 F}
    (strategies : list strategy) (custom_weights : list F) (capital : F)
    (dir : directory F) :
  custom_weights <> [] ->
  List.length custom_weights <> List.length strategies ->
  main_custom_weights strategies (Some custom_weights) capital dir
  = ([], Return (Some WeightCountMismatch)).
Proof.
  intros Hgiven Hne; unfold main_custom_weights.
  destruct custom_weights as [| w ws]; [congruence |].
  destruct (Nat.eqb_spec (List.length (w :: ws)) (List.length strategies));
    [contradiction | reflexivity].
Qed.

Lemma main_checks_weight_count_witness :
  main_custom_weights [Run.hsbc] (Some [1%float; 0%float]) 20000%float Run.two_curves
  = ([], Return (Some WeightCountMismatch)).
Proof.
  apply (main_checks_weight_count [Run.hsbc] [1%float; 0%float]).
  - discriminate.
  - simpl; lia.
Defined.

(** C9 fails on [combine_portfolios] itself.  With one strategy and the two
    weights (1, 0) it consults the file and returns the metrics of the
    strategy alone: the second weight is never looked at.  With two
    strategies and the single weight (1) it reads both files and only then
    fails, on [weights[1]]. *)
Lemma combine_portfolios_tolerates_count_mismatch :
  (let r := combine_portfolios [Run.hsbc] [1%float; 0%float] 20000%float Run.two_curves in
   List.length [1%float; 0%float] <> List.length [Run.hsbc] /\
   files_read r = ["0005.HK_aggressive"%string] /\
   returned_series r = [20000; 22000; 24000; 18000]%float /\
   returned_series r
   = returned_series
       (combine_portfolios [Run.hsbc] [1%float] 20000%float Run.two_curves))
  /\
  (let r := combine_portfolios [Run.hsbc; Run.whgroup] [1%float] 20000%float Run.two_curves in
   files_read r = ["0005.HK_aggressive"%string; "0288.HK_conservative"%string] /\
   outcome r = Raise IndexError).
Proof.
  cbv zeta; repeat split; try (vm_compute; reflexivity).
  simpl; lia.
Qed.

(** ** C10: Normalising the grid tuples *)

Lemma product_entries {A : Type} (r : list A) (n : nat) (w : list A) :
  In w (product r n) -> Forall (fun x => In x r) w.
Proof.
  revert w; induction n as [| n IH]; simpl; intros w H.
  - destruct H as [<- | []]; constructor.
  - apply in_flat_map in H as (x & Hx & H).
    apply in_map_iff in H as (w' & <- & H).
    constructor; [exact Hx | apply IH; exact H].
Qed.

(** The weights of the grid are of one sign: none is negative when the
    step is positive, and none is positive otherwise. *)
Lemma np_arange_notneg (step : float) (grid : list float) :
  (0 <? step)%float = true ->
  np_arange (of_Z 0) (fadd (of_Z 1) step) step = Return grid ->
  Forall Rounding.notneg grid.
Proof.
  intros Hstep; unfold np_arange.
  destruct (fleb step (of_Z 0) && fleb (of_Z 0) step); [discriminate |].
  destruct (fceil _) as [n |]; [| discriminate].
  intros H; injection H as <-.
  apply Forall_forall; intros x Hx.
  apply in_map_iff in Hx as (i & <- & Hi).
  unfold Zrange in Hi; apply in_map_iff in Hi as (j & <- & _).
  apply RoundingError.add_notneg; [left; exact RoundingError.nn_zero |].
  apply RoundingError.mul_notneg;
    [apply RoundingError.of_Z_notneg; lia
    | apply RoundingError.positive_notneg; exact Hstep].
Qed.

Lemma np_arange_not_positive (step : float) (grid : list float) :
  (0 <? step)%float = false ->
  np_arange (of_Z 0) (fadd (of_Z 1) step) step = Return grid ->
  Forall (fun x => (0 <? x)%float = false) grid.
Proof.
  intros Hstep; unfold np_arange.
  destruct (fleb step (of_Z 0) && fleb (of_Z 0) step); [discriminate |].
  destruct (fceil _) as [n |]; [| discriminate].
  intros H; injection H as <-.
  apply Forall_forall; intros x Hx.
  apply in_map_iff in Hx as (i & <- & Hi).
  unfold Zrange in Hi; apply in_map_iff in Hi as (j & <- & _).
  apply RoundingError.add_not_positive; [reflexivity |].
  apply RoundingError.mul_not_positive;
    [apply RoundingError.of_Z_notneg; lia | exact Hstep].
Qed.

(** C10.  In binary64, for at most 1000000 strategies and every
    [weight_step]: once the grid is built, [optimize_portfolio] is the sweep
    over the tuples of the grid that pass the filter, each one normalised;
    every tuple [raw] that passes the filter, [abs(sum - 1.0) < 0.01], has
    a sum that is positive and finite, so no weight of [normalize raw] is
    NaN; and [normalize raw] passes the weight check of
    [combine_portfolios], which never returns [None] for its weights. *)
Theorem kept_tuples_are_accepted (strategies : list strategy) (weight_step : float)
    (weight_range raw : list float) :
  (Z.of_nat (List.length strategies) <= 1000000)%Z ->
  np_arange (of_Z 0) (fadd (of_Z 1) weight_step) weight_step = Return weight_range ->
  In raw (kept_tuples weight_range (List.length strategies)) ->
  (forall cap dir top_n,
     optimize_portfolio strategies cap dir weight_step top_n
     = bind (sweep strategies
               (map normalize (kept_tuples weight_range (List.length strategies)))
               cap dir)
         (fun results => ret (slice_to (sort_by_sharpe results) top_n))) /\
  (PrimFloat.abs (py_sum raw - 1) <? 1 / 100)%float = true /\
  (0 <? py_sum raw)%float = true /\
  (py_sum raw <? PrimFloat.infinity)%float = true /\
  Forall (fun w => PrimFloat.is_nan w = false) (normalize raw) /\
  weights_rejected (normalize raw) = false /\
  (forall cap dir,
     outcome (combine_portfolios strategies (normalize raw) cap dir)
     <> Return (Nothing InvalidWeights)).
Proof.
  intros Hmany Hgrid Hin.
  split; [intros cap dir top_n; apply optimize_portfolio_on_grid; exact Hgrid |].
  apply filter_In in Hin as [Hprod Htest].
  split; [exact Htest |].
  pose proof (product_length _ _ _ Hprod) as Hlen.
  pose proof (product_entries _ _ _ Hprod) as Hentries.
  assert (Hnotneg : Forall Rounding.notneg raw).
  { destruct (0 <? weight_step)%float eqn:Hstep.
    - pose proof (np_arange_notneg weight_step weight_range Hstep Hgrid) as Hg.
      rewrite Forall_forall in Hg, Hentries.
      apply Forall_forall; intros x Hx; apply Hg, Hentries; exact Hx.
    - exfalso.
      pose proof (np_arange_not_positive weight_step weight_range Hstep Hgrid) as Hg.
      assert (Hraw : Forall (fun x => (0 <? x)%float = false) raw).
      { rewrite Forall_forall in Hg, Hentries.
        apply Forall_forall; intros x Hx; apply Hg, Hentries; exact Hx. }
      pose proof (RoundingError.fold_not_positive raw PrimFloat.zero eq_refl Hraw)
        as Hsum.
      apply RoundingError.not_positive_sum_far in Hsum.
      unfold sums_to_one in Htest.
      change (PrimFloat.abs (fold_left PrimFloat.add raw PrimFloat.zero - 1)
              <? 1 / 100)%float with
        (fltb (fabs (fsub (py_sum raw) (of_Z 1))) lit_0_01) in Hsum.
      congruence. }
  destruct (RoundingError.normalised_sum raw Hnotneg
              ltac:(rewrite Hlen; exact Hmany) Htest)
    as (Hs & Hpos & Hnorm & Hs' & Hclose).
  assert (Hrej : weights_rejected (normalize raw) = false)
    by (exact (RoundingError.sum_at_one _ Hs' Hclose)).
  split.
  { apply (RoundingError.ltb_value _ _ RoundingError.nn_zero Hs); exact Hpos. }
  split.
  { unfold py_sum; cbn [fadd of_Z Binary64.ops].
    change (Binary64.of_Z 0) with PrimFloat.zero.
    revert Hs; unfold Rounding.nn.
    rewrite FloatAxioms.ltb_spec, Binary64Laws.Prim2SF_infinity.
    destruct (Prim2SF (fold_left PrimFloat.add raw PrimFloat.zero))
      as [s | s | | [|] m e]; cbn [Rounding.SFnn]; try tauto;
      intros _; reflexivity. }
  split.
  { eapply Forall_impl; [| exact Hnorm].
    intros w Hw; apply Binary64Laws.is_number_spec.
    unfold Rounding.nn in Hw; intros E; rewrite E in Hw; exact Hw. }
  split; [exact Hrej |].
  intros cap dir H.
  apply combine_portfolios_invalid_weights in H; congruence.
Qed.

Lemma kept_tuples_are_accepted_witness :
  (forall cap dir top_n,
     optimize_portfolio [Run.hsbc; Run.whgroup] cap dir 0.1%float top_n
     = bind (sweep [Run.hsbc; Run.whgroup]
               (map normalize
                  (kept_tuples
                     [0; 0.1; 0.2; 0.30000000000000004; 0.4; 0.5;
                      0.6000000000000001; 0.7000000000000001; 0.8; 0.9; 1]%float
                     2))
               cap dir)
         (fun results => ret (slice_to (sort_by_sharpe results) top_n))) /\
  (PrimFloat.abs (py_sum [0.30000000000000004; 0.7000000000000001]%float - 1)
   <? 1 / 100)%float = true /\
  (0 <? py_sum [0.30000000000000004; 0.7000000000000001]%float)%float = true /\
  (py_sum [0.30000000000000004; 0.7000000000000001]%float <? PrimFloat.infinity)%float
  = true /\
  Forall (fun w => PrimFloat.is_nan w = false)
    (normalize [0.30000000000000004; 0.7000000000000001]%float) /\
  weights_rejected (normalize [0.30000000000000004; 0.7000000000000001]%float) = false /\
  (forall cap dir,
     outcome (combine_portfolios [Run.hsbc; Run.whgroup]
                (normalize [0.30000000000000004; 0.7000000000000001]%float) cap dir)
     <> Return (Nothing InvalidWeights)).
Proof.
  apply (kept_tuples_are_accepted [Run.hsbc; Run.whgroup] 0.1%float
           [0; 0.1; 0.2; 0.30000000000000004; 0.4; 0.5;
            0.6000000000000001; 0.7000000000000001; 0.8; 0.9; 1]%float
           [0.30000000000000004; 0.7000000000000001]%float).
  - simpl; lia.
  - vm_compute; reflexivity.
  - vm_compute. tauto.
Defined.

(** * Further properties of the code *)

(** ** The files a call consults *)

Section FilesFacts.

Context {F : Type} {ops : Float64 F}.

Lemma files_read_bind {A B : Type} (m : io A) (k : A -> io B) :
  files_read (bind m k)
  = (files_read m
     ++ match outcome m with
        | Return a => files_read (k a)
        | Raise _ => []
        end)%list.
Proof.
  destruct m as [log [a | e]]; simpl.
  - destruct (k a) as [log' r]; reflexivity.
  - rewrite app_nil_r; reflexivity.
Qed.

Lemma load_all_files_read (dir : directory F) (strategies : list strategy) :
  files_read (load_all strategies dir) = map path_of (consulted dir strategies).
Proof.
  induction strategies as [| [ticker ty] rest IH]; [reflexivity |].
  cbn [load_all consulted map].
  rewrite files_read_bind.
  unfold load_portfolio_history, frame_of, path_of at 1; cbn [fst snd].
  destruct (dir (strategy_dir ticker ty)) as [[| df] |]; cbn; try reflexivity.
  f_equal.
  rewrite files_read_bind, IH.
  destruct (outcome (load_all rest dir)); cbn; apply app_nil_r.
Qed.

Lemma consulted_all (dir : directory F) (strategies : list strategy) :
  (forall s, In s strategies -> frame_of dir s <> None) ->
  consulted dir strategies = strategies.
Proof.
  induction strategies as [| s rest IH]; intros H; [reflexivity |].
  cbn [consulted].
  destruct (frame_of dir s) eqn:E.
  - rewrite IH; [reflexivity |].
    intros s' Hin; apply H; right; exact Hin.
  - exfalso; apply (H s); [left; reflexivity | exact E].
Qed.

Lemma consulted_first_failure (dir : directory F) (before after : list strategy)
    (s : strategy) :
  (forall b, In b before -> frame_of dir b <> None) ->
  frame_of dir s = None ->
  consulted dir (before ++ s :: after) = (before ++ [s])%list.
Proof.
  induction before as [| b before IH]; intros Hb Hs; cbn [consulted app].
  - rewrite Hs; reflexivity.
  - destruct (frame_of dir b) eqn:E.
    + rewrite IH; auto.
      intros b' Hin; apply Hb; right; exact Hin.
    + exfalso; apply (Hb b); [left; reflexivity | exact E].
Qed.

Lemma combine_portfolios_log (strategies : list strategy) (weights : list F)
    (cap : F) (dir : directory F) :
  files_read (combine_portfolios strategies weights cap dir)
  = if weights_rejected weights then []
    else files_read (load_all strategies dir).
Proof.
  unfold combine_portfolios.
  destruct (weights_rejected weights); [reflexivity |].
  rewrite files_read_bind.
  destruct (outcome (load_all strategies dir)) as [[portfolios |] | e];
    try (cbn; apply app_nil_r).
  rewrite <- (app_nil_r (files_read (load_all strategies dir))) at 2.
  f_equal.
  rewrite files_read_bind; cbn [lift files_read fst outcome snd app].
  destruct (common_dates_of portfolios) as [[| d r] | e]; try reflexivity.
  rewrite files_read_bind; cbn [lift files_read fst outcome snd app].
  destruct (blend _ _ _ _ _ _) as [series | e]; try reflexivity.
  destruct (calculate_portfolio_metrics series cap); reflexivity.
Qed.

(** The first strategy without a readable history decides how the loading
    loop ends. *)
Lemma load_all_first_failure (dir : directory F) (before after : list strategy)
    (s : strategy) :
  (forall b, In b before -> frame_of dir b <> None) ->
  frame_of dir s = None ->
  outcome (load_all (before ++ s :: after) dir)
  = match dir (path_of s) with
    | Some Unreadable => Raise ParserError
    | _ => Return None
    end.
Proof.
  induction before as [| [ticker ty] before IH]; intros Hb Hs.
  - destruct s as [ticker ty]; cbn [app load_all].
    unfold frame_of in Hs; cbn [fst snd] in Hs.
    unfold path_of; cbn [fst snd].
    unfold load_portfolio_history.
    destruct (dir (strategy_dir ticker ty)) as [[| df] |]; try discriminate;
      reflexivity.
  - cbn [app load_all].
    pose proof (Hb (ticker, ty) (or_introl eq_refl)) as Hhere.
    unfold frame_of in Hhere; cbn [fst snd] in Hhere.
    unfold load_portfolio_history at 1.
    destruct (dir (strategy_dir ticker ty)) as [[| df] |]; try congruence.
    specialize (IH (fun b Hin => Hb b (or_intror Hin)) Hs).
    cbn [bind].
    destruct (load_all (before ++ s :: after) dir) as [log r]; cbn in IH |- *.
    rewrite IH.
    destruct (dir (path_of s)) as [[| df'] |]; reflexivity.
Qed.

End FilesFacts.

(** X1.  What [combine_portfolios] reads: nothing when the weights fail the
    check; otherwise the history of each strategy in turn, once, up to the
    first strategy whose folder holds no readable history, and no further.
    When every history is readable that is one file for each strategy, in
    the order of the strategies, whatever the call returns after that. *)
Theorem combine_portfolios_files_read {F : Type} {ops : Float64 F}
    (strategies : list strategy) (weights : list F) (cap : F) (dir : directory F) :
  files_read (combine_portfolios strategies weights cap dir)
  = (if weights_rejected weights then []
     else map path_of (consulted dir strategies))
  /\ (weights_rejected weights = false ->
      (forall s, In s strategies -> frame_of dir s <> None) ->
      files_read (combine_portfolios strategies weights cap dir)
      = map path_of strategies)
  /\ (forall before s after,
        weights_rejected weights = false ->
        strategies = (before ++ s :: after)%list ->
        (forall b, In b before -> frame_of dir b <> None) ->
        frame_of dir s = None ->
        files_read (combine_portfolios strategies weights cap dir)
        = map path_of (before ++ [s]))%list.
Proof.
  rewrite combine_portfolios_log, load_all_files_read.
  split; [reflexivity |].
  split.
  - intros -> Hread; rewrite (consulted_all dir strategies Hread); reflexivity.
  - intros before s after -> -> Hb Hs.
    rewrite (consulted_first_failure dir before after s Hb Hs); reflexivity.
Qed.

(** X2.  When the weights pass the check, the first strategy without a
    readable history decides the outcome of [combine_portfolios]: [None] if
    its file is missing, the exception of pandas if the file is there and
    cannot be read.  What comes after that strategy plays no part. *)
Theorem combine_portfolios_first_failure {F : Type} {ops : Float64 F}
    (before after : list strategy) (s : strategy) (weights : list F) (cap : F)
    (dir : directory F) :
  weights_rejected weights = false ->
  (forall b, In b before -> frame_of dir b <> None) ->
  frame_of dir s = None ->
  outcome (combine_portfolios (before ++ s :: after) weights cap dir)
  = match dir (path_of s) with
    | Some Unreadable => Raise ParserError
    | _ => Return (Nothing NotFound)
    end.
Proof.
  intros Hw Hb Hs.
  rewrite combine_portfolios_outcome, Hw.
  rewrite (load_all_first_failure dir before after s Hb Hs).
  destruct (dir (path_of s)) as [[| df] |]; reflexivity.
Qed.

Lemma combine_portfolios_first_failure_witness :
  outcome (combine_portfolios ([Run.whgroup] ++ Run.tencent :: [Run.hsbc])
             [0.5; 0.25; 0.25]%float 20000%float Run.two_curves)
  = match Run.two_curves (path_of Run.tencent) with
    | Some Unreadable => Raise ParserError
    | _ => Return (Nothing NotFound)
    end.
Proof.
  apply (combine_portfolios_first_failure [Run.whgroup] [Run.hsbc] Run.tencent).
  - vm_compute; reflexivity.
  - intros b [<- | []]; vm_compute; discriminate.
  - vm_compute; reflexivity.
Defined.

(** ** The dates of the blend *)

(** X3.  With weights that pass the check and a readable history for each
    of the strategies, of which there is at least one, [combine_portfolios]
    answers [None] for want of common dates exactly when no date belongs to
    every history. *)
Theorem combine_portfolios_no_common_date {F : Type} {ops : Float64 F}
    (strategies : list strategy) (weights : list F) (cap : F) (dir : directory F) :
  weights_rejected weights = false ->
  strategies <> [] ->
  (forall s, In s strategies -> frame_of dir s <> None) ->
  (outcome (combine_portfolios strategies weights cap dir)
   = Return (Nothing NoCommonDates)
   <-> forall d, ~ (forall s, In s strategies -> In d (index (frame_or_empty dir s)))).
Proof.
  intros Hw Hne Hread.
  rewrite combine_portfolios_outcome, Hw, (load_all_defined dir strategies Hread).
  destruct (common_dates_of (map (frame_or_empty dir) strategies))
    as [common | e] eqn:Hc.
  2:{ destruct strategies; [congruence | discriminate]. }
  assert (Hin : forall d, In d common
                          <-> forall s, In s strategies ->
                                In d (index (frame_or_empty dir s))).
  { intros d; rewrite (in_common_dates _ _ d Hc); split.
    - intros H s Hs; apply H, in_map; exact Hs.
    - intros H df Hdf; apply in_map_iff in Hdf as (s & <- & Hs); auto. }
  destruct common as [| d0 rest].
  - split; [| reflexivity].
    intros _ d Hd; apply Hin in Hd; destruct Hd.
  - split.
    + destruct (blend _ _ _ _ _ _) as [series | e]; [| discriminate].
      destruct (calculate_portfolio_metrics series cap); discriminate.
    + intros H; exfalso; apply (H d0), Hin; left; reflexivity.
Qed.

Lemma combine_portfolios_no_common_date_witness :
  outcome (combine_portfolios [Run.hsbc; Run.whgroup] [0.5; 0.5]%float 20000%float
             MoreRun.apart)
  = Return (Nothing NoCommonDates)
  <-> forall d,
        ~ (forall s, In s [Run.hsbc; Run.whgroup] ->
             In d (index (frame_or_empty MoreRun.apart s))).
Proof.
  apply (combine_portfolios_no_common_date [Run.hsbc; Run.whgroup]).
  - vm_compute; reflexivity.
  - discriminate.
  - intros s [<- | [<- | []]]; vm_compute; discriminate.
Defined.

(** X4.  The series of a dictionary that [combine_portfolios] returns has
    one value for each of its dates and at least one date; its dates are
    the dates that belong to every history; and they increase when the
    dates of every history do. *)
Theorem blended_series_dates {F : Type} {ops : Float64 F}
    (strategies : list strategy) (weights : list F) (cap : F) (dir : directory F)
    (p : portfolio F) :
  outcome (combine_portfolios strategies weights cap dir) = Return (Portfolio p) ->
  series_dates p <> [] /\
  List.length (series_values p) = List.length (series_dates p) /\
  (forall d, In d (series_dates p)
             <-> forall s, In s strategies -> In d (index (frame_or_empty dir s))) /\
  ((forall s df, frame_of dir s = Some df -> StronglySorted Z.lt (index df)) ->
   StronglySorted Z.lt (series_dates p)).
Proof.
  intros Hp.
  apply combine_portfolios_success in Hp
    as (portfolios & common & m & _ & Hload & Hc & Hne & _ & _ & ->).
  apply load_all_inv in Hload as [Hread ->].
  pose proof (weighted_blend_length (map (frame_or_empty dir) strategies) weights
                common cap) as Hlen.
  unfold series_dates, series_values; cbn [portfolio_series].
  rewrite map_fst_combine, map_snd_combine by auto.
  split; [exact Hne |].
  split; [exact Hlen |].
  split.
  - intros d; rewrite (in_common_dates _ _ d Hc); split.
    + intros H s Hs; apply H, in_map; exact Hs.
    + intros H df Hdf; apply in_map_iff in Hdf as (s & <- & Hs); auto.
  - intros Hsorted.
    apply (common_dates_sorted _ _ (F := F)) with (2 := Hc).
    intros df Hdf; apply in_map_iff in Hdf as (s & <- & Hs).
    specialize (Hread s Hs).
    unfold frame_or_empty.
    destruct (frame_of dir s) as [df |] eqn:E; [| congruence].
    exact (Hsorted s df E).
Qed.

Lemma blended_series_dates_witness :
  exists p,
    outcome (combine_portfolios [Run.hsbc; Run.whgroup] [0.5; 0.5]%float 20000%float
               Run.two_curves)
    = Return (Portfolio p) /\
    (series_dates p <> [] /\
     List.length (series_values p) = List.length (series_dates p) /\
     (forall d, In d (series_dates p)
                <-> forall s, In s [Run.hsbc; Run.whgroup] ->
                      In d (index (frame_or_empty Run.two_curves s))) /\
     ((forall s df, frame_of Run.two_curves s = Some df ->
         StronglySorted Z.lt (index df)) ->
      StronglySorted Z.lt (series_dates p))).
Proof.
  eexists; split; [vm_compute; reflexivity |].
  apply (blended_series_dates [Run.hsbc; Run.whgroup] [0.5; 0.5]%float 20000%float
           Run.two_curves).
  vm_compute; reflexivity.
Defined.

(** ** The count of the weights *)

Section WeightCountFacts.

Context {F : Type} {ops : Float64 F}.

(** The loop looks at the weights of the strategies it blends, and at no
    other. *)
Lemma blend_extra_weights (ws extra : list F) (common : list date) (cap : F)
    (portfolios : list (frame F)) :
  forall (i : nat) (acc : list F),
    (i + List.length portfolios <= List.length ws)%nat ->
    blend portfolios i (ws ++ extra) common cap acc
    = blend portfolios i ws common cap acc.
Proof.
  induction portfolios as [| df others IH]; intros i acc Hlen; [reflexivity |].
  cbn [blend].
  destruct (loc df common) as [vs | e]; [| reflexivity]; cbn [py_bind].
  destruct (iloc0 vs) as [first | e]; [| reflexivity]; cbn [py_bind].
  unfold item.
  cbn [List.length] in Hlen.
  rewrite nth_error_app1 by lia.
  destruct (nth_error ws i) as [w |]; [| reflexivity]; cbn [py_bind].
  apply IH; lia.
Qed.

Lemma blended_extra_weights (strategies : list strategy) (ws extra : list F)
    (cap : F) (dir : directory F) :
  List.length ws = List.length strategies ->
  weights_rejected ws = false ->
  weights_rejected (ws ++ extra) = false ->
  blended strategies (ws ++ extra) cap dir = blended strategies ws cap dir.
Proof.
  intros Hlen Hw Hw'; unfold blended; rewrite Hw, Hw'.
  destruct (outcome (load_all strategies dir)) as [[portfolios |] | e] eqn:Hl;
    try reflexivity.
  apply load_all_inv in Hl as [_ ->].
  destruct (common_dates_of _) as [[| d r] | e]; try reflexivity.
  rewrite blend_extra_weights; [reflexivity |].
  rewrite length_map; simpl; lia.
Qed.

(** With a date for every label and too few weights, the loop fails on the
    first strategy that has no weight. *)
Lemma blend_too_few_weights (weights : list F) (common : list date) (cap : F)
    (portfolios : list (frame F)) :
  common <> [] ->
  (forall df d, In df portfolios -> In d common -> In d (index df)) ->
  forall (i : nat) (acc : list F),
    (i <= List.length weights < i + List.length portfolios)%nat ->
    blend portfolios i weights common cap acc = Raise IndexError.
Proof.
  intros Hne; induction portfolios as [| df others IH]; intros Hin i acc Hlen.
  - cbn [List.length] in Hlen; lia.
  - cbn [blend].
    rewrite (loc_defined df common)
      by (intros d Hd; apply value_at_in; apply Hin; simpl; auto).
    destruct common as [| d0 rest]; [congruence |].
    cbn [map iloc0 py_bind].
    unfold item.
    destruct (nth_error weights i) as [w |] eqn:Hw; cbn [py_bind].
    + apply IH.
      * intros df' d Hdf Hd; apply Hin; simpl; auto.
      * assert (i < List.length weights)%nat
          by (apply nth_error_Some; congruence).
        cbn [List.length] in Hlen; lia.
    + reflexivity.
Qed.

End WeightCountFacts.

(** X5.  [combine_portfolios] never looks at a weight beyond the number of
    the strategies: with as many weights as strategies, and more weights
    after them, it returns the series and the metrics of the call without
    the additional weights and reads the same files, as long as both lists
    of weights pass the check (which adds up all of them). *)
Theorem combine_portfolios_ignores_more_weights {F : Type} {ops : Float64 F}
    (strategies : list strategy) (ws extra : list F) (cap : F) (dir : directory F) :
  List.length ws = List.length strategies ->
  weights_rejected ws = false ->
  weights_rejected (ws ++ extra) = false ->
  let more := combine_portfolios strategies (ws ++ extra) cap dir in
  let exact := combine_portfolios strategies ws cap dir in
  returned_series more = returned_series exact /\
  returned_metrics more = returned_metrics exact /\
  files_read more = files_read exact.
Proof.
  intros Hlen Hw Hw'; cbv zeta.
  rewrite !returned_series_blended, !returned_metrics_blended.
  rewrite (blended_extra_weights strategies ws extra cap dir Hlen Hw Hw').
  rewrite !combine_portfolios_log, Hw, Hw'.
  auto.
Qed.

Lemma combine_portfolios_ignores_more_weights_witness :
  let more :=
    combine_portfolios [Run.hsbc; Run.whgroup] ([0.5; 0.5] ++ [0.005; -0.005])%float
      20000%float Run.two_curves in
  let exact :=
    combine_portfolios [Run.hsbc; Run.whgroup] [0.5; 0.5]%float 20000%float
      Run.two_curves in
  returned_series more = returned_series exact /\
  returned_metrics more = returned_metrics exact /\
  files_read more = files_read exact.
Proof.
  apply (combine_portfolios_ignores_more_weights [Run.hsbc; Run.whgroup]
           [0.5; 0.5]%float [0.005; -0.005]%float).
  - reflexivity.
  - vm_compute; reflexivity.
  - vm_compute; reflexivity.
Defined.

(** X6.  With fewer weights than strategies, weights that pass the check,
    a readable history for every strategy and a date common to all,
    [combine_portfolios] raises [IndexError], and it has read the history of
    every strategy by then. *)
Theorem combine_portfolios_too_few_weights {F : Type} {ops : Float64 F}
    (strategies : list strategy) (weights : list F) (cap : F) (dir : directory F)
    (d0 : date) :
  weights_rejected weights = false ->
  (List.length weights < List.length strategies)%nat ->
  (forall s, In s strategies -> frame_of dir s <> None) ->
  (forall s, In s strategies -> In d0 (index (frame_or_empty dir s))) ->
  outcome (combine_portfolios strategies weights cap dir) = Raise IndexError /\
  files_read (combine_portfolios strategies weights cap dir) = map path_of strategies.
Proof.
  intros Hw Hlen Hread Hd0.
  split.
  2:{ rewrite combine_portfolios_log, Hw, load_all_files_read.
      rewrite (consulted_all dir strategies Hread); reflexivity. }
  rewrite combine_portfolios_outcome, Hw, (load_all_defined dir strategies Hread).
  destruct (common_dates_of (map (frame_or_empty dir) strategies))
    as [common | e] eqn:Hc.
  2:{ destruct strategies; [cbn in Hlen; lia | discriminate]. }
  assert (Hin : In d0 common).
  { apply (in_common_dates _ _ d0 Hc).
    intros df Hdf; apply in_map_iff in Hdf as (s & <- & Hs); auto. }
  destruct common as [| d r]; [destruct Hin |].
  rewrite (blend_too_few_weights weights (d :: r) cap
             (map (frame_or_empty dir) strategies)); auto.
  - discriminate.
  - intros df x Hdf Hx; apply (in_common_dates _ _ x Hc); assumption.
  - rewrite length_map; lia.
Qed.

Lemma combine_portfolios_too_few_weights_witness :
  outcome (combine_portfolios [Run.hsbc; Run.whgroup] [1%float] 20000%float
             Run.two_curves)
  = Raise IndexError /\
  files_read (combine_portfolios [Run.hsbc; Run.whgroup] [1%float] 20000%float
                Run.two_curves)
  = map path_of [Run.hsbc; Run.whgroup].
Proof.
  apply (combine_portfolios_too_few_weights [Run.hsbc; Run.whgroup] [1%float]
           20000%float Run.two_curves 1%Z).
  - vm_compute; reflexivity.
  - simpl; lia.
  - intros s [<- | [<- | []]]; vm_compute; discriminate.
  - intros s [<- | [<- | []]]; vm_compute; auto.
Defined.

(** ** The grid search as a whole *)

Section SearchFacts.

Context {F : Type} {ops : Float64 F}.

Lemma slice_to_nil {A : Type} (k : Z) : slice_to (@nil A) k = [].
Proof. unfold slice_to; destruct (k <? 0)%Z; apply firstn_nil. Qed.

Lemma slice_to_length {A : Type} (l : list A) (k : Z) :
  Z.of_nat (List.length (slice_to l k))
  = (if (k <? 0)%Z then Z.max 0 (Z.of_nat (List.length l) + k)
     else Z.min k (Z.of_nat (List.length l)))%Z.
Proof.
  unfold slice_to.
  destruct (Z.ltb_spec k 0); rewrite length_firstn; lia.
Qed.

Lemma successes_nil (strategies : list strategy) (combinations : list (list F))
    (cap : F) (dir : directory F) :
  (forall weights, In weights combinations ->
     exists site,
       outcome (combine_portfolios strategies weights cap dir) = Return (Nothing site)) ->
  successes strategies combinations cap dir = [].
Proof.
  induction combinations as [| w rest IH]; intros H; [reflexivity |].
  unfold successes; cbn [flat_map].
  destruct (H w (or_introl eq_refl)) as (site & ->).
  apply IH; intros w' Hin; apply H; right; exact Hin.
Qed.

(** The log of the sweep, when no combination raises. *)
Lemma sweep_files_read (strategies : list strategy) (combinations : list (list F))
    (cap : F) (dir : directory F) :
  (forall weights e, In weights combinations ->
     outcome (combine_portfolios strategies weights cap dir) <> Raise e) ->
  files_read (sweep strategies combinations cap dir)
  = flat_map (fun weights => files_read (combine_portfolios strategies weights cap dir))
      combinations.
Proof.
  induction combinations as [| w rest IH]; intros Hno; [reflexivity |].
  cbn [sweep flat_map].
  rewrite files_read_bind; f_equal.
  destruct (outcome (combine_portfolios strategies w cap dir)) as [m | e] eqn:Hm.
  2:{ exfalso; apply (Hno w e); [left; reflexivity | exact Hm]. }
  rewrite files_read_bind.
  rewrite IH by (intros w' e Hin; apply Hno; right; exact Hin).
  destruct (outcome (sweep strategies rest cap dir)); cbn; apply app_nil_r.
Qed.

Lemma optimize_portfolio_log (strategies : list strategy) (cap : F)
    (dir : directory F) (weight_step : F) (top_n : Z) (weight_range : list F) :
  np_arange (of_Z 0) (fadd (of_Z 1) weight_step) weight_step = Return weight_range ->
  files_read (optimize_portfolio strategies cap dir weight_step top_n)
  = files_read (sweep strategies
                  (weight_combinations weight_range (List.length strategies)) cap dir).
Proof.
  intros Hr; unfold optimize_portfolio; rewrite Hr.
  rewrite files_read_bind; cbn [lift files_read fst outcome snd app].
  rewrite files_read_bind.
  destruct (outcome (sweep _ _ _ _)); cbn; apply app_nil_r.
Qed.

Lemma flat_map_accepted {B : Type} (l : list B) (combinations : list (list F)) :
  flat_map (fun weights => if weights_rejected weights then [] else l) combinations
  = flat_map (fun _ => l) (accepted combinations).
Proof.
  unfold accepted; induction combinations as [| w rest IH]; [reflexivity |].
  cbn [flat_map filter].
  destruct (weights_rejected w); cbn [negb flat_map app]; rewrite IH; reflexivity.
Qed.

Lemma optimize_portfolio_without_strategy (cap : F) (dir : directory F)
    (weight_step : F) (top_n : Z) (weight_range : list F) :
  sums_to_one (@nil F) = false ->
  np_arange (of_Z 0) (fadd (of_Z 1) weight_step) weight_step = Return weight_range ->
  optimize_portfolio [] cap dir weight_step top_n = ([], Return []).
Proof.
  intros Hsum Hr; unfold optimize_portfolio; rewrite Hr.
  unfold lift; cbn [bind].
  unfold weight_combinations, kept_tuples; cbn [List.length product filter].
  rewrite Hsum; cbn [map sweep].
  unfold ret; cbn [bind app sort_by_sharpe fold_right].
  rewrite slice_to_nil; reflexivity.
Qed.

End SearchFacts.

(** X7.  When the history of a strategy is missing, and the strategies
    before it have readable histories, every combination of the grid comes
    to nothing and [optimize_portfolio] returns the empty list; it does not
    fail. *)
Theorem optimize_portfolio_missing_history {F : Type} {ops : Float64 F}
    (before after : list strategy) (s : strategy) (cap : F) (dir : directory F)
    (weight_step : F) (top_n : Z) (weight_range : list F) :
  np_arange (of_Z 0) (fadd (of_Z 1) weight_step) weight_step = Return weight_range ->
  (forall b, In b before -> frame_of dir b <> None) ->
  dir (path_of s) = None ->
  outcome (optimize_portfolio (before ++ s :: after) cap dir weight_step top_n)
  = Return [].
Proof.
  intros Hr Hb Hs.
  assert (Hnone : frame_of dir s = None).
  { unfold frame_of; unfold path_of in Hs; rewrite Hs; reflexivity. }
  assert (Hall : forall weights,
             exists site,
               outcome (combine_portfolios (before ++ s :: after) weights cap dir)
               = Return (Nothing site)).
  { intros weights.
    destruct (weights_rejected weights) eqn:Hw.
    - exists InvalidWeights.
      rewrite (combine_portfolios_rejects _ _ _ _ Hw); reflexivity.
    - exists NotFound.
      rewrite combine_portfolios_outcome, Hw.
      rewrite (load_all_first_failure dir before after s Hb Hnone), Hs.
      reflexivity. }
  rewrite (optimize_portfolio_outcome _ _ _ _ _ _ Hr).
  rewrite sweep_defined.
  - rewrite successes_nil by (intros w _; apply Hall).
    cbn; rewrite slice_to_nil; reflexivity.
  - intros weights e _ He.
    destruct (Hall weights) as (site & Hsite); congruence.
Qed.

Lemma optimize_portfolio_missing_history_witness :
  outcome (optimize_portfolio ([Run.hsbc] ++ Run.tencent :: [Run.whgroup])
             20000%float Run.two_curves 0.5%float 10%Z)
  = Return [].
Proof.
  apply (optimize_portfolio_missing_history [Run.hsbc] [Run.whgroup] Run.tencent
           20000%float Run.two_curves 0.5%float 10%Z [0; 0.5; 1]%float).
  - vm_compute; reflexivity.
  - intros b [<- | []]; vm_compute; discriminate.
  - vm_compute; reflexivity.
Defined.

(** X8.  [optimize_portfolio] loads the histories anew for every
    combination: with a readable history for each of the strategies, of
    which there is at least one, it reads the files of all the strategies,
    in their order, once for each combination of the grid that passes the
    weight check of the combiner. *)
Theorem optimize_portfolio_files_read {F : Type} {ops : Float64 F}
    (strategies : list strategy) (cap : F) (dir : directory F) (weight_step : F)
    (top_n : Z) (weight_range : list F) :
  np_arange (of_Z 0) (fadd (of_Z 1) weight_step) weight_step = Return weight_range ->
  strategies <> [] ->
  (forall s, In s strategies -> frame_of dir s <> None) ->
  files_read (optimize_portfolio strategies cap dir weight_step top_n)
  = flat_map (fun _ => map path_of strategies)
      (accepted (weight_combinations weight_range (List.length strategies))).
Proof.
  intros Hr Hne Hread.
  rewrite (optimize_portfolio_log _ _ _ _ _ _ Hr).
  rewrite sweep_files_read.
  - rewrite <- flat_map_accepted.
    apply flat_map_ext; intros weights.
    rewrite combine_portfolios_log, load_all_files_read.
    rewrite (consulted_all dir strategies Hread); reflexivity.
  - intros weights e Hin.
    apply combine_portfolios_no_raise; auto.
    rewrite (weight_combinations_length _ _ _ Hin); lia.
Qed.

Lemma optimize_portfolio_files_read_witness :
  files_read (optimize_portfolio [Run.hsbc; Run.whgroup] 20000%float Run.two_curves
                0.5%float 10%Z)
  = flat_map (fun _ => map path_of [Run.hsbc; Run.whgroup])
      (accepted (weight_combinations [0; 0.5; 1]%float 2)).
Proof.
  apply (optimize_portfolio_files_read [Run.hsbc; Run.whgroup] 20000%float
           Run.two_curves 0.5%float 10%Z [0; 0.5; 1]%float).
  - vm_compute; reflexivity.
  - discriminate.
  - intros s [<- | [<- | []]]; vm_compute; discriminate.
Defined.

(** X9.  How many entries [optimize_portfolio] returns, of the [n]
    combinations that succeed: [top_n] of them or all [n], whichever is
    fewer, when [top_n] is not negative (none for [top_n = 0]); and all but
    the last [-top_n], or none, when [top_n] is negative. *)
Theorem optimize_portfolio_ranking_length {F : Type} {ops : Float64 F}
    (strategies : list strategy) (cap : F) (dir : directory F) (weight_step : F)
    (top_n : Z) (weight_range : list F) (ranking : list (portfolio F)) :
  np_arange (of_Z 0) (fadd (of_Z 1) weight_step) weight_step = Return weight_range ->
  outcome (optimize_portfolio strategies cap dir weight_step top_n) = Return ranking ->
  let n :=
    Z.of_nat
      (List.length
         (successes strategies
            (weight_combinations weight_range (List.length strategies)) cap dir)) in
  Z.of_nat (List.length ranking)
  = (if (top_n <? 0)%Z then Z.max 0 (n + top_n) else Z.min top_n n)%Z.
Proof.
  intros Hr Hrun; cbv zeta.
  rewrite (optimize_portfolio_outcome _ _ _ _ _ _ Hr) in Hrun.
  destruct (outcome (sweep strategies _ cap dir)) as [results | e] eqn:Hs;
    try discriminate.
  apply sweep_returns in Hs; subst results.
  inversion Hrun; subst ranking.
  rewrite slice_to_length.
  rewrite (Permutation_length (sort_by_sharpe_perm _)); reflexivity.
Qed.

Lemma optimize_portfolio_ranking_length_witness :
  let ranking :=
    slice_to
      (sort_by_sharpe
         (successes [Run.hsbc; Run.whgroup] (weight_combinations [0; 0.5; 1]%float 2)
            20000%float Run.two_curves))
      (-2) in
  let n :=
    Z.of_nat
      (List.length
         (successes [Run.hsbc; Run.whgroup]
            (weight_combinations [0; 0.5; 1]%float (List.length [Run.hsbc; Run.whgroup]))
            20000%float Run.two_curves)) in
  Z.of_nat (List.length ranking)
  = (if (-2 <? 0)%Z then Z.max 0 (n + -2) else Z.min (-2) n)%Z.
Proof.
  apply (optimize_portfolio_ranking_length [Run.hsbc; Run.whgroup] 20000%float
           Run.two_curves 0.5%float (-2)%Z [0; 0.5; 1]%float).
  - vm_compute; reflexivity.
  - vm_compute; reflexivity.
Defined.

(** X10.  The best comes first.  When [top_n] is at least 1, some
    combination succeeds and no Sharpe ratio is NaN, the first entry of the
    list [optimize_portfolio] returns is a successful combination whose
    Sharpe ratio no other successful combination exceeds, and of those with
    that Sharpe ratio it is the one enumerated first. *)
Theorem optimize_portfolio_best_first {F : Type} {ops : Float64 F} {ord : KeyOrder F}
    (strategies : list strategy) (cap : F) (dir : directory F) (weight_step : F)
    (top_n : Z) (weight_range : list F) (ranking : list (portfolio F)) :
  let results :=
    successes strategies (weight_combinations weight_range (List.length strategies))
      cap dir in
  np_arange (of_Z 0) (fadd (of_Z 1) weight_step) weight_step = Return weight_range ->
  (1 <= top_n)%Z ->
  results <> [] ->
  keys_ordered results ->
  outcome (optimize_portfolio strategies cap dir weight_step top_n) = Return ranking ->
  exists best rest,
    ranking = best :: rest /\
    In best results /\
    (forall p, In p results -> fleb (sharpe p) (sharpe best) = true) /\
    exists others, with_sharpe (sharpe best) results = best :: others.
Proof.
  intros results Hr Hn Hne Hkeys Hrun.
  rewrite (optimize_portfolio_outcome _ _ _ _ _ _ Hr) in Hrun.
  destruct (outcome (sweep strategies _ cap dir)) as [swept | e] eqn:Hs;
    try discriminate.
  apply sweep_returns in Hs; fold results in Hs; subst swept.
  inversion Hrun as [Hrank]; clear Hrun.
  rewrite slice_to_nonneg by lia.
  destruct (sort_by_sharpe_stable_descending results Hkeys) as (Hperm & Hdesc & Hstable).
  destruct (sort_by_sharpe results) as [| best tail] eqn:Hsorted.
  { apply Permutation_nil in Hperm; congruence. }
  assert (Hbest : In best results)
    by (apply (Permutation_in _ Hperm); left; reflexivity).
  assert (Hnan : fisnan (sharpe best) = false)
    by (exact (proj1 (Forall_forall _ _) Hkeys best Hbest)).
  destruct (Z.to_nat top_n) as [| k] eqn:Hk; [lia |].
  exists best, (firstn k tail).
  split; [reflexivity |].
  split; [exact Hbest |].
  inversion Hdesc as [| ? ? _ Hall]; subst.
  split.
  - intros p Hp.
    apply (Permutation_in _ (Permutation_sym Hperm)) in Hp.
    destruct Hp as [<- | Hp].
    + apply fleb_refl; exact Hnan.
    + exact (proj1 (Forall_forall _ _) Hall p Hp).
  - rewrite <- (Hstable (sharpe best)).
    unfold with_sharpe; cbn [filter].
    rewrite (same_key_refl _ Hnan); eauto.
Qed.

Lemma optimize_portfolio_best_first_witness :
  let results :=
    successes [Run.hsbc; Run.whgroup] (weight_combinations [0; 0.5; 1]%float 2)
      20000%float Run.two_curves in
  let ranking := slice_to (sort_by_sharpe results) 2 in
  exists best rest,
    ranking = best :: rest /\
    In best results /\
    (forall p, In p results -> fleb (sharpe p) (sharpe best) = true) /\
    exists others, with_sharpe (sharpe best) results = best :: others.
Proof.
  apply (optimize_portfolio_best_first [Run.hsbc; Run.whgroup] 20000%float
           Run.two_curves 0.5%float 2 [0; 0.5; 1]%float).
  - vm_compute; reflexivity.
  - lia.
  - vm_compute; discriminate.
  - apply Forall_forall; intros p Hin.
    vm_compute in Hin.
    destruct Hin as [<- | [<- | [<- | []]]]; reflexivity.
  - vm_compute; reflexivity.
Defined.

(** X11.  With no strategy at all, the only tuple of the grid is the empty
    one, whose sum is 0: no combination is tested, and [optimize_portfolio]
    returns the empty list without reading a file, whatever the grid, in
    binary64 as in exact arithmetic. *)
Theorem optimize_portfolio_no_strategy :
  (forall (cap : float) (dir : directory float) (weight_step : float) (top_n : Z)
          (weight_range : list float),
      np_arange (of_Z 0) (fadd (of_Z 1) weight_step) weight_step = Return weight_range ->
      optimize_portfolio [] cap dir weight_step top_n = ([], Return []))
  /\
  (forall (cap : XReal.t) (dir : directory XReal.t) (weight_step : XReal.t)
          (top_n : Z) (weight_range : list XReal.t),
      np_arange (of_Z 0) (fadd (of_Z 1) weight_step) weight_step = Return weight_range ->
      optimize_portfolio [] cap dir weight_step top_n = ([], Return [])).
Proof.
  split; intros cap dir weight_step top_n weight_range Hr;
    apply (optimize_portfolio_without_strategy _ _ _ _ weight_range);
    try exact Hr.
  - vm_compute; reflexivity.
  - change (@nil XReal.t) with (map XReal.Finite []).
    rewrite Checks.sums_to_one_finite; cbn [fold_left].
    apply XRealFacts.Rltb_false.
    unfold Rabs; destruct (Rcase_abs (0 - 1)); lra.
Qed.

(** ** When the combiner returns a dictionary *)

(** With weights that pass the check and are as many as the strategies,
    readable histories and a common date, [combine_portfolios] returns a
    dictionary. *)
Lemma combine_portfolios_returns {F : Type} {ops : Float64 F}
    (strategies : list strategy) (weights : list F) (cap : F) (dir : directory F)
    (d0 : date) (rest : list date) :
  weights_rejected weights = false ->
  (forall s, In s strategies -> frame_of dir s <> None) ->
  common_dates_of (map (frame_or_empty dir) strategies) = Return (d0 :: rest) ->
  (List.length strategies <= List.length weights)%nat ->
  exists p,
    outcome (combine_portfolios strategies weights cap dir) = Return (Portfolio p).
Proof.
  intros Hw Hread Hc Hlen.
  pose proof (blended_defined strategies weights cap dir d0 rest Hw Hread Hc Hlen) as Hb.
  pose proof (returned_metrics_blended strategies weights cap dir) as Hm.
  rewrite Hb in Hm.
  unfold weighted_blend in Hm; cbn [map calculate_portfolio_metrics] in Hm.
  unfold returned_metrics in Hm.
  destruct (outcome (combine_portfolios strategies weights cap dir))
    as [[site | p] | e]; try discriminate.
  exists p; reflexivity.
Qed.

(** ** Curves too short for a deviation *)

Section ShortCurves.

Context {F : Type} {ops : Float64 F} {laws : NaNLaws F}.

(** Fewer than two returns have no sample deviation. *)
Lemma series_std_short (l : list F) :
  (List.length l <= 1)%nat -> series_std l = fnan.
Proof.
  intros Hlen; unfold series_std.
  assert (H : (List.length (dropna l) <= 1)%nat).
  { unfold dropna.
    pose proof (filter_length_le (fun x => negb (fisnan x)) l); lia. }
  destruct (Nat.leb_spec (List.length (dropna l)) 1); [reflexivity | lia].
Qed.

Lemma dropna_length (l : list F) : (List.length (dropna l) <= List.length l)%nat.
Proof. apply filter_length_le. Qed.

End ShortCurves.

(** X19.  A curve of one or two values has no Sharpe ratio to speak of: it
    yields at most one daily return, the standard deviation of which is
    NaN, and [calculate_portfolio_metrics] reports a Sharpe ratio of 0,
    whatever the curve gained or lost.  This holds in binary64 and in exact
    arithmetic. *)
Theorem short_curve_sharpe_is_zero {F : Type} {ops : Float64 F} {laws : NaNLaws F}
    (series : list F) (cap : F) :
  series <> [] ->
  (List.length series <= 2)%nat ->
  exists m,
    calculate_portfolio_metrics series cap = Some m /\
    std_dev m = fnan /\
    sharpe_ratio m = of_Z 0.
Proof.
  intros Hne Hlen.
  destruct series as [| a rest]; [congruence |].
  eexists; split; [reflexivity |].
  cbn [std_dev sharpe_ratio].
  assert (Hstd : series_std
                   (map (fun r => fmul r (of_Z 100))
                      (dropna (pct_change (a :: rest))))
                 = fnan).
  { apply series_std_short.
    rewrite length_map.
    cbn [pct_change dropna filter]; rewrite fisnan_fnan; cbn [negb].
    pose proof (dropna_length (pct_change_from a rest)) as Hdrop.
    unfold dropna in Hdrop.
    assert (List.length (pct_change_from a rest) = List.length rest).
    { clear; revert a; induction rest as [| x rest IH]; intros a; [reflexivity |].
      cbn [pct_change_from List.length]; rewrite IH; reflexivity. }
    cbn [List.length] in Hlen; lia. }
  rewrite Hstd, fltb_fnan; auto.
Qed.

Lemma short_curve_sharpe_is_zero_witness :
  exists m,
    calculate_portfolio_metrics [100; 150]%float 100%float = Some m /\
    std_dev m = fnan /\
    sharpe_ratio m = of_Z 0.
Proof.
  apply (short_curve_sharpe_is_zero [100; 150]%float 100%float).
  - discriminate.
  - simpl; lia.
Defined.

(** ** The strategies of the command line *)

Section ParseFacts.

Local Open Scope string_scope.

Lemma split_colon_nonempty (s : string) : split_colon s <> [].
Proof.
  destruct s as [| c r]; cbn [split_colon]; [discriminate |].
  destruct (Ascii.eqb c ":"); [discriminate |].
  destruct (split_colon r); discriminate.
Qed.

Lemma split_colon_length (s : string) :
  List.length (split_colon s) = S (count_colons s).
Proof.
  induction s as [| c r IH]; [reflexivity |].
  cbn [split_colon count_colons].
  destruct (Ascii.eqb c ":"); cbn [List.length Nat.add].
  - rewrite IH; reflexivity.
  - destruct (split_colon r) as [| p ps]; cbn [List.length] in *;
      [discriminate | exact IH].
Qed.

(** A text without a colon is its own single piece. *)
Lemma split_colon_single (s : string) :
  count_colons s = 0%nat -> split_colon s = [s].
Proof.
  induction s as [| c r IH]; [reflexivity |].
  cbn [split_colon count_colons].
  destruct (Ascii.eqb c ":"); [discriminate |].
  intros H; rewrite (IH H); reflexivity.
Qed.

Lemma split_colon_single_inv (s b : string) :
  split_colon s = [b] -> s = b /\ count_colons s = 0%nat.
Proof.
  revert b; induction s as [| c r IH]; intros b; cbn [split_colon count_colons].
  - intros [= <-]; auto.
  - destruct (Ascii.eqb c ":").
    + intros [= _ H]; exfalso; exact (split_colon_nonempty r H).
    + destruct (split_colon r) as [| p ps] eqn:E;
        [exfalso; exact (split_colon_nonempty r E) |].
      intros [= <- ->].
      destruct (IH p eq_refl) as [-> H]; auto.
Qed.

Lemma split_colon_argument (a b : string) :
  count_colons a = 0%nat ->
  split_colon (a ++ ":" ++ b) = a :: split_colon b.
Proof.
  change (":" ++ b) with (String ":" b).
  induction a as [| c r IH]; cbn [append split_colon count_colons].
  - intros _; reflexivity.
  - destruct (Ascii.eqb c ":"); [discriminate |].
    intros H; rewrite (IH H); reflexivity.
Qed.

Lemma split_colon_pair_inv (s a b : string) :
  split_colon s = [a; b] ->
  s = a ++ ":" ++ b /\ count_colons a = 0%nat /\ count_colons b = 0%nat.
Proof.
  revert a b; induction s as [| c r IH]; intros a b; cbn [split_colon].
  - discriminate.
  - destruct (Ascii.eqb_spec c ":") as [-> | Hc].
    + intros [= <- H].
      destruct (split_colon_single_inv r b H) as [-> H0]; auto.
    + destruct (split_colon r) as [| p ps] eqn:E;
        [exfalso; exact (split_colon_nonempty r E) |].
      intros [= <- ->].
      destruct (IH p b eq_refl) as (-> & Hp & Hb).
      repeat split; auto.
      cbn [count_colons].
      destruct (Ascii.eqb_spec c ":"); [contradiction | exact Hp].
Qed.

Lemma split_colon_pair (s : string) :
  count_colons s = 1%nat <-> exists a b, split_colon s = [a; b].
Proof.
  pose proof (split_colon_length s) as Hlen.
  split.
  - intros H1.
    destruct (split_colon s) as [| a [| b [| c l]]]; cbn [List.length] in Hlen;
      try lia; eauto.
  - intros (a & b & H); rewrite H in Hlen; cbn [List.length] in Hlen; lia.
Qed.

Lemma parse_strategies_app (good rest : list string) :
  Forall (fun a => count_colons a = 1%nat) good ->
  match parse_strategies rest with
  | inl bad => parse_strategies (good ++ rest) = inl bad
  | inr strategies =>
      exists parsed, parse_strategies (good ++ rest) = inr (parsed ++ strategies)%list
  end.
Proof.
  induction 1 as [| a good Ha _ IH]; cbn [app].
  - destruct (parse_strategies rest); [reflexivity | exists []; reflexivity].
  - apply split_colon_pair in Ha as (t & ty & Hs).
    cbn [parse_strategies]; rewrite Hs.
    destruct (parse_strategies rest) as [bad | strategies].
    + rewrite IH; reflexivity.
    + destruct IH as (parsed & ->).
      exists ((t, ty) :: parsed); reflexivity.
Qed.

End ParseFacts.

(** X22.  Parsing the strategy arguments is the inverse of writing them:
    strategies whose tickers and types hold no colon, written as
    [ticker:type], parse to themselves; and whenever the arguments parse,
    they are the parsed strategies written as [ticker:type], and no parsed
    ticker or type holds a colon. *)
Theorem parse_strategies_round_trip :
  (forall strategies,
     Forall colon_free strategies ->
     parse_strategies (map strategy_argument strategies) = inr strategies)
  /\
  (forall args strategies,
     parse_strategies args = inr strategies ->
     args = map strategy_argument strategies /\ Forall colon_free strategies).
Proof.
  split.
  - induction 1 as [| [t ty] l [Ht Hty] _ IH]; [reflexivity |].
    cbn [map parse_strategies]; unfold strategy_argument at 1; cbn [fst snd] in *.
    rewrite (split_colon_argument t ty Ht), (split_colon_single ty Hty), IH.
    reflexivity.
  - induction args as [| a args IH]; intros strategies; cbn [parse_strategies].
    + intros [= <-]; split; [reflexivity | constructor].
    + destruct (split_colon a) as [| t [| ty [| x l]]] eqn:E; try discriminate.
      destruct (parse_strategies args) as [bad | parsed]; [discriminate |].
      intros [= <-].
      destruct (split_colon_pair_inv a t ty E) as (-> & Ht & Hty).
      destruct (IH parsed eq_refl) as [-> Hfree].
      split; [reflexivity |].
      constructor; [split; assumption | exact Hfree].
Qed.

(** X23.  [main] stops on the first strategy argument that does not hold
    exactly one colon: it reports that argument and has read no file, even
    when custom weights were given. *)
Theorem main_rejects_malformed_strategy {F : Type} {ops : Float64 F}
    (args : arguments F) (good rest : list string) (bad : string) :
  arg_strategies args = (good ++ bad :: rest)%list ->
  Forall (fun a => count_colons a = 1%nat) good ->
  count_colons bad <> 1%nat ->
  main args = ([], Return (InvalidStrategyFormat bad)).
Proof.
  intros Hargs Hgood Hbad.
  unfold main; rewrite Hargs.
  pose proof (parse_strategies_app good (bad :: rest) Hgood) as H.
  assert (Hrest : parse_strategies (bad :: rest) = inl bad).
  { cbn [parse_strategies].
    destruct (split_colon bad) as [| t [| ty [| x l]]] eqn:E; try reflexivity.
    exfalso; apply Hbad, split_colon_pair; eauto. }
  rewrite Hrest in H; rewrite H; reflexivity.
Qed.

Lemma main_rejects_malformed_strategy_witness :
  main {| arg_strategies := ["0005.HK:Aggressive"; "0288.HK"; "a:b:c"]%string;
          arg_capital := 20000%float;
          arg_results_dir := Run.two_curves;
          arg_weight_step := 0.1%float;
          arg_top_n := 10%Z;
          arg_custom_weights := Some [0.5; 0.5]%float |}
  = ([], Return (InvalidStrategyFormat "0288.HK")).
Proof.
  apply (main_rejects_malformed_strategy _ ["0005.HK:Aggressive"%string]
           ["a:b:c"%string] "0288.HK"%string).
  - reflexivity.
  - repeat constructor.
  - cbn; lia.
Defined.

(** ** [main] and what it runs *)

Section MainFacts.

Context {F : Type} {ops : Float64 F}.

Lemma consulted_prefix (dir : directory F) (strategies : list strategy) :
  exists rest, strategies = (consulted dir strategies ++ rest)%list.
Proof.
  induction strategies as [| s l IH]; [exists []; reflexivity |].
  cbn [consulted].
  destruct (frame_of dir s).
  - destruct IH as (rest & Hrest); exists rest; cbn [app]; congruence.
  - exists l; reflexivity.
Qed.

Lemma results_data_rank (top : list (portfolio F)) :
  forall rank, map Rank (results_data rank top) = seq rank (List.length top).
Proof.
  induction top as [| p top IH]; intros rank; [reflexivity |].
  cbn [results_data map Rank List.length seq]; rewrite IH; reflexivity.
Qed.

Lemma results_data_sharpe (top : list (portfolio F)) :
  forall rank, map Sharpe_Ratio (results_data rank top) = map sharpe top.
Proof.
  induction top as [| p top IH]; intros rank; [reflexivity |].
  cbn [results_data map Sharpe_Ratio]; rewrite IH; reflexivity.
Qed.

Lemma results_data_pairs (top : list (portfolio F)) :
  forall rank,
    map Portfolio_pairs (results_data rank top)
    = map (fun p => List.combine (strategies_of p) (weights_of p)) top.
Proof.
  induction top as [| p top IH]; intros rank; [reflexivity |].
  cbn [results_data map Portfolio_pairs]; rewrite IH; reflexivity.
Qed.

End MainFacts.

(** X24.  Given custom weights, [main] tests that one blend and nothing
    else: it ends with the report of the custom-weights branch, it never
    runs the grid search, and it has asked for the history of each strategy
    at most once, in the order of the strategies. *)
Theorem main_with_custom_weights {F : Type} {ops : Float64 F}
    (args : arguments F) (strategies : list strategy) (w : F) (ws : list F) :
  parse_strategies (arg_strategies args) = inr strategies ->
  arg_custom_weights args = Some (w :: ws) ->
  (forall r, outcome (main args) = Return r -> exists c, r = CustomWeights c) /\
  (exists rest, map path_of strategies = (files_read (main args) ++ rest)%list) /\
  (List.length (w :: ws) = List.length strategies ->
   files_read (main args)
   = files_read (combine_portfolios strategies (w :: ws) (arg_capital args)
                   (arg_results_dir args))).
Proof.
  intros Hparse Hcustom.
  unfold main; rewrite Hparse, Hcustom.
  unfold main_custom_weights.
  destruct (Nat.eqb_spec (List.length (w :: ws)) (List.length strategies)) as [Hlen | Hlen];
    cbn [negb].
  - set (run := combine_portfolios strategies (w :: ws) (arg_capital args)
                  (arg_results_dir args)).
    assert (Hlog : files_read
                     (bind (bind run (fun m => ret (Some (Tested m))))
                        (fun custom =>
                           match custom with
                           | Some r => ret (CustomWeights r)
                           | None =>
                               bind (optimize_portfolio strategies (arg_capital args)
                                       (arg_results_dir args) (arg_weight_step args)
                                       (arg_top_n args))
                                 (fun top_portfolios =>
                                    match top_portfolios with
                                    | [] => ret NoValidCombination
                                    | _ :: _ => ret (Saved (results_data 1 top_portfolios))
                                    end)
                           end))
                   = files_read run).
    { rewrite !files_read_bind.
      destruct run as [log [m | e]]; cbn; rewrite ?app_nil_r; reflexivity. }
    split; [| split].
    + intros r.
      destruct run as [log [m | e]]; cbn; [| discriminate].
      intros [= <-]; eauto.
    + rewrite Hlog; unfold run.
      rewrite combine_portfolios_log, load_all_files_read.
      destruct (weights_rejected (w :: ws)).
      * exists (map path_of strategies); reflexivity.
      * destruct (consulted_prefix (arg_results_dir args) strategies) as (rest & Hrest).
        exists (map path_of rest); rewrite <- map_app, <- Hrest; reflexivity.
    + intros _; exact Hlog.
  - split; [| split].
    + cbn; intros r [= <-]; eauto.
    + exists (map path_of strategies); reflexivity.
    + intros H; contradiction.
Qed.

Lemma main_with_custom_weights_witness :
  let args :=
    {| arg_strategies := ["0005.HK:Aggressive"; "0288.HK:Conservative"]%string;
       arg_capital := 20000%float;
       arg_results_dir := Run.two_curves;
       arg_weight_step := 0.1%float;
       arg_top_n := 10%Z;
       arg_custom_weights := Some [0.5; 0.5]%float |} in
  (forall r, outcome (main args) = Return r -> exists c, r = CustomWeights c) /\
  (exists rest,
     map path_of [Run.hsbc; Run.whgroup] = (files_read (main args) ++ rest)%list) /\
  (List.length [0.5; 0.5]%float = List.length [Run.hsbc; Run.whgroup] ->
   files_read (main args)
   = files_read (combine_portfolios [Run.hsbc; Run.whgroup] [0.5; 0.5]%float
                   (arg_capital args) (arg_results_dir args))).
Proof.
  apply (main_with_custom_weights _ [Run.hsbc; Run.whgroup] 0.5%float [0.5%float]);
    reflexivity.
Defined.

(** X25.  What [main] writes after a grid search: when it ends with rows to
    save, there is at least one row; the rows are those of the ranking that
    [optimize_portfolio] returned, in its order, ranked 1, 2, 3 and so on;
    each row carries the Sharpe ratio of its entry, and pairs every strategy
    of the command line with a weight of one combination of the grid. *)
Theorem main_saves_the_ranking {F : Type} {ops : Float64 F}
    (args : arguments F) (strategies : list strategy) (weight_range : list F)
    (rows : list (results_row F)) :
  parse_strategies (arg_strategies args) = inr strategies ->
  np_arange (of_Z 0) (fadd (of_Z 1) (arg_weight_step args)) (arg_weight_step args)
  = Return weight_range ->
  outcome (main args) = Return (Saved rows) ->
  exists ranking,
    outcome (optimize_portfolio strategies (arg_capital args) (arg_results_dir args)
               (arg_weight_step args) (arg_top_n args))
    = Return ranking /\
    rows <> [] /\
    List.length rows = List.length ranking /\
    map Rank rows = seq 1 (List.length rows) /\
    map Sharpe_Ratio rows = map sharpe ranking /\
    Forall (fun row =>
              map fst (Portfolio_pairs row) = strategies /\
              In (map snd (Portfolio_pairs row))
                (weight_combinations weight_range (List.length strategies)))
      rows.
Proof.
  intros Hparse Hr Hmain.
  unfold main in Hmain; rewrite Hparse in Hmain.
  apply bind_outcome_return in Hmain as (custom & Hcustom & Hmain).
  destruct custom as [r |]; [cbn in Hmain; discriminate |].
  apply bind_outcome_return in Hmain as (ranking & Hrun & Hmain).
  destruct ranking as [| p ranking]; [cbn in Hmain; discriminate |].
  cbn [ret outcome snd] in Hmain; injection Hmain as <-.
  exists (p :: ranking).
  split; [exact Hrun |].
  split; [discriminate |].
  assert (Hlen : List.length (results_data 1 (p :: ranking))
                 = List.length (p :: ranking)).
  { rewrite <- (length_map Rank), results_data_rank, length_seq; reflexivity. }
  split; [exact Hlen |].
  split.
  { transitivity (seq 1 (List.length (p :: ranking)));
      [apply (results_data_rank (p :: ranking) 1) | f_equal; symmetry; exact Hlen]. }
  split; [apply (results_data_sharpe (p :: ranking) 1) |].
  apply Forall_forall; intros row Hrow.
  apply (in_map Portfolio_pairs) in Hrow.
  change (In (Portfolio_pairs row)
            (map Portfolio_pairs (results_data 1 (p :: ranking)))) in Hrow.
  rewrite results_data_pairs in Hrow.
  apply in_map_iff in Hrow as (q & <- & Hq).
  rewrite (optimize_portfolio_outcome _ _ _ _ _ _ Hr) in Hrun.
  destruct (outcome (sweep strategies _ (arg_capital args) (arg_results_dir args)))
    as [results | e] eqn:Hs; try discriminate.
  apply sweep_returns in Hs.
  injection Hrun as Hrun.
  assert (Hin : In q results).
  { destruct (slice_to_is_prefix (sort_by_sharpe results) (arg_top_n args))
      as [rest Hp].
    apply (Permutation_in _ (sort_by_sharpe_perm results)).
    rewrite Hp, Hrun; apply in_or_app; left; exact Hq. }
  rewrite Hs in Hin.
  apply in_successes in Hin as (weights & Hw & Hout).
  apply combine_portfolios_success in Hout
    as (portfolios & common & m & _ & _ & _ & _ & _ & _ & ->).
  cbn [strategies_of weights_of].
  pose proof (weight_combinations_length _ _ _ Hw) as Hwl.
  rewrite map_fst_combine, map_snd_combine by auto.
  auto.
Qed.

Lemma main_saves_the_ranking_witness :
  let args :=
    {| arg_strategies := ["0005.HK:Aggressive"; "0288.HK:Conservative"]%string;
       arg_capital := 20000%float;
       arg_results_dir := Run.two_curves;
       arg_weight_step := 0.5%float;
       arg_top_n := 2%Z;
       arg_custom_weights := None |} in
  exists rows ranking,
    outcome (main args) = Return (Saved rows) /\
    outcome (optimize_portfolio [Run.hsbc; Run.whgroup] (arg_capital args)
               (arg_results_dir args) (arg_weight_step args) (arg_top_n args))
    = Return ranking /\
    rows <> [] /\
    List.length rows = List.length ranking /\
    map Rank rows = seq 1 (List.length rows) /\
    map Sharpe_Ratio rows = map sharpe ranking /\
    Forall (fun row =>
              map fst (Portfolio_pairs row) = [Run.hsbc; Run.whgroup] /\
              In (map snd (Portfolio_pairs row))
                (weight_combinations [0; 0.5; 1]%float
                   (List.length [Run.hsbc; Run.whgroup])))
      rows.
Proof.
  cbv zeta.
  set (args := {| arg_strategies :=
                    ["0005.HK:Aggressive"; "0288.HK:Conservative"]%string;
                  arg_capital := 20000%float;
                  arg_results_dir := Run.two_curves;
                  arg_weight_step := 0.5%float;
                  arg_top_n := 2%Z;
                  arg_custom_weights := None |}).
  assert (Hmain : exists rows, outcome (main args) = Return (Saved rows))
    by (eexists; vm_compute; reflexivity).
  destruct Hmain as (rows & Hmain).
  assert (Hgrid : np_arange (of_Z 0) (fadd (of_Z 1) (arg_weight_step args))
                    (arg_weight_step args)
                  = Return [0; 0.5; 1]%float) by (vm_compute; reflexivity).
  destruct (main_saves_the_ranking args [Run.hsbc; Run.whgroup] [0; 0.5; 1]%float
              rows eq_refl Hgrid Hmain) as (ranking & H).
  exists rows, ranking; split; [exact Hmain | exact H].
Defined.

(** ** The case of a strategy type *)

Section CaseFacts.

Context {F : Type} {ops : Float64 F}.

Lemma load_all_same_folders (dir : directory F) (strategies : list strategy) :
  forall strategies',
    map path_of strategies = map path_of strategies' ->
    load_all strategies dir = load_all strategies' dir.
Proof.
  induction strategies as [| [t ty] l IH]; intros [| [t' ty'] l'] H;
    try discriminate; [reflexivity |].
  cbn [map] in H; injection H as Hpath Hrest.
  unfold path_of in Hpath; cbn [fst snd] in Hpath.
  cbn [load_all]; unfold load_portfolio_history.
  rewrite Hpath, (IH l' Hrest); reflexivity.
Qed.

End CaseFacts.

(** X26.  The folder of a strategy is named with its type in lower case,
    so the case of the letters of a strategy type does not matter: two
    lists of strategies with the same tickers, and types that are equal
    once in lower case, give the same series and metrics and read the same
    files. *)
Theorem strategy_type_case_is_ignored {F : Type} {ops : Float64 F}
    (strategies strategies' : list strategy) (weights : list F) (cap : F)
    (dir : directory F) :
  map fst strategies = map fst strategies' ->
  map (fun s => lower (snd s)) strategies = map (fun s => lower (snd s)) strategies' ->
  let one := combine_portfolios strategies weights cap dir in
  let other := combine_portfolios strategies' weights cap dir in
  returned_series one = returned_series other /\
  returned_metrics one = returned_metrics other /\
  files_read one = files_read other.
Proof.
  intros Hfst Hsnd; cbv zeta.
  assert (Hpaths : map path_of strategies = map path_of strategies').
  { revert strategies' Hfst Hsnd.
    induction strategies as [| [t ty] l IH]; intros [| [t' ty'] l'] Hfst Hsnd;
      try discriminate; [reflexivity |].
    cbn [map fst snd] in *.
    injection Hfst as -> Hfst; injection Hsnd as Hty Hsnd.
    unfold path_of at 1 3, strategy_dir; cbn [fst snd].
    rewrite Hty, (IH l' Hfst Hsnd); reflexivity. }
  pose proof (load_all_same_folders dir _ _ Hpaths) as Hload.
  rewrite !returned_series_blended, !returned_metrics_blended,
    !combine_portfolios_log.
  unfold blended; rewrite Hload; auto.
Qed.

Lemma strategy_type_case_is_ignored_witness :
  let one :=
    combine_portfolios [("0005.HK", "Aggressive"); ("0288.HK", "Conservative")]%string
      [0.5; 0.5]%float 20000%float Run.two_curves in
  let other :=
    combine_portfolios [("0005.HK", "AGGRESSIVE"); ("0288.HK", "conservative")]%string
      [0.5; 0.5]%float 20000%float Run.two_curves in
  returned_series one = returned_series other /\
  returned_metrics one = returned_metrics other /\
  files_read one = files_read other.
Proof.
  apply (strategy_type_case_is_ignored
           [("0005.HK", "Aggressive"); ("0288.HK", "Conservative")]%string
           [("0005.HK", "AGGRESSIVE"); ("0288.HK", "conservative")]%string);
    reflexivity.
Defined.

(** ** Sequences for the model *)

Section SequencesFacts.

Context {A : Type}.

Lemma window_rows (data : list (list A)) (seq_len j : nat) :
  skipn (seq_len + j - seq_len) (firstn (seq_len + j) data)
  = firstn seq_len (skipn j data).
Proof.
  replace (seq_len + j - seq_len)%nat with j by lia.
  rewrite skipn_firstn_comm.
  f_equal; lia.
Qed.

(** With a first column in every row, the loop goes through, and gives one
    window and one target for each step. *)
Lemma sequences_from_returns (data : list (list A)) (seq_len : nat)
    (steps : list nat) :
  (forall row, In row data -> row <> []) ->
  Forall (fun i => (i < List.length data)%nat) steps ->
  exists y,
    sequences_from data seq_len steps
    = Return (map (fun i => skipn (i - seq_len) (firstn i data)) steps, y) /\
    Forall2 (fun i target => exists rest, nth_error data i = Some (target :: rest))
      steps y.
Proof.
  intros Hrows; induction 1 as [| i steps Hi _ IH].
  - exists []; split; [reflexivity | constructor].
  - destruct IH as (y & Hrun & Hy).
    cbn [sequences_from map]; unfold first_column.
    destruct (nth_error data i) as [row |] eqn:E.
    2:{ apply nth_error_None in E; lia. }
    destruct row as [| target rest].
    { exfalso; apply (Hrows []); [exact (nth_error_In _ _ E) | reflexivity]. }
    rewrite Hrun.
    exists (target :: y); split; [reflexivity |].
    constructor; eauto.
Qed.

Lemma Forall2_nth_error {X Y : Type} (P : X -> Y -> Prop) (l : list X) (l' : list Y) :
  Forall2 P l l' ->
  forall j x, nth_error l j = Some x ->
    exists y, nth_error l' j = Some y /\ P x y.
Proof.
  induction 1 as [| a b l l' Hab _ IH]; intros [| j] x; cbn [nth_error];
    try discriminate.
  - intros [= <-]; eauto.
  - apply IH.
Qed.

Lemma nth_error_seq (start len j : nat) :
  (j < len)%nat -> nth_error (seq start len) j = Some (start + j)%nat.
Proof.
  revert start j; induction len as [| len IH]; intros start [| j] H; try lia.
  - cbn; f_equal; lia.
  - cbn [seq nth_error]; rewrite IH by lia; f_equal; lia.
Qed.

(** Without a first column, the first step fails. *)
Lemma sequences_from_no_column (data : list (list A)) (seq_len i : nat)
    (steps : list nat) :
  (forall row, In row data -> row = []) ->
  sequences_from data seq_len (i :: steps) = Raise IndexError.
Proof.
  intros Hrows; cbn [sequences_from]; unfold first_column.
  destruct (nth_error data i) as [row |] eqn:E; [| reflexivity].
  rewrite (Hrows row (nth_error_In _ _ E)); reflexivity.
Qed.

End SequencesFacts.

(** X27.  [create_sequences] slides a window over the rows: for data whose
    rows have a first column it returns [len(data) - seq_len] windows and as
    many targets (none when the data has no more than [seq_len] rows);
    window [j] holds the [seq_len] rows from row [j] on, converted to
    float32, and target [j] is the first column of the row that follows
    them, row [j + seq_len], which is no row of the window. *)
Theorem create_sequences_windows {A B : Type} (to_float32 : A -> B)
    (data : list (list A)) (seq_len : nat) :
  (forall row, In row data -> row <> []) ->
  exists X y,
    create_sequences to_float32 data seq_len = Return (X, y) /\
    List.length X = (List.length data - seq_len)%nat /\
    List.length y = (List.length data - seq_len)%nat /\
    forall j, (j < List.length data - seq_len)%nat ->
      nth_error X j
      = Some (map (map to_float32) (firstn seq_len (skipn j data))) /\
      exists target rest,
        nth_error data (j + seq_len) = Some (target :: rest) /\
        nth_error y j = Some (to_float32 target).
Proof.
  intros Hrows.
  set (steps := seq seq_len (List.length data - seq_len)).
  destruct (sequences_from_returns data seq_len steps Hrows) as (y & Hrun & Hy).
  { apply Forall_forall; intros i Hi; apply in_seq in Hi; lia. }
  unfold create_sequences; fold steps; rewrite Hrun.
  eexists; eexists; split; [reflexivity |].
  assert (Hlen : List.length y = (List.length data - seq_len)%nat).
  { rewrite <- (Forall2_length Hy); apply length_seq. }
  split; [rewrite !length_map; apply length_seq |].
  split; [rewrite length_map; exact Hlen |].
  intros j Hj.
  pose proof (nth_error_seq seq_len (List.length data - seq_len) j Hj) as Hstep.
  fold steps in Hstep.
  split.
  - rewrite map_map.
    rewrite (nth_error_map _ j steps), Hstep; cbn [option_map].
    rewrite window_rows; reflexivity.
  - destruct (Forall2_nth_error _ _ _ Hy j _ Hstep) as (target & Htarget & rest & Hrow).
    exists target, rest; split.
    + rewrite Nat.add_comm; exact Hrow.
    + rewrite nth_error_map, Htarget; reflexivity.
Qed.

Lemma create_sequences_windows_witness :
  exists X y,
    create_sequences (fun x : Z => x) [[1; 10]; [2; 20]; [3; 30]; [4; 40]]%Z 2
    = Return (X, y) /\
    List.length X = (List.length [[1; 10]; [2; 20]; [3; 30]; [4; 40]]%Z - 2)%nat /\
    List.length y = (List.length [[1; 10]; [2; 20]; [3; 30]; [4; 40]]%Z - 2)%nat /\
    forall j, (j < List.length [[1; 10]; [2; 20]; [3; 30]; [4; 40]]%Z - 2)%nat ->
      nth_error X j
      = Some (map (map (fun x : Z => x))
                (firstn 2 (skipn j [[1; 10]; [2; 20]; [3; 30]; [4; 40]]%Z))) /\
      exists target rest,
        nth_error [[1; 10]; [2; 20]; [3; 30]; [4; 40]]%Z (j + 2)
        = Some (target :: rest) /\
        nth_error y j = Some ((fun x : Z => x) target).
Proof.
  apply (create_sequences_windows (fun x : Z => x)
           [[1; 10]; [2; 20]; [3; 30]; [4; 40]]%Z 2).
  intros row [<- | [<- | [<- | [<- | []]]]]; discriminate.
Defined.

(** X28.  On an array with rows and no column, [create_sequences] fails
    with [IndexError] as soon as there is a step to take, that is when the
    array has more than [seq_len] rows; with no step to take it returns two
    empty arrays. *)
Theorem create_sequences_without_columns {A B : Type} (to_float32 : A -> B)
    (data : list (list A)) (seq_len : nat) :
  (forall row, In row data -> row = []) ->
  create_sequences to_float32 data seq_len
  = if (seq_len <? List.length data)%nat then Raise IndexError
    else Return ([], []).
Proof.
  intros Hrows; unfold create_sequences.
  destruct (Nat.ltb_spec seq_len (List.length data)) as [Hlt | Hge].
  - destruct (List.length data - seq_len)%nat as [| m] eqn:E; [lia |].
    cbn [seq].
    rewrite (sequences_from_no_column data seq_len _ _ Hrows); reflexivity.
  - replace (List.length data - seq_len)%nat with 0%nat by lia.
    reflexivity.
Qed.

Lemma create_sequences_without_columns_witness :
  create_sequences (fun x : Z => x) [[]; []; []] 1
  = if (1 <? List.length [@nil Z; []; []])%nat then Raise IndexError
    else Return ([], []).
Proof.
  apply (create_sequences_without_columns (fun x : Z => x) [[]; []; []] 1).
  intros row [<- | [<- | [<- | []]]]; reflexivity.
Defined.
